(** * MQTT Hub: the message queue and the application life cycle

    A shallow embedding of [src/mqtt/MessageQueue.js] and of the life-cycle
    part of [src/app.js], with the properties stated about them.

    JavaScript objects that are shared by reference (the [Message] objects,
    which are held by both [queue] and [messages] and mutated in place) live
    in an explicit [heap]; [queue] and [messages] hold locations. The
    [async] functions are cut at their [await]s: the part of [process] that
    runs synchronously inside the caller, and the part that runs when the
    event loop resumes it. *)

From Stdlib Require Import ZArith String Ascii List Bool Lia.
From stdpp Require Import base option list gmap strings pretty.

(** ** Message ([src/mqtt/Message.js]) *)

(** The payload is opaque to the queue; strings stand for it. *)
Definition Payload := string.

Record Message := mkMessage {
  mqttTopic : string;
  mqttMessage : Payload;
  qos : option Z;          (* [None] is JavaScript's [undefined] *)
  retain : option bool;    (* [None] is JavaScript's [undefined] *)
}.

Global Instance Message_inhabited : Inhabited Message :=
  populate (mkMessage "" "" None None).

Global Instance Message_eq_dec : EqDecision Message.
Proof. solve_decision. Defined.

(** Field assignments [message.f = v]. *)
Definition set_mqttMessage (v : Payload) (m : Message) : Message :=
  mkMessage (mqttTopic m) v (qos m) (retain m).
Definition set_qos (v : option Z) (m : Message) : Message :=
  mkMessage (mqttTopic m) (mqttMessage m) v (retain m).
Definition set_retain (v : option bool) (m : Message) : Message :=
  mkMessage (mqttTopic m) (mqttMessage m) (qos m) v.

Section MessageConstructor.
(** The level a message gets when no level is given. *)
Variable default_qos : Z.

(** Modelled from the spec: [src/mqtt/Message.js] is not among the sources.
    The constructor is called as [new Message(topic, payload, qos, retain)]
    and the fields read and written by the queue are [mqttTopic],
    [mqttMessage], [qos] and [retain]; the spec's data model says of [qos]:
    "integer quality-of-service level, defaulted if absent". *)
Definition Message_new (topic : string) (message : Payload)
    (q : option Z) (r : option bool) : Message :=
  mkMessage topic message (Some (default default_qos q)) r.
End MessageConstructor.

(** ** The collaborators: MQTT client, log, dispatch components *)

(** How a call of [mqttClient.publish] ends: it returns a promise that is
    fulfilled, a promise that is rejected, or it throws before returning. *)
Inductive Outcome := Resolves | Rejects | Throws.

(** How an awaited promise settles. *)
Inductive Settled := Fulfilled | Rejected.

(** Calls made on the collaborators, in the order they are made. *)
Inductive Event :=
| Connect
| Disconnect
| Publish (m : Message)
| CommandHandler_new
| CommandHandler_destroy
| HomieDispatcher_new
| HomieDispatcher_register
| HomieDispatcher_destroy
| HomieDispatcher_broadcast (b : bool)
| HomeAssistantDispatcher_new
| HomeAssistantDispatcher_register
| HomeAssistantDispatcher_destroy
| HomeAssistantDispatcher_broadcast (b : bool)
| SystemStateDispatcher_new
| SystemStateDispatcher_destroy
| SystemStateDispatcher_broadcast (b : bool).

Global Instance Event_eq_dec : EqDecision Event.
Proof. solve_decision. Defined.

Inductive LogEntry :=
| Log_info (s : string)
| Log_error (s : string)
| Log_error_exn            (* [Log.error(e)] of a caught error *)
| Log_debug_exn.           (* [Log.debug(e)] of a caught error *)

(** The messages handed to [publish], oldest first. *)
Definition published (tr : list Event) : list Message :=
  omap (λ e, match e with Publish m => Some m | _ => None end) tr.

(** ** State *)

(** References to Message objects: positions in the heap. *)
Abbreviation loc := nat.

(** What the suspended activation of [process] waits for. *)
Inductive Awaiting :=
| AwaitPublish (o : Settled)
    (* [send] is at [await this.mqttClient.publish(message)], whose promise
       will settle as [o]; [next] is at [await this.send(msg)] *)
| AwaitSend
    (* [publish] threw, [send] handled it and returned; [next] is at
       [await this.send(msg)] *)
| AwaitNext.
    (* [next] found no message and returned; [process] is at
       [await this.next()] *)

Record Frame := mkFrame {
  count : nat;             (* the local [count] of [process] *)
  awaiting : Awaiting;
}.

Record State := mkState {
  (* the JavaScript heap: Message objects by reference *)
  heap : list Message;
  (* fields of the MessageQueue object *)
  queue : list loc;                (* [this.queue] *)
  messages : gmap string loc;      (* [this.messages] *)
  running : bool;                  (* [this.running] *)
  _processing : bool;              (* [this._processing]; starts undefined, that is falsy *)
  (* the activation of [process] suspended at an await, if there is one *)
  frame : option Frame;
  (* the MQTT client *)
  registered : bool;               (* what [isRegistered()] answers *)
  connect_ok : bool;               (* whether [connect()] succeeds *)
  outcomes : list Outcome;         (* how the coming [publish] calls end *)
  (* what has been observed *)
  trace : list Event;
  log : list LogEntry;
}.

Definition set_heap (f : list Message → list Message) (st : State) : State :=
  mkState (f (heap st)) (queue st) (messages st) (running st) (_processing st)
    (frame st) (registered st) (connect_ok st) (outcomes st) (trace st) (log st).
Definition set_queue (f : list loc → list loc) (st : State) : State :=
  mkState (heap st) (f (queue st)) (messages st) (running st) (_processing st)
    (frame st) (registered st) (connect_ok st) (outcomes st) (trace st) (log st).
Definition set_messages (f : gmap string loc → gmap string loc) (st : State) : State :=
  mkState (heap st) (queue st) (f (messages st)) (running st) (_processing st)
    (frame st) (registered st) (connect_ok st) (outcomes st) (trace st) (log st).
Definition set_running (b : bool) (st : State) : State :=
  mkState (heap st) (queue st) (messages st) b (_processing st)
    (frame st) (registered st) (connect_ok st) (outcomes st) (trace st) (log st).
Definition set__processing (b : bool) (st : State) : State :=
  mkState (heap st) (queue st) (messages st) (running st) b
    (frame st) (registered st) (connect_ok st) (outcomes st) (trace st) (log st).
Definition set_frame (f : option Frame) (st : State) : State :=
  mkState (heap st) (queue st) (messages st) (running st) (_processing st)
    f (registered st) (connect_ok st) (outcomes st) (trace st) (log st).
Definition set_registered (b : bool) (st : State) : State :=
  mkState (heap st) (queue st) (messages st) (running st) (_processing st)
    (frame st) b (connect_ok st) (outcomes st) (trace st) (log st).
Definition set_outcomes (f : list Outcome → list Outcome) (st : State) : State :=
  mkState (heap st) (queue st) (messages st) (running st) (_processing st)
    (frame st) (registered st) (connect_ok st) (f (outcomes st)) (trace st) (log st).
Definition emit (e : Event) (st : State) : State :=
  mkState (heap st) (queue st) (messages st) (running st) (_processing st)
    (frame st) (registered st) (connect_ok st) (outcomes st) (trace st ++ [e]) (log st).
Definition write_log (e : LogEntry) (st : State) : State :=
  mkState (heap st) (queue st) (messages st) (running st) (_processing st)
    (frame st) (registered st) (connect_ok st) (outcomes st) (trace st) (log st ++ [e]).

(** Modelled from the spec: [src/mqtt/MQTTClient.js] is not among the
    sources. The Publisher exposes "[isRegistered() -> bool]" and
    "[publish(Message) -> succeeds | fails(TransportError)]". A call of
    [publish] is recorded in the trace; how it ends is the environment's
    choice, read from [outcomes] (a call beyond the list resolves). *)
Definition isRegistered (st : State) : bool := registered st.

Definition publish (m : Message) (st : State) : Outcome * State :=
  (hd Resolves (outcomes st), set_outcomes (drop 1) (emit (Publish m) st)).

(** A JavaScript string is falsy exactly when it is empty. *)
Definition truthy (s : string) : bool := negb (String.eqb s "").

(** ** MessageQueue ([src/mqtt/MessageQueue.js]) *)

Module MessageQueue.

(** [const DELAY = 0]: the [if (DELAY)] block of [process] is never entered,
    so [process] has a single await, [await this.next()]. *)
Definition DELAY : nat := 0.

(** The [opt] argument of [add]. *)
Record Options := mkOptions {
  opt_qos : option Z;
  opt_retain : option bool;
}.

(** [{}] *)
Definition no_options : Options := mkOptions None None.

(** [msg.mqttTopic] *)
Definition topic_of (h : list Message) (l : loc) : string := mqttTopic (h !!! l).

(** [constructor(mqttClient)]: the fields of a new queue. The client (with
    what it has been asked so far) is taken from [st]. *)
Definition constructor (st : State) : State :=
  set_frame None (set__processing false (set_running true
    (set_messages (λ _, ∅) (set_queue (λ _, []) (set_heap (λ _, []) st))))).

(** [get(topic)] *)
Definition get (topic : string) (st : State) : option loc := messages st !! topic.

(** [remove(topic)] *)
Definition remove (topic : string) (st : State) : State :=
  set_messages (delete topic) st.

(** [_getNextMessage()], on the fields it reads: [shift] until the queue is
    empty or the message's topic is in [messages]. Returns the message and
    what is left of the queue. *)
Fixpoint _getNextMessage_from (h : list Message) (ms : gmap string loc)
    (q : list loc) : option loc * list loc :=
  match q with
  | [] => (None, [])
  | msg :: q' =>
      if bool_decide (is_Some (ms !! topic_of h msg)) then (Some msg, q')
      else _getNextMessage_from h ms q'
  end.

Definition _getNextMessage (st : State) : option loc * State :=
  let r := _getNextMessage_from (heap st) (messages st) (queue st) in
  (r.1, set_queue (λ _, r.2) st).

(** [send(message)], up to its await. A [publish] that throws is caught
    at once. *)
Definition send_call (message : loc) (st : State) : Awaiting * State :=
  let r := publish (heap st !!! message) st in
  match r.1 with
  | Resolves => (AwaitPublish Fulfilled, r.2)
  | Rejects => (AwaitPublish Rejected, r.2)
  | Throws =>
      (AwaitSend,
       write_log Log_error_exn
         (write_log (Log_error "MessageQueue: Failed to send message") r.2))
  end.

(** [send(message)], from its await on: how the promise of [send] settles,
    given how the promise of [publish] settled. *)
Definition send_resume (o : Settled) (st : State) : Settled * State :=
  match o with
  | Fulfilled => (Fulfilled, st)
  | Rejected =>
      (Fulfilled,
       write_log Log_error_exn
         (write_log (Log_error "MessageQueue: Failed to send message") st))
  end.

(** [next()], up to its await. *)
Definition next_call (st : State) : Awaiting * State :=
  let r := _getNextMessage st in
  match r.1 with
  | Some msg =>
      send_call msg (set_messages (delete (topic_of (heap r.2) msg)) r.2)
  | None => (AwaitNext, r.2)
  end.

(** [next()], from its await on, given how the promise of [send] settled. *)
Definition next_resume (o : Settled) (st : State) : Settled * State :=
  match o with
  | Fulfilled => (Fulfilled, st)
  | Rejected =>
      (Fulfilled,
       write_log Log_debug_exn
         (write_log (Log_error "MessageQueue: Failed to send next message") st))
  end.

(** [process()], after its loop. *)
Definition process_exit (count : nat) (st : State) : State :=
  let st1 :=
    if 10 <=? count
    then write_log (Log_info ("Done processing messsages: " +:+ pretty count)) st
    else st in
  set_frame None (set__processing false st1).

(** [process()], from the test of its [while] to the next await or to
    its end. Nothing in the loop throws ([isRegistered] answers, [next]
    handles its own failures), so the [catch] around the loop has nothing
    to handle; the flag is cleared in [process_exit] on every path. *)
Definition process_loop (count : nat) (st : State) : State :=
  if running st && isRegistered st && (0 <? length (queue st)) then
    let r := next_call st in
    set_frame (Some (mkFrame (S count) r.1)) r.2
  else process_exit count st.

(** [process()], called. *)
Definition process (st : State) : State :=
  if _processing st then st
  else process_loop 0 (set__processing true st).

(** [process()], from [await this.next()] on, given how the promise of
    [next] settled. *)
Definition process_resume (o : Settled) (count : nat) (st : State) : State :=
  let st1 :=
    match o with
    | Fulfilled => st
    | Rejected =>
        write_log Log_error_exn
          (write_log (Log_error "MessageQueue: Failed to process next message") st)
    end in
  process_loop count st1.

(** The event loop resumes the suspended activation of [process]: the
    pending promises settle innermost first. *)
Definition resume (st : State) : State :=
  match frame st with
  | None => st
  | Some f =>
      let r :=
        match awaiting f with
        | AwaitPublish o => let s := send_resume o st in next_resume s.1 s.2
        | AwaitSend => next_resume Fulfilled st
        | AwaitNext => (Fulfilled, st)
        end in
      process_resume r.1 (count f) r.2
  end.

Section Add.
Variable default_qos : Z.

(** [add], the branch on [this.messages.get(topic)]: a new Message is made,
    filed under its topic and put at the end of the queue; a Message that
    is there has its three fields assigned. [opt] is the argument after
    [opt = opt || {}]. *)
Definition stored (topic : string) (payload : Payload) (opt : Options)
    (st : State) : State :=
  match messages st !! topic with
  | None =>
      let message := length (heap st) in
      set_queue (λ q, q ++ [message])
        (set_messages <[topic := message]>
          (set_heap
             (λ h, h ++ [Message_new default_qos topic payload
                           (opt_qos opt) (opt_retain opt)]) st))
  | Some message =>
      set_heap (alter (set_retain (opt_retain opt)) message)
        (set_heap (alter (set_qos (opt_qos opt)) message)
          (set_heap (alter (set_mqttMessage payload) message) st))
  end.

(** [add(topic, payload, opt, process)]. [opt] is [None] when the argument
    is left out; [process_arg] is [Some false] when the caller passes
    [false], and every other value makes [add] call [process]. The promise
    of [process] is never rejected, so the [.catch] handler does not run. *)
Definition add (topic : string) (payload : Payload) (opt : option Options)
    (process_arg : option bool) (st : State) : State :=
  if isRegistered st && truthy topic then
    let st1 := stored topic payload (default no_options opt) st in
    if bool_decide (process_arg = Some false) then st1 else process st1
  else st.
End Add.

(** [start()], [stop()], [clear()], [destroy()] *)
Definition start (st : State) : State := process (set_running true st).
Definition stop (st : State) : State := set_running false st.
Definition clear (st : State) : State :=
  set_messages (λ _, ∅) (set_queue (λ _, []) st).
Definition destroy (st : State) : State := clear (stop st).

(** Modelled from the spec: the "subscribable unregistered notification" of
    the Publisher, whose source is not available. The constructor subscribes
    [() => this.clear()] to [mqttClient.onUnRegistered]; when the client
    loses its registration, [isRegistered()] turns false and the
    subscribers run. *)
Definition onUnRegistered (st : State) : State := clear (set_registered false st).
Definition onRegistered (st : State) : State := set_registered true st.

(** One turn of the event loop: a call from outside, a notification of
    the client, or the resumption of [process]. *)
Inductive Op :=
| OpAdd (topic : string) (payload : Payload) (opt : option Options)
    (process_arg : option bool)
| OpGet (topic : string)
| OpRemove (topic : string)
| OpProcess
| OpStart
| OpStop
| OpClear
| OpDestroy
| OpResume
| OpRegistered
| OpUnRegistered.

Section Run.
Variable default_qos : Z.

Definition step (st : State) (op : Op) : State :=
  match op with
  | OpAdd t p o pr => add default_qos t p o pr st
  | OpGet _ => st
  | OpRemove t => remove t st
  | OpProcess => process st
  | OpStart => start st
  | OpStop => stop st
  | OpClear => clear st
  | OpDestroy => destroy st
  | OpResume => resume st
  | OpRegistered => onRegistered st
  | OpUnRegistered => onUnRegistered st
  end.

Definition run (ops : list Op) (st : State) : State := foldl step st ops.
End Run.

(** The event loop resumes [process] until it has returned. [None]: the
    fuel was too little. *)
Fixpoint settle (fuel : nat) (st : State) : option State :=
  match frame st with
  | None => Some st
  | Some _ =>
      match fuel with
      | O => None
      | S n => settle n (resume st)
      end
  end.

(** [process()] called and left to run to its end, with nothing else
    happening in between. *)
Definition drain (st : State) : option State :=
  settle (S (length (queue st))) (process st).

End MessageQueue.

(** ** String.prototype.replace with a string pattern *)

Module JS.

(** The expansion of the replacement text (ECMAScript's GetSubstitution) when
    the pattern is a string, so that there are no captures: [$$] is a dollar,
    [$&] the matched text, [$`] the text before the match, [$'] the text
    after it; any other dollar stands for itself. *)
Fixpoint GetSubstitution (matched before after replacement : string) : string :=
  match replacement with
  | EmptyString => EmptyString
  | String c rest =>
      if Ascii.eqb c "$" then
        match rest with
        | String d rest' =>
            if Ascii.eqb d "$" then
              String "$" (GetSubstitution matched before after rest')
            else if Ascii.eqb d "&" then
              matched +:+ GetSubstitution matched before after rest'
            else if Ascii.eqb d "`" then
              before +:+ GetSubstitution matched before after rest'
            else if Ascii.eqb d "'" then
              after +:+ GetSubstitution matched before after rest'
            else String c (GetSubstitution matched before after rest)
        | EmptyString => String c EmptyString
        end
      else String c (GetSubstitution matched before after rest)
  end.

(** Position of the first occurrence of [pattern] in [s]. *)
Fixpoint indexOf (pattern s : string) : option nat :=
  if String.prefix pattern s then Some 0
  else
    match s with
    | EmptyString => None
    | String _ s' => S <$> indexOf pattern s'
    end.

(** [s.replace(pattern, replacement)]: only the first occurrence is
    replaced. *)
Definition replace (s pattern replacement : string) : string :=
  match indexOf pattern s with
  | None => s
  | Some i =>
      let before := String.substring 0 i s in
      let after :=
        String.substring (i + String.length pattern)
          (String.length s - (i + String.length pattern)) s in
      before +:+ GetSubstitution pattern before after replacement +:+ after
  end.

End JS.

(** ** MQTTHub ([src/app.js]): birth and last-will messages, start and stop *)

Module MQTTHub.

Definition BIRTH_TOPIC : string := "{deviceId}/hub/status".
Definition BIRTH_MESSAGE : string := "online".
Definition WILL_TOPIC : string := "{deviceId}/hub/status".
Definition WILL_MESSAGE : string := "offline".

(** The settings the life cycle reads. *)
Record Settings := mkSettings {
  deviceId : option string;
  protocol_setting : option string;       (* [settings.protocol] *)
  broadcastDevices : option bool;
  broadcastSystemState : bool;            (* truthiness of the setting *)
}.

(** The fields of the app object the life cycle reads and writes. A
    component field is [true] when the field holds an object. *)
Record Hub := mkHub {
  mqttClient : bool;
  settings : option Settings;
  protocol : option string;
  commandHandler : bool;
  homieDispatcher : bool;
  homeAssistantDispatcher : bool;
  systemStateDispatcher : bool;
}.

Definition set_protocol (p : option string) (h : Hub) : Hub :=
  mkHub (mqttClient h) (settings h) p (commandHandler h) (homieDispatcher h)
    (homeAssistantDispatcher h) (systemStateDispatcher h).
Definition set_commandHandler (b : bool) (h : Hub) : Hub :=
  mkHub (mqttClient h) (settings h) (protocol h) b (homieDispatcher h)
    (homeAssistantDispatcher h) (systemStateDispatcher h).
Definition set_homieDispatcher (b : bool) (h : Hub) : Hub :=
  mkHub (mqttClient h) (settings h) (protocol h) (commandHandler h) b
    (homeAssistantDispatcher h) (systemStateDispatcher h).
Definition set_homeAssistantDispatcher (b : bool) (h : Hub) : Hub :=
  mkHub (mqttClient h) (settings h) (protocol h) (commandHandler h)
    (homieDispatcher h) b (systemStateDispatcher h).
Definition set_systemStateDispatcher (b : bool) (h : Hub) : Hub :=
  mkHub (mqttClient h) (settings h) (protocol h) (commandHandler h)
    (homieDispatcher h) (homeAssistantDispatcher h) b.

(** The app object together with the message queue it owns
    ([this.messageQueue]) and the collaborators. *)
Definition Sys : Type := Hub * State.

(** How a statement completes: normally, or by throwing. *)
Inductive Completion := Normal | Thrown.

Definition Action : Type := Sys → Completion * Sys.

Definition skip : Action := λ s, (Normal, s).

(** [a; b] *)
Definition seq (a b : Action) : Action :=
  λ s, match a s with
       | (Normal, s') => b s'
       | (Thrown, s') => (Thrown, s')
       end.
Declare Scope action_scope.
Delimit Scope action_scope with action.
Bind Scope action_scope with Action.
Notation "a ;; b" := (seq a b)
  (at level 100, b at level 200, right associativity) : action_scope.
Local Open Scope action_scope.

(** [try { body } catch (e) { handler }] *)
Definition try_catch (body handler : Action) : Action :=
  λ s, match body s with
       | (Normal, s') => (Normal, s')
       | (Thrown, s') => handler s'
       end.

(** [if (c) { a }] *)
Definition when (c : Hub → bool) (a : Action) : Action :=
  λ s, if c s.1 then a s else (Normal, s).

(** [a().then(onFulfilled).catch(onRejected)] for an async function [a]:
    [onFulfilled] runs when [a] has returned, [onRejected] when [a] or
    [onFulfilled] has thrown. *)
Definition then_catch (a onFulfilled onRejected : Action) : Action :=
  try_catch (a ;; onFulfilled) onRejected.

(** A statement that makes a promise and drops it: what the promise chain
    does is done, in later turns of the event loop, and how the chain ends
    does not reach the caller. *)
Definition detached (a : Action) : Action := λ s, (Normal, (a s).2).

(** A call on a collaborator that returns normally. *)
Definition call (e : Event) : Action := λ s, (Normal, (s.1, emit e s.2)).
Definition log_write (e : LogEntry) : Action := λ s, (Normal, (s.1, write_log e s.2)).
Definition assign (f : Hub → Hub) : Action := λ s, (Normal, (f s.1, s.2)).

(** Reading a property of [this.settings] or calling a method of
    [this.mqttClient] throws a TypeError when the field is undefined. *)
Definition with_settings (k : Settings → Action) : Action :=
  λ s, match settings s.1 with
       | Some cfg => k cfg s
       | None => (Thrown, s)
       end.
Definition with_mqttClient (a : Action) : Action :=
  λ s, if mqttClient s.1 then a s else (Thrown, s).

(** Modelled from the spec: the Publisher's [connect()] and [disconnect()],
    whose source is not available. An awaited [connect()] that fails throws
    at the await. *)
Definition connect : Action :=
  λ s, (if connect_ok s.2 then Normal else Thrown, (s.1, emit Connect s.2)).
Definition disconnect : Action := call Disconnect.

(** [this.mqttClient.publish(message)], not awaited: a rejected promise is
    dropped, a throw propagates. *)
Definition publish_unawaited (m : Message) : Action :=
  λ s, let r := publish m s.2 in
       (match r.1 with Throws => Thrown | _ => Normal end, (s.1, r.2)).

(** [a || b] on strings that may be undefined. *)
Definition or_string (a b : option string) : option string :=
  match a with
  | Some x => if truthy x then Some x else b
  | None => b
  end.

(** Truthiness of a string that may be undefined. *)
Definition truthy_opt (a : option string) : bool :=
  match a with
  | Some x => truthy x
  | None => false
  end.

(** A value in a string concatenation: ["" + v]. *)
Definition js_string (a : option string) : string := default "undefined" a.
Definition js_bool (b : bool) : string := if b then "true" else "false".

(** [this.settings && this.settings.deviceId ? this.settings.deviceId : 'Homey'] *)
Definition hub_deviceId (h : Hub) : string :=
  match settings h with
  | Some cfg =>
      match deviceId cfg with
      | Some d => if truthy d then d else "Homey"
      | None => "Homey"
      end
  | None => "Homey"
  end.

(** [settings.broadcastDevices !== false] *)
Definition broadcast_of (cfg : Settings) : bool :=
  negb (bool_decide (broadcastDevices cfg = Some false)).

Section Lifecycle.
Variable default_qos : Z.

Definition birth_message (h : Hub) : Message :=
  Message_new default_qos (JS.replace BIRTH_TOPIC "{deviceId}" (hub_deviceId h))
    BIRTH_MESSAGE (Some 1%Z) (Some true).

Definition last_will_message (h : Hub) : Message :=
  Message_new default_qos (JS.replace WILL_TOPIC "{deviceId}" (hub_deviceId h))
    WILL_MESSAGE (Some 1%Z) (Some true).

(** [_sendBirthMessage()] *)
Definition _sendBirthMessage : Action :=
  λ s, if mqttClient s.1 && truthy BIRTH_TOPIC && truthy BIRTH_MESSAGE
       then publish_unawaited (birth_message s.1) s
       else (Normal, s).

(** [_sendLastWillMessage()] *)
Definition _sendLastWillMessage : Action :=
  λ s, if mqttClient s.1 && truthy WILL_TOPIC && truthy WILL_MESSAGE
       then publish_unawaited (last_will_message s.1) s
       else (Normal, s).

(** [_stopCommands()] *)
Definition _stopCommands : Action :=
  when commandHandler
    (call CommandHandler_destroy ;; assign (set_commandHandler false)).

(** [_startCommands()] *)
Definition _startCommands : Action :=
  _stopCommands ;; call CommandHandler_new ;; assign (set_commandHandler true).

(** [_startBroadcasters()] *)
Definition _startBroadcasters : Action :=
  log_write (Log_info "start broadcasters") ;;
  when homieDispatcher
    (with_settings (λ cfg,
       log_write (Log_info ("homie dispatcher broadcast: "
                            +:+ js_bool (broadcast_of cfg))) ;;
       call (HomieDispatcher_broadcast (broadcast_of cfg)))) ;;
  when homeAssistantDispatcher
    (with_settings (λ cfg,
       log_write (Log_info ("Home Assistant dispatcher broadcast: "
                            +:+ js_bool (broadcast_of cfg))) ;;
       call (HomeAssistantDispatcher_broadcast (broadcast_of cfg)))) ;;
  when (λ h, negb (systemStateDispatcher h))
    (with_settings (λ cfg,
       if broadcastSystemState cfg
       then log_write (Log_info "start system dispatcher") ;;
            call SystemStateDispatcher_new ;;
            assign (set_systemStateDispatcher true)
       else skip)).

(** [_stopBroadcasters()]. Under [if (this.homeAssistantDispatcher)] it is
    [this.systemStateDispatcher.broadcast] that is assigned, which throws a
    TypeError when there is no system state dispatcher. The handlers put on
    the promise of [systemStateDispatcher.destroy()] run after [stop], if
    at all, and are left out. *)
Definition _stopBroadcasters : Action :=
  log_write (Log_info "stop broadcasters") ;;
  when homieDispatcher
    (log_write (Log_info "stop homie dispatcher") ;;
     call (HomieDispatcher_broadcast false)) ;;
  when homeAssistantDispatcher
    (log_write (Log_info "stop Home Assistant dispatcher") ;;
     (λ s, if systemStateDispatcher s.1
           then call (SystemStateDispatcher_broadcast false) s
           else (Thrown, s))) ;;
  when systemStateDispatcher
    (log_write (Log_info "stop system dispatcher") ;;
     call SystemStateDispatcher_destroy ;;
     assign (set_systemStateDispatcher false)).

(** [_stopCommunicationProtocol(protocol)] *)
Definition _stopCommunicationProtocol (p : option string) : Action :=
  λ s, if truthy_opt (or_string p (protocol s.1)) then
         (log_write (Log_info ("stop communication protocol: "
                               +:+ js_string (protocol s.1))) ;;
          when homieDispatcher
            (call HomieDispatcher_destroy ;; assign (set_homieDispatcher false)) ;;
          when homeAssistantDispatcher
            (call HomeAssistantDispatcher_destroy ;;
             assign (set_homeAssistantDispatcher false))) s
       else (Normal, s).

(** [_startCommunicationProtocol(protocol)] *)
Definition _startCommunicationProtocol (p : option string) : Action :=
  assign (λ h, set_protocol (or_string p (protocol h)) h) ;;
  (λ s, log_write (Log_info ("start communication protocol: "
                             +:+ js_string (protocol s.1))) s) ;;
  call HomieDispatcher_new ;; assign (set_homieDispatcher true) ;;
  call HomeAssistantDispatcher_new ;; assign (set_homeAssistantDispatcher true) ;;
  call HomeAssistantDispatcher_register ;;
  call HomieDispatcher_register.

(** The block [if (this.protocol !== protocol) { ... }] of [start]. *)
Definition switch_protocol (p : string) : Action :=
  λ s, if bool_decide (protocol s.1 = Some p) then (Normal, s)
       else (log_write (Log_info ("Changing protocol from '"
                                  +:+ js_string (protocol s.1)
                                  +:+ "' to '" +:+ p +:+ "'")) ;;
             _stopCommunicationProtocol (protocol s.1) ;;
             _startCommunicationProtocol (Some p)) s.

(** [start()]. Its two awaits are sequencing points of its own statements;
    what other turns of the event loop do in between is not part of it. *)
Definition start : Action :=
  try_catch
    (log_write (Log_info "app start") ;;
     with_mqttClient connect ;;
     _sendBirthMessage ;;
     _startCommands ;;
     _startBroadcasters ;;
     with_settings (λ cfg,
       switch_protocol
         (default "homie3" (or_string (protocol_setting cfg) None))) ;;
     log_write (Log_info "app running: true"))
    (log_write (Log_error "Failed to start app") ;; log_write Log_error_exn).

(** [stop()] *)
Definition stop : Action :=
  _sendLastWillMessage ;;
  log_write (Log_info "app stop") ;;
  with_mqttClient disconnect ;;
  _stopCommands ;;
  _stopBroadcasters ;;
  _stopCommunicationProtocol None ;;
  assign (set_protocol None) ;;
  log_write (Log_info "app running: false").

(** [uninstall()]: whatever is thrown is dropped. *)
Definition uninstall : Action :=
  try_catch (_sendLastWillMessage ;; with_mqttClient disconnect) skip.

(** [setRunning(running)], with the truthiness of its argument. The promise
    of [start()] is not awaited; its handlers are taken with it, as run
    to their end. *)
Definition setRunning (running : bool) : Action :=
  log_write (Log_info (if running then "switch on" else "switch off")) ;;
  when mqttClient
    (if running
     then detached (then_catch start (log_write (Log_info "App running"))
                      (log_write Log_error_exn))
     else stop).

End Lifecycle.

(** *** Stored settings ([updateSettings]) *)

(** The properties of [this.settings] that [updateSettings] reads and
    writes; each is a string or undefined. *)
Record Stored := mkStored {
  stored_deviceId : option string;
  stored_systemName : option string;
  stored_topicRoot : option string;
  stored_homieTopic : option string;
}.

(** What [updateSettings] does besides assigning to [this.settings]. *)
Inductive SettingsEffect :=
| Log_debug (s : string)
| ManagerSettings_set (v : Stored).   (* [Homey.ManagerSettings.set('settings', v)] *)

(** [updateSettings()], given [this.system.name] and [this.settings]:
    the settings it leaves and what it logs and saves. *)
Definition updateSettings (system_name : option string) (s : Stored)
    : Stored * list SettingsEffect :=
  let systemName := default "Homey" (or_string system_name None) in
  if bool_decide (stored_deviceId s = None)
     || negb (bool_decide (stored_systemName s = Some systemName))
     || truthy_opt (stored_topicRoot s)
  then
    let s1 :=
      if truthy_opt (stored_topicRoot s) && negb (truthy_opt (stored_homieTopic s))
      then mkStored (stored_deviceId s) (stored_systemName s) None (stored_topicRoot s)
      else s in
    let s2 :=
      mkStored (stored_deviceId s1) (Some systemName) (stored_topicRoot s1)
        (stored_homieTopic s1) in
    let s3 :=
      mkStored (or_string (stored_deviceId s2) (stored_systemName s2))
        (stored_systemName s2) (stored_topicRoot s2) (stored_homieTopic s2) in
    (s3, [Log_debug ("Settings initial deviceId: " +:+ js_string (stored_deviceId s3));
          ManagerSettings_set s3;
          Log_debug "Settings updated"])
  else (s, []).

End MQTTHub.

(** ** Notions used to state the properties of the queue *)

Module QueueSpec.
Import MessageQueue.

(** What a drain that runs to its end hands to [publish], given the heap,
    the live set and the pending order it starts from: an entry is published
    when its topic is live, and its topic then leaves the live set. *)
Fixpoint drained (h : list Message) (ms : gmap string loc) (q : list loc)
    : list loc :=
  match q with
  | [] => []
  | msg :: q' =>
      if bool_decide (is_Some (ms !! topic_of h msg))
      then msg :: drained h (delete (topic_of h msg) ms) q'
      else drained h ms q'
  end.

(** The live set such a drain leaves. *)
Definition left_live (h : list Message) (ms : gmap string loc) (q : list loc)
    : gmap string loc :=
  foldl (λ m msg, delete (topic_of h msg) m) ms q.

(** The entries of the pending order that carry topic [t]. *)
Definition entries_for (t : string) (st : State) : list loc :=
  filter (λ l, topic_of (heap st) l = t) (queue st).

(** The messages of the pending order and of the live set, by value. *)
Definition queue_contents (st : State) : list Message :=
  (λ l, heap st !!! l) <$> queue st.
Definition live_contents (st : State) : gmap string Message :=
  (λ l, heap st !!! l) <$> messages st.

(** Consistency of the references: every live message is in the pending
    order and is filed under its own topic; the pending order holds valid
    references and none of them twice. *)
Record wf_refs (st : State) : Prop := mkWfRefs {
  wf_live : ∀ t l, messages st !! t = Some l →
              l ∈ queue st ∧ topic_of (heap st) l = t;
  wf_bound : ∀ l, l ∈ queue st → l < length (heap st);
  wf_nodup : NoDup (queue st);
}.

(** Consistency of the queue: the references are consistent, and
    [_processing] is set exactly while an activation of [process] is
    suspended. *)
Definition wf (st : State) : Prop :=
  wf_refs st ∧ (_processing st = true ↔ is_Some (frame st)).

(** Every live topic has an entry in the pending order. *)
Definition covered (h : list Message) (ms : gmap string loc) (q : list loc) : Prop :=
  ∀ t, is_Some (ms !! t) → ∃ l, l ∈ q ∧ topic_of h l = t.

(** The pending order holds at most one entry with the topic, for every
    topic of the live set. *)
Definition one_entry_per_live_topic (st : State) : Prop :=
  ∀ t, is_Some (messages st !! t) → length (entries_for t st) ≤ 1.

(** What two states have in common when they differ only in where their
    messages are stored. *)
Definition observe (st : State)
    : list Message * gmap string Message * (bool * bool * option Frame)
      * (bool * bool * list Outcome) * (list Event * list LogEntry) :=
  (queue_contents st, live_contents st,
   (running st, _processing st, frame st),
   (registered st, connect_ok st, outcomes st),
   (trace st, log st)).

(** Log entries appended in one go. *)
Definition write_logs (es : list LogEntry) (st : State) : State :=
  mkState (heap st) (queue st) (messages st) (running st) (_processing st)
    (frame st) (registered st) (connect_ok st) (outcomes st) (trace st) (log st ++ es).

(** [st'] is what a drain that ran to its end makes of [st]. *)
Record Drained (st st' : State) : Prop := mkDrained {
  dr_heap : heap st' = heap st;
  dr_queue : queue st' = [];
  dr_messages : messages st' = left_live (heap st) (messages st) (queue st);
  dr_running : running st' = running st;
  dr_registered : registered st' = registered st;
  dr_connect : connect_ok st' = connect_ok st;
  dr_processing : _processing st' = false;
  dr_frame : frame st' = None;
  dr_trace : trace st' = trace st ++
     ((λ l, Publish (heap st !!! l)) <$> drained (heap st) (messages st) (queue st));
  dr_outcomes : outcomes st' =
     drop (length (drained (heap st) (messages st) (queue st))) (outcomes st);
}.

(** One round of the loop of [process], from the test of the [while] to the
    next await or to the end of [process]: the loop is left; or the entries
    [skipped] are dropped, [msg] leaves the live set and is handed to
    [publish]; or every entry is dropped and nothing is published. *)
Inductive loop_step (c : nat) (st : State) : State → Prop :=
| loop_exit :
    running st && isRegistered st && (0 <? length (queue st)) = false →
    loop_step c st (process_exit c st)
| loop_publish skipped msg q' a es :
    running st = true → registered st = true →
    queue st = skipped ++ msg :: q' →
    Forall (λ l, messages st !! topic_of (heap st) l = None) skipped →
    is_Some (messages st !! topic_of (heap st) msg) →
    loop_step c st
      (set_frame (Some (mkFrame (S c) a))
         (write_logs es
            (set_outcomes (drop 1)
               (emit (Publish (heap st !!! msg))
                  (set_messages (delete (topic_of (heap st) msg))
                     (set_queue (λ _, q') st))))))
| loop_idle :
    running st = true → registered st = true →
    Forall (λ l, messages st !! topic_of (heap st) l = None) (queue st) →
    loop_step c st
      (set_frame (Some (mkFrame (S c) AwaitNext)) (set_queue (λ _, []) st)).

(** A call [add(topic, payload, opt, false)], by its payload and options. *)
Definition Call : Type := Payload * option Options.

(** Calls of [add] for one topic, each with [process] suppressed. *)
Definition enqueue_all (default_qos : Z) (topic : string) (calls : list Call)
    (st : State) : State :=
  foldl (λ s c, add default_qos topic c.1 c.2 (Some false) s) st calls.

(** The message the calls [c :: cs] for [topic] leave behind: the one the
    constructor made when there was one call only, and otherwise the field
    values of the last call. *)
Definition last_message (default_qos : Z) (topic : string) (c : Call)
    (cs : list Call) : Message :=
  match last cs with
  | None =>
      Message_new default_qos topic c.1
        (opt_qos (default no_options c.2)) (opt_retain (default no_options c.2))
  | Some c' =>
      mkMessage topic c'.1
        (opt_qos (default no_options c'.2)) (opt_retain (default no_options c'.2))
  end.

(** The field assignments of [add] for a topic that is live. *)
Definition overwrite (c : Call) (m : Message) : Message :=
  set_retain (opt_retain (default no_options c.2))
    (set_qos (opt_qos (default no_options c.2)) (set_mqttMessage c.1 m)).

(** What has been handed to [publish] between [st] and the later [st']. *)
Definition published_since (st st' : State) : list Message :=
  published (drop (length (trace st)) (trace st')).

(** A client that is registered with the broker and has not been asked
    anything yet; only the client fields matter, [constructor] sets the
    queue's. *)
Definition registered_client : State :=
  mkState [] [] ∅ false false None true true [] [] [].

(** The options [{retain: true}]. *)
Definition retain_true : Options := mkOptions None (Some true).

(** [add("a/b", "1", {retain:true}, false); add("a/b", "2", undefined, false)] *)
Definition scenario_ab (default_qos : Z) (st : State) : State :=
  add default_qos "a/b" "2" None (Some false)
    (add default_qos "a/b" "1" (Some retain_true) (Some false) st).

(** [op] is a call of [add] for topic [t]. *)
Definition adds_topic (t : string) (op : Op) : Prop :=
  match op with
  | OpAdd t' _ _ _ => t' = t
  | _ => False
  end.

(** [e] is not a call of [publish] with a message of topic [t]. *)
Definition not_publish_of (t : string) (e : Event) : Prop :=
  match e with
  | Publish m => mqttTopic m ≠ t
  | _ => True
  end.

(** Between [st] and the later [st'] nothing of topic [t] was handed to
    [publish]. *)
Definition quiet (t : string) (st st' : State) : Prop :=
  ∃ evs, trace st' = trace st ++ evs ∧ Forall (not_publish_of t) evs.

(** The state [s] with its Message objects stored behind the objects [g]:
    every reference moves up by [length g]. *)
Definition shift (g : list Message) (s : State) : State :=
  mkState (g ++ heap s) ((λ l, length g + l) <$> queue s)
    ((λ l, length g + l) <$> messages s) (running s) (_processing s) (frame s)
    (registered s) (connect_ok s) (outcomes s) (trace s) (log s).

(** The trace of [st'] continues the trace of [st]. *)
Definition extends (st st' : State) : Prop :=
  ∃ evs, trace st' = trace st ++ evs.

(** *** Further notions: batches, rounds of the loop, the log *)

(** [op] is a call of [add]. *)
Definition is_add (op : Op) : bool :=
  match op with
  | OpAdd _ _ _ _ => true
  | _ => false
  end.

(** A call [add(topic, payload, opt, false)]. *)
Definition Enq : Type := string * Payload * option Options.

(** A batch of such calls, in order. *)
Definition enqueue (default_qos : Z) (calls : list Enq) (st : State) : State :=
  foldl (λ s c, add default_qos c.1.1 c.1.2 c.2 (Some false) s) st calls.

(** A batch merged by topic: the first call for a topic takes the place at
    the end, a later call for it overwrites payload, qos and retain
    there. *)
Fixpoint upsert (default_qos : Z) (t : string) (p : Payload) (o : Options)
    (acc : list Message) : list Message :=
  match acc with
  | [] => [Message_new default_qos t p (opt_qos o) (opt_retain o)]
  | m :: acc' =>
      if bool_decide (mqttTopic m = t)
      then mkMessage t p (opt_qos o) (opt_retain o) :: acc'
      else m :: upsert default_qos t p o acc'
  end.

Definition merged (default_qos : Z) (calls : list Enq) : list Message :=
  foldl (λ acc c, if truthy c.1.1
                  then upsert default_qos c.1.1 c.1.2 (default no_options c.2) acc
                  else acc) [] calls.

(** The rounds the loop of [process] makes on a pending order when it is
    left to run: one for every entry that is published, the entries
    skipped before it included, and one more when only entries to skip are
    left. *)
Fixpoint rounds (h : list Message) (ms : gmap string loc) (q : list loc) : nat :=
  match q with
  | [] => 0
  | msg :: q' =>
      if bool_decide (is_Some (ms !! topic_of h msg))
      then S (rounds h (delete (topic_of h msg) ms) q')
      else Nat.max 1 (rounds h ms q')
  end.

(** What is logged for a call of [publish] that ends as [o]. *)
Definition failure_log (o : Outcome) : list LogEntry :=
  match o with
  | Resolves => []
  | Rejects | Throws =>
      [Log_error "MessageQueue: Failed to send message"; Log_error_exn]
  end.

(** What [process] logs after a loop of [count] rounds. *)
Definition done_log (count : nat) : list LogEntry :=
  if 10 <=? count
  then [Log_info ("Done processing messsages: " +:+ pretty count)]
  else [].

(** What has been logged between [st] and the later [st']. *)
Definition logged_since (st st' : State) : list LogEntry :=
  drop (length (log st)) (log st').

(** An entry the queue may write to the log: the failure of a [publish],
    reported by [send], or the count of a long drain. *)
Definition queue_log_entry (e : LogEntry) : Prop :=
  e = Log_error "MessageQueue: Failed to send message"
  ∨ e = Log_error_exn
  ∨ ∃ n, 10 ≤ n ∧ e = Log_info ("Done processing messsages: " +:+ pretty n).

(** The message [m] has the topic and the payload, qos and retain of one
    of the calls of [add] among [ops] (the qos as given, or defaulted by
    the Message constructor). *)
Definition from_add (default_qos : Z) (ops : list Op) (m : Message) : Prop :=
  ∃ p o pr,
    OpAdd (mqttTopic m) p o pr ∈ ops
    ∧ mqttMessage m = p
    ∧ retain m = opt_retain (default no_options o)
    ∧ (qos m = opt_qos (default no_options o)
       ∨ qos m = Some (default default_qos (opt_qos (default no_options o)))).

(** The suspended activation of [process] is resumed until it has
    returned, with nothing else happening in between. *)
Definition settled (st : State) : option State :=
  settle (S (length (queue st))) st.

End QueueSpec.


(** ** Notions used to state the properties of the life cycle *)

Module HubSpec.
Import MQTTHub.

(** The state of the message queue: its fields, the Message objects and the
    suspended activation of [process]. *)
Definition queue_state (st : State)
    : list Message * list loc * gmap string loc * (bool * bool * option Frame) :=
  (heap st, queue st, messages st, (running st, _processing st, frame st)).

(** A call on a dispatch component: the command handler or a dispatcher. *)
Definition component_event (e : Event) : Prop :=
  match e with
  | Connect | Disconnect | Publish _ => False
  | _ => True
  end.



(** [st] after further calls on the collaborators and further log
    entries. *)
Definition effects (evs : list Event) (lg : list LogEntry) (st : State) : State :=
  mkState (heap st) (queue st) (messages st) (running st) (_processing st)
    (frame st) (registered st) (connect_ok st) (outcomes st)
    (trace st ++ evs) (log st ++ lg).

(** From the app fields [h] and whatever the rest of the state, the action
    completes normally, leaves the app fields [h'], makes the calls [evs]
    and logs [lg]; it does nothing else. *)
Definition runs (a : Action) (h h' : Hub) (evs : list Event)
    (lg : list LogEntry) : Prop :=
  ∀ st, a (h, st) = (Normal, (h', effects evs lg st)).

(** The protocol [start] selects: [this.settings.protocol || 'homie3']. *)
Definition selected_protocol (cfg : Settings) : string :=
  default "homie3" (or_string (protocol_setting cfg) None).

(** The app after [onInit] has made the client and the queue and before the
    first [start]: default settings, no component yet. *)
Definition initialised : Hub :=
  mkHub true (Some (mkSettings (Some "Homey") None None false)) None
    false false false false.

(** The app with the command handler, the two protocol dispatchers and the
    system state dispatcher running. *)
Definition all_running : Hub :=
  mkHub true (Some (mkSettings (Some "Homey") None None true)) (Some "homie3")
    true true true true.

(** A queue that has been stopped while a message for "x" was pending. *)
Definition paused_queue : State :=
  MessageQueue.stop
    (MessageQueue.add 0 "x" "v" None (Some false)
       (MessageQueue.constructor QueueSpec.registered_client)).

(** *** Further notions: what an action leaves alone *)

(** The action leaves the message queue, the settings and the client field
    as they are; it adds to the trace and to the log; and what it hands to
    [publish] itself is the birth message or the last-will message. *)
Definition keeps_queue (default_qos : Z) (a : Action) : Prop :=
  ∀ h st,
    settings (a (h, st)).2.1 = settings h
    ∧ mqttClient (a (h, st)).2.1 = mqttClient h
    ∧ queue_state (a (h, st)).2.2 = queue_state st
    ∧ ∃ evs lg,
        trace (a (h, st)).2.2 = trace st ++ evs
        ∧ log (a (h, st)).2.2 = log st ++ lg
        ∧ Forall (λ m, m = birth_message default_qos h
                       ∨ m = last_will_message default_qos h) (published evs).

(** What [start] needs to get to its end: a client, a [connect] that
    succeeds, a birth [publish] that does not throw, and settings. *)
Definition start_succeeds (h : Hub) (st : State) : Prop :=
  mqttClient h = true ∧ connect_ok st = true
  ∧ hd Resolves (outcomes st) ≠ Throws ∧ is_Some (settings h).

(** The app with a client and settings and nothing started. *)
Definition fresh (cfg : Settings) : Hub :=
  mkHub true (Some cfg) None false false false false.

(** The string has no dollar sign, so that as a replacement text it stands
    for itself. *)
Fixpoint dollar_free (s : string) : bool :=
  match s with
  | EmptyString => true
  | String c s' => negb (Ascii.eqb c "$") && dollar_free s'
  end.

(** The calls [_startCommands] and [_startBroadcasters] make on the
    components, given the app fields and the settings. *)
Definition command_calls (h : Hub) : list Event :=
  (if commandHandler h then [CommandHandler_destroy] else [])
  ++ [CommandHandler_new].

Definition broadcast_calls (h : Hub) (cfg : Settings) : list Event :=
  (if homieDispatcher h
   then [HomieDispatcher_broadcast (broadcast_of cfg)] else [])
  ++ (if homeAssistantDispatcher h
      then [HomeAssistantDispatcher_broadcast (broadcast_of cfg)] else [])
  ++ (if negb (systemStateDispatcher h) && broadcastSystemState cfg
      then [SystemStateDispatcher_new] else []).

(** The app fields after [_startCommands] and [_startBroadcasters]. *)
Definition with_broadcasters (h : Hub) (cfg : Settings) : Hub :=
  if negb (systemStateDispatcher h) && broadcastSystemState cfg
  then set_systemStateDispatcher true (set_commandHandler true h)
  else set_commandHandler true h.

End HubSpec.
(** * Properties of the message queue *)

Module QueueProofs.
Import MessageQueue QueueSpec.

Lemma published_app (tr1 tr2 : list Event) :
  published (tr1 ++ tr2) = published tr1 ++ published tr2.
Proof. unfold published. by rewrite omap_app. Qed.

Lemma published_Publish (ms : list Message) : published (Publish <$> ms) = ms.
Proof. unfold published. induction ms as [|m ms IH]; cbn; [done|by f_equal]. Qed.


(** *** [_getNextMessage] *)

Lemma getNext_Some h ms q msg q' :
  _getNextMessage_from h ms q = (Some msg, q') →
  ∃ skipped,
    q = skipped ++ msg :: q'
    ∧ Forall (λ l, ms !! topic_of h l = None) skipped
    ∧ is_Some (ms !! topic_of h msg)
    ∧ drained h ms q = msg :: drained h (delete (topic_of h msg) ms) q'.
Proof.
  induction q as [|l q IH]; cbn [_getNextMessage_from drained]; [done|].
  destruct (decide (is_Some (ms !! topic_of h l))) as [Hl|Hl].
  - rewrite !bool_decide_true by done.
    intros [= -> ->]. exists []. done.
  - rewrite !bool_decide_false by done.
    intros Hq. destruct (IH Hq) as (sk & -> & Hsk & Hmsg & Hdr).
    exists (l :: sk). split_and!; [done| |done|done].
    constructor; [|done]. by apply eq_None_not_Some.
Qed.

Lemma getNext_None h ms q :
  (_getNextMessage_from h ms q).1 = None →
  (_getNextMessage_from h ms q).2 = []
  ∧ Forall (λ l, ms !! topic_of h l = None) q
  ∧ drained h ms q = [].
Proof.
  induction q as [|l q IH]; cbn [_getNextMessage_from drained]; [done|].
  destruct (decide (is_Some (ms !! topic_of h l))) as [Hl|Hl].
  - rewrite !bool_decide_true by done. done.
  - rewrite !bool_decide_false by done.
    intros Hq. destruct (IH Hq) as (? & ? & ?). split_and!; [done| |done].
    constructor; [|done]. by apply eq_None_not_Some.
Qed.

Lemma getNext_shorter h ms l q :
  length (_getNextMessage_from h ms (l :: q)).2 ≤ length q.
Proof.
  revert l. induction q as [|l' q IH]; intros l; cbn [_getNextMessage_from].
  - by case_bool_decide.
  - case_bool_decide; cbn [snd length]; [lia|]. specialize (IH l'). cbn [_getNextMessage_from] in IH.
    etrans; [exact IH|lia].
Qed.

(** *** Running [process] to its end *)

Ltac fields :=
  cbn [heap queue messages running _processing frame registered connect_ok
       outcomes trace log set_heap set_queue set_messages set_running
       set__processing set_frame set_registered set_outcomes emit write_log
       write_logs fst snd] in *.

Lemma State_eq (s s' : State) :
  heap s = heap s' → queue s = queue s' → messages s = messages s' →
  running s = running s' → _processing s = _processing s' → frame s = frame s' →
  registered s = registered s' → connect_ok s = connect_ok s' →
  outcomes s = outcomes s' → trace s = trace s' → log s = log s' →
  s = s'.
Proof. destruct s, s'; cbn. by intros -> -> -> -> -> -> -> -> -> -> ->. Qed.

(** Equality of states, field by field. *)
Ltac state_eq :=
  apply State_eq;
  cbn [heap queue messages running _processing frame registered connect_ok
       outcomes trace log set_heap set_queue set_messages set_running
       set__processing set_frame set_registered set_outcomes emit write_log
       write_logs shift fst snd].

Lemma resume_unfold st f :
  frame st = Some f →
  ∃ es, resume st = process_loop (count f) (write_logs es st).
Proof.
  intros Hf. unfold resume. rewrite Hf.
  destruct st as [h q ms ? ? fr ? ? os tr lg]; cbn in *.
  destruct (awaiting f) as [[]| |]; cbn;
    unfold process_resume, write_logs, write_log; cbn.
  - exists []. by rewrite app_nil_r.
  - eexists [_; _]. by rewrite <- !app_assoc.
  - exists []. by rewrite app_nil_r.
  - exists []. by rewrite app_nil_r.
Qed.

Lemma left_live_skip h ms sk q :
  Forall (λ l, ms !! topic_of h l = None) sk →
  left_live h ms (sk ++ q) = left_live h ms q.
Proof.
  unfold left_live. induction 1 as [|l sk Hl _ IH]; cbn; [done|].
  by rewrite delete_id.
Qed.

Lemma process_loop_stop c st :
  running st && isRegistered st && (0 <? length (queue st)) = false →
  process_loop c st = process_exit c st.
Proof. unfold process_loop. by intros ->. Qed.

Lemma Drained_exit c st : queue st = [] → Drained st (process_exit c st).
Proof.
  intros Hq. unfold process_exit.
  destruct (10 <=? c); constructor; cbn; rewrite ?Hq; cbn;
    by rewrite ?app_nil_r.
Qed.

Lemma send_call_unfold msg st :
  ∃ a es, send_call msg st =
    (a, write_logs es (set_outcomes (drop 1) (emit (Publish (heap st !!! msg)) st))).
Proof.
  unfold send_call, publish. cbn [fst snd].
  destruct (hd Resolves (outcomes st)).
  - exists (AwaitPublish Fulfilled), []. f_equal.
    destruct st; unfold write_logs; cbn. by rewrite app_nil_r.
  - exists (AwaitPublish Rejected), []. f_equal.
    destruct st; unfold write_logs; cbn. by rewrite app_nil_r.
  - eexists AwaitSend, [_; _]. f_equal.
    destruct st; unfold write_logs, write_log; cbn. by rewrite <- app_assoc.
Qed.

Lemma settle_resume n st f :
  frame st = Some f →
  ∃ es, settle (S n) st = settle n (process_loop (count f) (write_logs es st)).
Proof.
  intros Hf. destruct (resume_unfold st f Hf) as [es Hes].
  exists es. cbn. by rewrite Hf, Hes.
Qed.

Lemma drop_drop_1 {A} (l : list A) n : drop n (drop 1 l) = drop (S n) l.
Proof. by destruct l; rewrite ?drop_nil. Qed.

Lemma process_loop_settles n : ∀ c st,
  length (queue st) ≤ n → running st = true → registered st = true →
  ∃ st', settle n (process_loop c st) = Some st' ∧ Drained st st'.
Proof.
  induction n as [|n IH]; intros c st Hlen Hrun Hreg.
  - destruct (queue st) as [|l q] eqn:Hq; [|cbn in Hlen; lia].
    rewrite process_loop_stop by (by rewrite Hq, andb_false_r).
    exists (process_exit c st). split; [|by apply Drained_exit].
    unfold process_exit. by destruct (10 <=? c).
  - destruct (queue st) as [|l q] eqn:Hq.
    { rewrite process_loop_stop by (by rewrite Hq, andb_false_r).
      exists (process_exit c st). split; [|by apply Drained_exit].
      unfold process_exit. by destruct (10 <=? c). }
    unfold process_loop, isRegistered. rewrite Hrun, Hreg, Hq. cbn [length Nat.ltb Nat.leb andb].
    unfold next_call, _getNextMessage. rewrite Hq.
    pose proof (getNext_shorter (heap st) (messages st) l q) as Hshort.
    destruct (_getNextMessage_from (heap st) (messages st) (l :: q))
      as [[msg|] q'] eqn:Hnext; cbn [fst snd] in *.
    + destruct (getNext_Some _ _ _ _ _ Hnext) as (sk & Hsk & Hskip & Hlive & Hdr).
      destruct (send_call_unfold msg
        (set_messages (delete (topic_of (heap (set_queue (λ _, q') st)) msg))
           (set_queue (λ _, q') st))) as (a & es & ->).
      cbn [fst snd].
      edestruct (settle_resume n) as [es' ->]; [reflexivity|].
      cbn [count].
      edestruct (IH (S c)) as (st' & Hst' & HD); [| | |exists st'; split; [exact Hst'|]].
      * fields. cbn [length] in Hlen. lia.
      * done.
      * done.
      * destruct HD as [D1 D2 D3 D4 D5 D6 D7 D8 D9 D10]. fields.
        constructor; try done.
        -- rewrite D3, Hq, Hsk. rewrite left_live_skip by done. done.
        -- rewrite D9, Hq, Hdr. cbn. by rewrite <- app_assoc.
        -- rewrite D10, Hq, Hdr. cbn [length]. apply drop_drop_1.
    + destruct (getNext_None (heap st) (messages st) (l :: q)) as (Hnil & Hskip & Hdr);
        [by rewrite Hnext|].
      rewrite Hnext in Hnil. cbn in Hnil. subst q'.
      edestruct (settle_resume n) as [es' ->]; [reflexivity|].
      cbn [count].
      edestruct (IH (S c)) as (st' & Hst' & HD); [| | |exists st'; split; [exact Hst'|]].
      * fields. cbn [length]. lia.
      * done.
      * done.
      * destruct HD as [D1 D2 D3 D4 D5 D6 D7 D8 D9 D10]. fields.
        constructor; try done.
        -- rewrite D3, Hq. rewrite <- (app_nil_r (l :: q)) at 1.
           by rewrite left_live_skip.
        -- by rewrite D9, Hq, Hdr.
        -- by rewrite D10, Hq, Hdr.
Qed.

Lemma process_loop_step c st : loop_step c st (process_loop c st).
Proof.
  destruct (running st && isRegistered st && (0 <? length (queue st))) eqn:Hc.
  - unfold process_loop. rewrite Hc.
    apply andb_true_iff in Hc as [Hc _]. apply andb_true_iff in Hc as [Hrun Hreg].
    unfold isRegistered in Hreg.
    unfold next_call, _getNextMessage.
    destruct (_getNextMessage_from (heap st) (messages st) (queue st))
      as [[msg|] q'] eqn:Hnext; cbn [fst snd].
    + destruct (getNext_Some _ _ _ _ _ Hnext) as (sk & Hsk & Hskip & Hlive & _).
      destruct (send_call_unfold msg
        (set_messages (delete (topic_of (heap (set_queue (λ _, q') st)) msg))
           (set_queue (λ _, q') st))) as (a & es & ->).
      cbn [fst snd].
      change (topic_of (heap (set_queue (λ _, q') st)) msg)
        with (topic_of (heap st) msg).
      change (heap (set_messages (delete (topic_of (heap st) msg))
                      (set_queue (λ _, q') st))) with (heap st).
      by eapply loop_publish.
    + destruct (getNext_None (heap st) (messages st) (queue st)) as (Hnil & Hskip & _);
        [by rewrite Hnext|].
      rewrite Hnext in Hnil. cbn in Hnil. subst q'. by apply loop_idle.
  - rewrite process_loop_stop by done. by apply loop_exit.
Qed.

Lemma resume_step st f :
  frame st = Some f →
  ∃ es, loop_step (count f) (write_logs es st) (resume st).
Proof.
  intros Hf. destruct (resume_unfold st f Hf) as [es ->].
  exists es. apply process_loop_step.
Qed.

(** *** What a full drain publishes *)

Lemma drained_live h q : ∀ ms l,
  l ∈ drained h ms q → l ∈ q ∧ is_Some (ms !! topic_of h l).
Proof.
  induction q as [|x q IH]; intros ms l; cbn [drained].
  - by intros ?%elem_of_nil.
  - case_bool_decide as Hx.
    + intros [->|Hl]%elem_of_cons.
      * split; [left|done].
      * destruct (IH _ _ Hl) as [? Hlive]. split; [by right|].
        destruct Hlive as [v Hv]. apply lookup_delete_Some in Hv as [_ Hv]. eauto.
    + intros Hl. destruct (IH _ _ Hl). split; [by right|done].
Qed.

Lemma drained_topics_NoDup h q : ∀ ms,
  NoDup (topic_of h <$> drained h ms q).
Proof.
  induction q as [|x q IH]; intros ms; cbn [drained]; [constructor|].
  case_bool_decide as Hx; [|done].
  cbn. constructor; [|done].
  intros (l & Heq & Hl)%list_elem_of_fmap.
  apply drained_live in Hl as [_ [v Hv]].
  rewrite <- Heq in Hv. by rewrite lookup_delete_eq in Hv.
Qed.

Lemma covered_tail h ms x q :
  covered h ms (x :: q) → covered h (delete (topic_of h x) ms) q.
Proof.
  intros Hc t [v Hv]. apply lookup_delete_Some in Hv as [Hne Hv].
  destruct (Hc t) as (l & Hl & Ht); [by eauto|].
  apply elem_of_cons in Hl as [->|Hl]; [done|]. eauto.
Qed.

Lemma left_live_cons h ms x q :
  left_live h ms (x :: q) = left_live h (delete (topic_of h x) ms) q.
Proof. done. Qed.

Lemma drained_all h q : ∀ ms,
  covered h ms q →
  length (drained h ms q) = size ms
  ∧ left_live h ms q = ∅
  ∧ ∀ t, is_Some (ms !! t) → t ∈ topic_of h <$> drained h ms q.
Proof.
  induction q as [|x q IH]; intros ms Hc.
  - assert (ms = ∅) as ->.
    { apply map_empty. intros t. apply eq_None_not_Some. intros Ht.
      destruct (Hc t Ht) as (l & Hl & _). by apply elem_of_nil in Hl. }
    split_and!; [done|done|]. intros t [v Hv]. by rewrite lookup_empty in Hv.
  - rewrite left_live_cons. cbn [drained].
    destruct (IH _ (covered_tail _ _ _ _ Hc)) as (Hlen & Hleft & Hall).
    case_bool_decide as Hx.
    + split_and!; [|done|].
      * cbn [length]. rewrite Hlen, (map_size_delete_Some _ _ Hx).
        destruct Hx as [v Hv].
        assert (size ms ≠ 0); [|lia].
        apply map_size_non_empty_iff. intros ->. by rewrite lookup_empty in Hv.
      * intros t Ht. cbn. destruct (decide (t = topic_of h x)) as [->|Hne]; [left|].
        right. apply Hall. destruct Ht as [v Hv]. exists v.
        by rewrite lookup_delete_ne.
    + apply eq_None_not_Some in Hx. rewrite (delete_id _ _ Hx) in *.
      split_and!; [done|done|]. done.
Qed.

(** *** Consistency is kept by every operation *)

Lemma add_unfold dq t p o pr st :
  add dq t p o pr st =
  if isRegistered st && truthy t then
    if bool_decide (pr = Some false)
    then stored dq t p (default no_options o) st
    else process (stored dq t p (default no_options o) st)
  else st.
Proof. reflexivity. Qed.

Lemma wf_refs_ext st st' :
  heap st' = heap st → queue st' = queue st → messages st' = messages st →
  wf_refs st → wf_refs st'.
Proof.
  intros Hh Hq Hm [H1 H2 H3]. constructor; rewrite ?Hh, ?Hq, ?Hm; done.
Qed.

Lemma wf_ext st st' :
  heap st' = heap st → queue st' = queue st → messages st' = messages st →
  _processing st' = _processing st → frame st' = frame st →
  wf st → wf st'.
Proof.
  intros Hh Hq Hm Hp Hf [Hr Hfr]. split; [by eapply wf_refs_ext|].
  by rewrite Hp, Hf.
Qed.

Lemma wf_constructor st : wf (constructor st).
Proof.
  split; [constructor|]; cbn.
  - intros t l Hl. by rewrite lookup_empty in Hl.
  - by intros l ?%elem_of_nil.
  - constructor.
  - split; [done|]. by intros [? ?].
Qed.

Lemma wf_refs_remove t st : wf_refs st → wf_refs (remove t st).
Proof.
  intros [H1 H2 H3]. constructor; cbn; [|done|done].
  intros t' l [_ Hl]%lookup_delete_Some. by apply H1.
Qed.

Lemma wf_refs_clear st : wf_refs (clear st).
Proof.
  constructor; cbn.
  - intros t l Hl. by rewrite lookup_empty in Hl.
  - by intros l ?%elem_of_nil.
  - constructor.
Qed.

Lemma topic_of_alter f i h l :
  (∀ m, mqttTopic (f m) = mqttTopic m) →
  topic_of (alter f i h) l = topic_of h l.
Proof.
  intros Hf. unfold topic_of. rewrite list_lookup_total_alter.
  case_decide as Hi; [|done]. destruct Hi as [-> _]. apply Hf.
Qed.

Lemma wf_refs_stored dq t p o st : wf_refs st → wf_refs (stored dq t p o st).
Proof.
  intros [H1 H2 H3]. unfold stored.
  destruct (messages st !! t) as [l|] eqn:Ht.
  - constructor; fields.
    + intros t' l' Hl'. destruct (H1 _ _ Hl') as [? ?]. split; [done|].
      by rewrite !topic_of_alter.
    + intros l' Hl'. rewrite !length_alter. by apply H2.
    + done.
  - constructor; fields.
    + intros t' l'. rewrite lookup_insert. case_decide as Heq.
      * intros [= <-]. subst t'. split; [apply elem_of_app; right; by left|].
        unfold topic_of. by rewrite list_lookup_total_middle.
      * intros Hl'. destruct (H1 _ _ Hl') as [Hin Htop].
        split; [apply elem_of_app; by left|].
        unfold topic_of in *. rewrite lookup_total_app_l; [done|by apply H2].
    + intros l' [Hl'|Hl']%elem_of_app; rewrite length_app; cbn.
      * specialize (H2 _ Hl'). lia.
      * apply list_elem_of_singleton in Hl'. lia.
    + apply NoDup_app. split_and!; [done| |apply NoDup_singleton].
      intros l' Hl' Heq%list_elem_of_singleton. specialize (H2 _ Hl'). lia.
Qed.

Lemma wf_loop_step c st st' :
  wf_refs st → _processing st = true → loop_step c st st' → wf st'.
Proof.
  intros [H1 H2 H3] Hp Hstep. destruct Hstep as [Hc|sk msg q' a es Hrun Hreg Hq Hsk Hlive|Hrun Hreg Hsk].
  - unfold process_exit. split; [constructor|]; destruct (10 <=? c); fields; try done.
    all: split; [done|by intros [? ?]].
  - split; [constructor|]; fields.
    + intros t l [Hne Hl]%lookup_delete_Some. destruct (H1 _ _ Hl) as [Hin Htop].
      split; [|done]. rewrite Hq in Hin.
      apply elem_of_app in Hin as [Hin|Hin].
      * rewrite Forall_forall in Hsk. specialize (Hsk _ Hin).
        rewrite Htop in Hsk. congruence.
      * apply elem_of_cons in Hin as [->|Hin]; [congruence|done].
    + intros l Hl. apply H2. rewrite Hq. apply elem_of_app. right. by right.
    + rewrite Hq in H3. apply NoDup_app in H3 as (_ & _ & H3).
      by apply NoDup_cons in H3 as [_ H3].
    + rewrite Hp. split; [by eauto|done].
  - split; [constructor|]; fields.
    + intros t l Hl. destruct (H1 _ _ Hl) as [Hin Htop].
      rewrite Forall_forall in Hsk. specialize (Hsk _ Hin).
      rewrite Htop in Hsk. congruence.
    + by intros l ?%elem_of_nil.
    + constructor.
    + rewrite Hp. split; [by eauto|done].
Qed.

Lemma wf_process st : wf st → wf (process st).
Proof.
  intros Hwf. unfold process. destruct (_processing st) eqn:Hp; [done|].
  destruct Hwf as [Hr Hf].
  eapply wf_loop_step; [| |apply process_loop_step]; [|done].
  by apply (wf_refs_ext st).
Qed.

Lemma wf_resume st : wf st → wf (resume st).
Proof.
  intros Hwf. destruct (frame st) as [f|] eqn:Hfr.
  - destruct Hwf as [Hr Hf].
    destruct (resume_step st f Hfr) as [es Hstep].
    eapply wf_loop_step; [| |exact Hstep].
    + by apply (wf_refs_ext st).
    + apply Hf. by rewrite Hfr.
  - unfold resume. by rewrite Hfr.
Qed.

Lemma wf_add dq t p o pr st : wf st → wf (add dq t p o pr st).
Proof.
  intros Hwf. rewrite add_unfold.
  destruct (isRegistered st && truthy t); [|done].
  assert (wf (stored dq t p (default no_options o) st)) as Hst.
  { destruct Hwf as [Hr Hf]. split; [by apply wf_refs_stored|].
    unfold stored. by destruct (messages st !! t). }
  case_bool_decide; [done|by apply wf_process].
Qed.

Lemma wf_step dq st op : wf st → wf (step dq st op).
Proof.
  intros Hwf. destruct op; cbn [step].
  - by apply wf_add.
  - done.
  - destruct Hwf. split; [by apply wf_refs_remove|done].
  - by apply wf_process.
  - apply wf_process. by apply (wf_ext st).
  - by apply (wf_ext st).
  - destruct Hwf. split; [apply wf_refs_clear|done].
  - destruct Hwf. split; [apply wf_refs_clear|done].
  - by apply wf_resume.
  - by apply (wf_ext st).
  - destruct Hwf. split; [apply (wf_refs_clear (set_registered false st))|done].
Qed.

Lemma wf_run dq ops : ∀ st, wf st → wf (run dq ops st).
Proof.
  induction ops as [|op ops IH]; intros st Hwf; [done|].
  cbn. apply IH. by apply wf_step.
Qed.

Lemma wf_covered st : wf_refs st → covered (heap st) (messages st) (queue st).
Proof. intros [H1 _ _] t [l Hl]. exists l. by apply H1. Qed.

(** *** Repeated [add] for one topic *)


Lemma alter_last {A} (f : A → A) (h : list A) (m : A) :
  alter f (length h) (h ++ [m]) = h ++ [f m].
Proof. rewrite <- (Nat.add_0_r (length h)) at 1. by rewrite alter_app_r. Qed.

Lemma enqueue_all_cons dq topic c cs st :
  enqueue_all dq topic (c :: cs) st =
  enqueue_all dq topic cs (add dq topic c.1 c.2 (Some false) st).
Proof. reflexivity. Qed.

Lemma enqueue_all_live dq topic cs : ∀ st h m,
  registered st = true → truthy topic = true →
  heap st = h ++ [m] → messages st !! topic = Some (length h) →
  enqueue_all dq topic cs st =
  set_heap (λ _, h ++ [foldl (λ m c, overwrite c m) m cs]) st.
Proof.
  induction cs as [|c cs IH]; intros st h m Hreg Htopic Hh Hlive.
  - cbn. rewrite <- Hh. by destruct st.
  - rewrite enqueue_all_cons, add_unfold. unfold isRegistered. rewrite Hreg, Htopic.
    cbn [andb]. rewrite bool_decide_true by done.
    unfold stored. rewrite Hlive.
    rewrite (IH _ h (overwrite c m)); fields; try done.
    rewrite Hh. by rewrite !alter_last.
Qed.

Lemma overwrite_last topic m cs c' :
  last cs = Some c' → mqttTopic m = topic →
  foldl (λ m c, overwrite c m) m cs =
  mkMessage topic c'.1 (opt_qos (default no_options c'.2))
    (opt_retain (default no_options c'.2)).
Proof.
  intros Hlast Htopic. revert m Htopic.
  induction cs as [|c cs IH]; intros m Htopic; [done|].
  cbn [foldl]. destruct cs as [|c2 cs].
  - cbn in Hlast. injection Hlast as ->.
    unfold overwrite, set_retain, set_qos, set_mqttMessage. cbn.
    by rewrite Htopic.
  - apply IH; [done|]. done.
Qed.

Lemma enqueue_all_first dq topic c cs st :
  registered st = true → truthy topic = true → messages st !! topic = None →
  enqueue_all dq topic (c :: cs) st =
  set_heap (λ h, h ++ [last_message dq topic c cs])
    (set_queue (λ q, q ++ [length (heap st)])
      (set_messages <[topic := length (heap st)]> st)).
Proof.
  intros Hreg Htopic Hnone.
  rewrite enqueue_all_cons, add_unfold. unfold isRegistered. rewrite Hreg, Htopic.
  cbn [andb]. rewrite bool_decide_true by done.
  unfold stored. rewrite Hnone.
  erewrite enqueue_all_live; fields; try done.
  2:{ by rewrite lookup_insert_eq. }
  state_eq; try done. do 2 f_equal.
  unfold last_message. destruct (last cs) as [c'|] eqn:Hlast.
  - by apply overwrite_last.
  - apply last_None in Hlast. by subst.
Qed.

Lemma scenario_ab_unfold dq st :
  scenario_ab dq st
  = enqueue_all dq "a/b" [("1", Some retain_true); ("2", None)] st.
Proof. unfold scenario_ab, enqueue_all. cbn [foldl fst snd]. reflexivity. Qed.

Lemma drained_app h q1 : ∀ ms q2,
  drained h ms (q1 ++ q2) = drained h ms q1 ++ drained h (left_live h ms q1) q2.
Proof.
  induction q1 as [|x q1 IH]; intros ms q2; [done|].
  cbn [app drained]. rewrite left_live_cons. case_bool_decide as Hx.
  - cbn. by rewrite IH.
  - apply eq_None_not_Some in Hx. by rewrite IH, (delete_id _ _ Hx).
Qed.

Lemma left_live_lookup_ne h t q : ∀ ms,
  Forall (λ l, topic_of h l ≠ t) q → left_live h ms q !! t = ms !! t.
Proof.
  induction q as [|x q IH]; intros ms Hq; [done|].
  apply Forall_cons in Hq as [Hx Hq]. rewrite left_live_cons, IH by done.
  by rewrite lookup_delete_ne.
Qed.

Lemma entries_for_nil t st :
  entries_for t st = [] ↔ Forall (λ l, topic_of (heap st) l ≠ t) (queue st).
Proof.
  unfold entries_for. induction (queue st) as [|x q IH].
  - split; [constructor|done].
  - rewrite filter_cons. case_decide as Hx.
    + split; [done|]. by intros [? ?]%Forall_cons.
    + rewrite IH. split; [by constructor|by intros [? ?]%Forall_cons].
Qed.

Lemma published_since_app st st' evs :
  trace st' = trace st ++ evs → published_since st st' = published evs.
Proof. intros H. unfold published_since. by rewrite H, drop_app_length. Qed.

Lemma published_fmap {A} (f : A → Message) (l : list A) :
  published ((λ x, Publish (f x)) <$> l) = f <$> l.
Proof. unfold published. induction l; cbn; [done|by f_equal]. Qed.

Lemma filter_none {A} (P : A → Prop) `{!∀ x, Decision (P x)} (l : list A) :
  Forall (λ x, ¬ P x) l → filter P l = [].
Proof.
  induction 1 as [|x l Hx _ IH]; [done|].
  by rewrite filter_cons, decide_False.
Qed.

Lemma process_settles st :
  _processing st = false → running st = true → registered st = true →
  ∃ st', drain st = Some st' ∧ Drained st st'.
Proof.
  intros Hp Hrun Hreg. unfold drain, process. rewrite Hp.
  destruct (process_loop_settles (S (length (queue st))) 0 (set__processing true st))
    as (st' & Hst' & HD); fields; [lia|done|done|].
  exists st'. split; [done|].
  destruct HD as [D1 D2 D3 D4 D5 D6 D7 D8 D9 D10]. fields. by constructor.
Qed.

Lemma coalesce dq topic (c : Call) (cs : list Call) st :
  wf st → registered st = true → running st = true → _processing st = false →
  truthy topic = true → entries_for topic st = [] →
  let st1 := enqueue_all dq topic (c :: cs) st in
  queue st1 = queue (enqueue_all dq topic [c] st)
  ∧ queue st1 = queue st ++ [length (heap st)]
  ∧ messages st1 !! topic = Some (length (heap st))
  ∧ heap st1 !! length (heap st) = Some (last_message dq topic c cs)
  ∧ ∃ st2, drain st1 = Some st2
      ∧ filter (λ m, mqttTopic m = topic) (published_since st st2)
        = [last_message dq topic c cs].
Proof.
  intros [Hrefs _] Hreg Hrun Hp Htopic Hnone st1.
  assert (messages st !! topic = None) as Hdead.
  { apply eq_None_not_Some. intros [l Hl].
    destruct (wf_live _ Hrefs _ _ Hl) as [Hin Ht].
    apply entries_for_nil in Hnone. rewrite Forall_forall in Hnone.
    by apply (Hnone l). }
  assert (mqttTopic (last_message dq topic c cs) = topic) as Hmt.
  { unfold last_message. by destruct (last cs). }
  subst st1. rewrite !enqueue_all_first by done. fields.
  split_and!; [done|done|by rewrite lookup_insert_eq| |].
  { by rewrite list_lookup_middle. }
  edestruct process_settles as (st2 & Hst2 & HD); [| | |exists st2; split; [exact Hst2|]];
    fields; [done..|].
  destruct HD as [_ _ _ _ _ _ _ _ Htr _]. fields.
  rewrite (published_since_app _ _ _ Htr).
  set (h' := heap st ++ [last_message dq topic c cs]) in *.
  assert (Forall (λ l, topic_of h' l ≠ topic) (queue st)) as Hq.
  { apply entries_for_nil in Hnone. rewrite Forall_forall in Hnone |- *.
    intros l Hl. unfold topic_of, h'.
    rewrite lookup_total_app_l by (by apply (wf_bound _ Hrefs)).
    by apply Hnone. }
  assert (topic_of h' (length (heap st)) = topic) as Hl0.
  { unfold topic_of, h'. by rewrite list_lookup_total_middle. }
  rewrite drained_app, fmap_app, published_app, filter_app.
  rewrite !published_fmap.
  rewrite filter_none.
  2:{ rewrite Forall_forall. intros m (l & -> & Hl)%list_elem_of_fmap.
      apply drained_live in Hl as [Hl _].
      rewrite Forall_forall in Hq. by apply Hq. }
  cbn [drained app]. rewrite Hl0, left_live_lookup_ne by done.
  rewrite lookup_insert_eq, bool_decide_true by eauto.
  cbn [fmap list_fmap]. rewrite filter_cons, decide_True.
  - f_equal. unfold h'. by rewrite list_lookup_total_middle.
  - unfold h'. by rewrite list_lookup_total_middle.
Qed.

Lemma published_since_refl st : published_since st st = [].
Proof. unfold published_since. by rewrite drop_all. Qed.

Lemma next_call_published st :
  published_since st (next_call st).2 =
  match (_getNextMessage st).1 with
  | Some msg => [heap st !!! msg]
  | None => []
  end.
Proof.
  unfold next_call. destruct (_getNextMessage st) as [[msg|] st1] eqn:Hnext; cbn [fst snd].
  - unfold _getNextMessage in Hnext. injection Hnext as _ <-.
    destruct (send_call_unfold msg
      (set_messages (delete (topic_of (heap (set_queue
         (λ _, (_getNextMessage_from (heap st) (messages st) (queue st)).2) st)) msg))
         (set_queue (λ _, (_getNextMessage_from (heap st) (messages st) (queue st)).2) st)))
      as (a & es & ->).
    cbn [snd]. erewrite published_since_app; [|fields; reflexivity]. done.
  - unfold _getNextMessage in Hnext. injection Hnext as _ <-.
    erewrite published_since_app; [|fields; symmetry; apply app_nil_r]. done.
Qed.

Lemma wf_live_once st t l :
  wf st → messages st !! t = Some l →
  length (filter (λ x, x = l) (queue st)) = 1.
Proof.
  intros [Hrefs _] Hl. destruct (wf_live _ Hrefs _ _ Hl) as [Hin _].
  pose proof (wf_nodup _ Hrefs) as Hnd. revert Hin Hnd.
  induction (queue st) as [|x q IH]; [by intros ?%elem_of_nil|].
  intros Hin [Hx Hnd]%NoDup_cons. rewrite filter_cons. case_decide as Heq.
  - subst x. rewrite filter_none; [done|].
    rewrite Forall_forall. intros y Hy ->. done.
  - apply elem_of_cons in Hin as [->|Hin]; [done|]. by apply IH.
Qed.

Lemma wf_live_inj st t1 t2 l :
  wf st → messages st !! t1 = Some l → messages st !! t2 = Some l → t1 = t2.
Proof.
  intros [Hrefs _] H1 H2.
  destruct (wf_live _ Hrefs _ _ H1) as [_ <-].
  by destruct (wf_live _ Hrefs _ _ H2) as [_ <-].
Qed.


(** *** After [remove] *)

Lemma not_publish_of_filter t evs :
  Forall (not_publish_of t) evs →
  filter (λ m, mqttTopic m = t) (published evs) = [].
Proof.
  induction 1 as [|e evs He _ IH]; [done|].
  change (e :: evs) with ([e] ++ evs). rewrite published_app, filter_app, IH.
  destruct e; try done. cbn. by rewrite decide_False.
Qed.

Lemma quiet_refl t st st' : trace st' = trace st → quiet t st st'.
Proof. intros H. exists []. by rewrite app_nil_r. Qed.

Lemma quiet_trans t st1 st2 st3 : quiet t st1 st2 → quiet t st2 st3 → quiet t st1 st3.
Proof.
  intros (e1 & H1 & F1) (e2 & H2 & F2). exists (e1 ++ e2).
  split; [by rewrite H2, H1, app_assoc|by apply Forall_app].
Qed.

Lemma loop_step_dead t c st st' :
  messages st !! t = None → loop_step c st st' →
  messages st' !! t = None ∧ quiet t st st'.
Proof.
  intros Hdead [Hc|sk msg q' a es Hrun Hreg Hq Hsk Hlive|Hrun Hreg Hsk].
  - unfold process_exit. destruct (10 <=? c); fields; (split; [done|by apply quiet_refl]).
  - fields. split.
    + rewrite lookup_delete_None. by right.
    + eexists [_]. fields. split; [done|]. constructor; [|done].
      cbn. intros Heq. unfold topic_of in Hlive. rewrite Heq, Hdead in Hlive.
      by destruct Hlive.
  - fields. split; [done|by apply quiet_refl].
Qed.

Lemma process_dead t st :
  messages st !! t = None →
  messages (process st) !! t = None ∧ quiet t st (process st).
Proof.
  intros Hdead. unfold process. destruct (_processing st).
  - split; [done|by apply quiet_refl].
  - destruct (loop_step_dead t 0 (set__processing true st) _ Hdead
                (process_loop_step _ _)) as [H1 H2]. by split.
Qed.

Lemma resume_dead t st :
  messages st !! t = None →
  messages (resume st) !! t = None ∧ quiet t st (resume st).
Proof.
  intros Hdead. destruct (frame st) as [f|] eqn:Hf.
  - destruct (resume_step st f Hf) as [es Hstep].
    destruct (loop_step_dead t _ (write_logs es st) _ Hdead Hstep) as [H1 H2].
    by split.
  - unfold resume. rewrite Hf. split; [done|by apply quiet_refl].
Qed.

Lemma stored_dead dq t t' p o st :
  t' ≠ t → messages st !! t = None →
  messages (stored dq t' p o st) !! t = None
  ∧ trace (stored dq t' p o st) = trace st.
Proof.
  intros Hne Hdead. unfold stored. destruct (messages st !! t'); fields; [done|].
  by rewrite lookup_insert_ne.
Qed.

Lemma step_dead dq t st op :
  ¬ adds_topic t op → messages st !! t = None →
  messages (step dq st op) !! t = None ∧ quiet t st (step dq st op).
Proof.
  intros Hop Hdead. destruct op; cbn [step].
  - cbn in Hop. rewrite add_unfold.
    destruct (isRegistered st && truthy topic); [|split; [done|by apply quiet_refl]].
    destruct (stored_dead dq t topic payload (default no_options opt) st Hop Hdead)
      as [H1 H2].
    case_bool_decide; [split; [done|by apply quiet_refl]|].
    destruct (process_dead t _ H1) as [H3 H4]. split; [done|].
    eapply quiet_trans; [by apply quiet_refl|done].
  - split; [done|by apply quiet_refl].
  - split; [|by apply quiet_refl]. cbn. rewrite lookup_delete_None. by right.
  - by apply process_dead.
  - by apply (process_dead t (set_running true st)).
  - split; [done|by apply quiet_refl].
  - split; [done|by apply quiet_refl].
  - split; [done|by apply quiet_refl].
  - by apply resume_dead.
  - split; [done|by apply quiet_refl].
  - split; [done|by apply quiet_refl].
Qed.

Lemma run_dead dq t ops : ∀ st,
  Forall (λ op, ¬ adds_topic t op) ops → messages st !! t = None →
  messages (run dq ops st) !! t = None ∧ quiet t st (run dq ops st).
Proof.
  induction ops as [|op ops IH]; intros st Hops Hdead.
  - split; [done|by apply quiet_refl].
  - apply Forall_cons in Hops as [Hop Hops].
    destruct (step_dead dq t st op Hop Hdead) as [H1 H2].
    destruct (IH _ Hops H1) as [H3 H4]. split; [done|].
    by eapply quiet_trans.
Qed.

Lemma quiet_published t st st' :
  quiet t st st' → filter (λ m, mqttTopic m = t) (published_since st st') = [].
Proof.
  intros (evs & Htr & Hevs). rewrite (published_since_app _ _ _ Htr).
  by apply not_publish_of_filter.
Qed.


(** *** A drain left to run *)

Lemma drain_returns st :
  _processing st = false →
  ∃ st', drain st = Some st' ∧ _processing st' = false ∧ frame st' = None.
Proof.
  intros Hp. destruct (running st && isRegistered st) eqn:Hc.
  - apply andb_true_iff in Hc as [Hrun Hreg].
    destruct (process_settles st Hp Hrun Hreg) as (st' & Hst' & HD).
    exists st'. by destruct HD.
  - unfold drain, process. rewrite Hp.
    rewrite process_loop_stop by (fields; unfold isRegistered in *; fields; by rewrite Hc).
    exists (process_exit 0 (set__processing true st)). done.
Qed.

Lemma drain_publishes st st' :
  wf st → Drained st st' →
  published_since st st' =
    (λ l, heap st !!! l) <$> drained (heap st) (messages st) (queue st)
  ∧ length (published_since st st') = size (messages st)
  ∧ NoDup (mqttTopic <$> published_since st st')
  ∧ (∀ t, t ∈ mqttTopic <$> published_since st st' ↔ is_Some (messages st !! t))
  ∧ queue st' = [] ∧ messages st' = ∅.
Proof.
  intros [Hrefs _] [_ Hq Hm _ _ _ _ _ Htr _].
  destruct (drained_all _ _ _ (wf_covered _ Hrefs)) as (Hlen & Hleft & Hall).
  rewrite (published_since_app _ _ _ Htr), published_fmap.
  assert (mqttTopic <$> ((λ l, heap st !!! l) <$>
            drained (heap st) (messages st) (queue st))
          = topic_of (heap st) <$> drained (heap st) (messages st) (queue st)) as Htopics.
  { by rewrite <- list_fmap_compose. }
  rewrite Htopics. split_and!; [done| | | |done|by rewrite Hm].
  - by rewrite length_fmap.
  - apply drained_topics_NoDup.
  - intros t. split; [|apply Hall].
    intros (l & -> & Hl)%list_elem_of_fmap. by apply drained_live in Hl as [_ ?].
Qed.

Lemma add_restarts dq t p o st :
  wf st → _processing st = false → running st = true → registered st = true →
  truthy t = true →
  is_Some (frame (add dq t p o None st)).
Proof.
  intros [Hrefs _] Hp Hrun Hreg Ht. rewrite add_unfold. unfold isRegistered.
  rewrite Hreg, Ht. cbn [andb]. rewrite bool_decide_false by done.
  set (st1 := stored dq t p (default no_options o) st).
  assert (wf_refs st1) as Hrefs1 by by apply wf_refs_stored.
  assert (_processing st1 = false ∧ running st1 = true ∧ registered st1 = true
          ∧ is_Some (messages st1 !! t)) as (Hp1 & Hrun1 & Hreg1 & [l Hl]).
  { unfold st1, stored. destruct (messages st !! t) eqn:Hlive; fields;
      (split_and!; [done..|]); [by rewrite Hlive|by rewrite lookup_insert_eq]. }
  destruct (wf_live _ Hrefs1 _ _ Hl) as [Hin _].
  unfold process. rewrite Hp1. unfold process_loop, isRegistered. fields.
  rewrite Hrun1, Hreg1. destruct (queue st1); [by apply elem_of_nil in Hin|].
  cbn. eauto.
Qed.


(** *** A cleared queue and a new queue *)

Ltac shifted :=
  cbn [heap queue messages running _processing frame registered connect_ok
       outcomes trace log set_heap set_queue set_messages set_running
       set__processing set_frame set_registered set_outcomes emit write_log
       write_logs shift fst snd] in *.

Lemma topic_of_shift g h l : topic_of (g ++ h) (length g + l) = topic_of h l.
Proof.
  unfold topic_of. rewrite lookup_total_app_r by lia.
  by replace (length g + l - length g) with l by lia.
Qed.

Lemma lookup_total_shift g (h : list Message) l : (g ++ h) !!! (length g + l) = h !!! l.
Proof.
  rewrite lookup_total_app_r by lia.
  by replace (length g + l - length g) with l by lia.
Qed.

Lemma getNext_shift g h ms q :
  _getNextMessage_from (g ++ h) ((λ l, length g + l) <$> ms)
    ((λ l, length g + l) <$> q)
  = ((λ l, length g + l) <$> (_getNextMessage_from h ms q).1,
     (λ l, length g + l) <$> (_getNextMessage_from h ms q).2).
Proof.
  induction q as [|x q IH]; [done|].
  cbn [fmap list_fmap _getNextMessage_from].
  rewrite topic_of_shift, lookup_fmap.
  destruct (ms !! topic_of h x) as [l|] eqn:Hx; cbn; [done|apply IH].
Qed.

Lemma send_call_shift g msg s :
  send_call (length g + msg) (shift g s)
  = ((send_call msg s).1, shift g (send_call msg s).2).
Proof.
  unfold send_call, publish. shifted. rewrite lookup_total_shift.
  by destruct (hd Resolves (outcomes s)).
Qed.

Lemma next_call_shift g s :
  next_call (shift g s) = ((next_call s).1, shift g (next_call s).2).
Proof.
  unfold next_call, _getNextMessage. shifted. rewrite getNext_shift.
  destruct (_getNextMessage_from (heap s) (messages s) (queue s)) as [[msg|] q'];
    cbn [fst snd fmap option_fmap option_map]; shifted.
  - rewrite topic_of_shift.
    rewrite <- (send_call_shift g msg
      (set_messages (delete (topic_of (heap s) msg)) (set_queue (λ _, q') s))).
    f_equal. state_eq; by rewrite ?fmap_delete.
  - done.
Qed.

Lemma process_exit_shift g c s :
  process_exit c (shift g s) = shift g (process_exit c s).
Proof. unfold process_exit. by destruct (10 <=? c). Qed.

Lemma process_loop_shift g c s :
  process_loop c (shift g s) = shift g (process_loop c s).
Proof.
  unfold process_loop, isRegistered. shifted. rewrite length_fmap.
  destruct (running s && registered s && (0 <? length (queue s))).
  - rewrite next_call_shift. done.
  - apply process_exit_shift.
Qed.

Lemma process_shift g s : process (shift g s) = shift g (process s).
Proof.
  unfold process. shifted. destruct (_processing s); [done|].
  apply (process_loop_shift g 0 (set__processing true s)).
Qed.

Lemma resume_shift g s : resume (shift g s) = shift g (resume s).
Proof.
  unfold resume. shifted. destruct (frame s) as [f|]; [|done].
  destruct (awaiting f) as [[]| |]; cbn [send_resume next_resume fst snd];
    unfold process_resume.
  - apply (process_loop_shift g).
  - exact (process_loop_shift g _ (write_log _ (write_log _ s))).
  - apply (process_loop_shift g).
  - apply (process_loop_shift g).
Qed.

Lemma stored_shift g dq t p o s :
  stored dq t p o (shift g s) = shift g (stored dq t p o s).
Proof.
  unfold stored. shifted. rewrite lookup_fmap.
  destruct (messages s !! t) as [l|]; cbn [fmap option_fmap option_map].
  - state_eq; try done. by rewrite !alter_app_r.
  - state_eq; try done.
    + by rewrite <- app_assoc.
    + by rewrite length_app, fmap_app.
    + by rewrite length_app, fmap_insert.
Qed.

Lemma add_shift g dq t p o pr s :
  add dq t p o pr (shift g s) = shift g (add dq t p o pr s).
Proof.
  rewrite !add_unfold. unfold isRegistered. shifted.
  destruct (registered s && truthy t); [|done].
  rewrite stored_shift. case_bool_decide; [done|apply process_shift].
Qed.

Lemma step_shift g dq s op : step dq (shift g s) op = shift g (step dq s op).
Proof.
  destruct op; cbn [step].
  - apply add_shift.
  - done.
  - unfold remove. state_eq; by rewrite ?fmap_delete.
  - apply process_shift.
  - apply (process_shift g (set_running true s)).
  - done.
  - unfold clear. state_eq; by rewrite ?fmap_empty.
  - unfold destroy, clear, stop. state_eq; by rewrite ?fmap_empty.
  - apply resume_shift.
  - done.
  - unfold onUnRegistered, clear. state_eq; by rewrite ?fmap_empty.
Qed.

Lemma run_cons dq op ops s : run dq (op :: ops) s = run dq ops (step dq s op).
Proof. reflexivity. Qed.

Lemma run_shift g dq ops : ∀ s, run dq ops (shift g s) = shift g (run dq ops s).
Proof.
  induction ops as [|op ops IH]; intros s; [done|].
  by rewrite !run_cons, step_shift, IH.
Qed.

Lemma queue_contents_shift g s : queue_contents (shift g s) = queue_contents s.
Proof.
  unfold queue_contents. shifted. rewrite <- list_fmap_compose.
  apply list_fmap_ext. intros i l _. cbn. apply lookup_total_shift.
Qed.

Lemma live_contents_shift g s : live_contents (shift g s) = live_contents s.
Proof.
  unfold live_contents. shifted. rewrite <- map_fmap_compose.
  apply map_fmap_ext. intros t l _. cbn. apply lookup_total_shift.
Qed.

Lemma observe_shift g s : observe (shift g s) = observe s.
Proof.
  unfold observe. by rewrite queue_contents_shift, live_contents_shift.
Qed.

Lemma clear_shift st :
  running st = true → _processing st = false → frame st = None →
  clear st = shift (heap st) (constructor st).
Proof.
  intros Hrun Hp Hf. unfold clear, constructor.
  state_eq; by rewrite ?app_nil_r, ?fmap_empty.
Qed.


(** *** The trace only grows *)

Lemma extends_refl st st' : trace st' = trace st → extends st st'.
Proof. intros H. exists []. by rewrite app_nil_r. Qed.

Lemma extends_trans st1 st2 st3 : extends st1 st2 → extends st2 st3 → extends st1 st3.
Proof.
  intros [e1 H1] [e2 H2]. exists (e1 ++ e2). by rewrite H2, H1, app_assoc.
Qed.

Lemma loop_step_extends c st st' : loop_step c st st' → extends st st'.
Proof.
  intros [Hc|sk msg q' a es Hrun Hreg Hq Hsk Hlive|Hrun Hreg Hsk].
  - unfold process_exit. destruct (10 <=? c); by apply extends_refl.
  - by eexists.
  - by apply extends_refl.
Qed.

Lemma process_extends st : extends st (process st).
Proof.
  unfold process. destruct (_processing st); [by apply extends_refl|].
  apply (loop_step_extends 0 (set__processing true st)), process_loop_step.
Qed.

Lemma resume_extends st : extends st (resume st).
Proof.
  destruct (frame st) as [f|] eqn:Hf.
  - destruct (resume_step st f Hf) as [es Hstep].
    apply (loop_step_extends _ (write_logs es st) _ Hstep).
  - unfold resume. rewrite Hf. by apply extends_refl.
Qed.

Lemma step_extends dq st op : extends st (step dq st op).
Proof.
  destruct op; cbn [step]; try (by apply extends_refl).
  - rewrite add_unfold. destruct (isRegistered st && truthy topic);
      [|by apply extends_refl].
    assert (trace (stored dq topic payload (default no_options opt) st) = trace st)
      as Htr by (unfold stored; by destruct (messages st !! topic)).
    case_bool_decide; [by apply extends_refl|].
    eapply extends_trans; [by apply extends_refl|apply process_extends].
  - apply process_extends.
  - apply (process_extends (set_running true st)).
  - apply resume_extends.
Qed.

Lemma run_extends dq ops : ∀ st, extends st (run dq ops st).
Proof.
  induction ops as [|op ops IH]; intros st; [by apply extends_refl|].
  rewrite run_cons. eapply extends_trans; [apply step_extends|apply IH].
Qed.

Lemma extends_published st st' :
  extends st st' →
  published (trace st') = published (trace st) ++ published_since st st'.
Proof.
  intros [evs H]. rewrite (published_since_app _ _ _ H), H. apply published_app.
Qed.

(** *** The claims about the queue *)

(** C1. Calls of [add] for one topic, made while no drain runs (each with
    [process] suppressed) on a running queue with a registered client in
    which no pending entry bears that topic: the pending order gets one
    entry, at the place the first call put it, and the later calls overwrite
    that Message where it is. A drain then hands [publish] exactly one
    message for the topic, with the payload, qos and retain of the last
    call. *)
Theorem add_same_topic_coalesces dq topic (c : Call) (cs : list Call) st :
  wf st → registered st = true → running st = true → _processing st = false →
  truthy topic = true → entries_for topic st = [] →
  let st1 := enqueue_all dq topic (c :: cs) st in
  queue st1 = queue (enqueue_all dq topic [c] st)
  ∧ queue st1 = queue st ++ [length (heap st)]
  ∧ messages st1 !! topic = Some (length (heap st))
  ∧ heap st1 !! length (heap st) = Some (last_message dq topic c cs)
  ∧ ∃ st2, drain st1 = Some st2
      ∧ filter (λ m, mqttTopic m = topic) (published_since st st2)
        = [last_message dq topic c cs].
Proof. apply coalesce. Qed.

Lemma add_same_topic_coalesces_witness :
  let st := constructor registered_client in
  let st1 := enqueue_all 0 "t" [("1", Some retain_true); ("2", None); ("3", None)] st in
  queue st1 = queue (enqueue_all 0 "t" [("1", Some retain_true)] st)
  ∧ queue st1 = queue st ++ [length (heap st)]
  ∧ messages st1 !! "t" = Some (length (heap st))
  ∧ heap st1 !! length (heap st)
    = Some (last_message 0 "t" ("1", Some retain_true) [("2", None); ("3", None)])
  ∧ ∃ st2, drain st1 = Some st2
      ∧ filter (λ m, mqttTopic m = "t") (published_since st st2)
        = [last_message 0 "t" ("1", Some retain_true) [("2", None); ("3", None)]].
Proof.
  apply (add_same_topic_coalesces 0 "t" ("1", Some retain_true)
           [("2", None); ("3", None)] (constructor registered_client));
    [apply wf_constructor|reflexivity..].
Defined.

(** C2, as stated, fails: after [add("a/b", "1", {retain:true}, false)] and
    [add("a/b", "2", undefined, false)] on a new queue, the drain does not
    publish a message with retain true. *)
Lemma scenario_ab_retain_not_kept :
  ¬ ∃ st2 m,
      drain (scenario_ab 0 (constructor registered_client)) = Some st2
      ∧ published (trace st2) = [m]
      ∧ mqttTopic m = "a/b" ∧ mqttMessage m = "2" ∧ retain m = Some true.
Proof.
  intros (st2 & m & Hdrain & Hpub & _ & _ & Hretain).
  vm_compute in Hdrain. injection Hdrain as <-.
  vm_compute in Hpub. injection Hpub as <-. discriminate Hretain.
Qed.

(** C2, amended: in that scenario on a new queue with a registered client,
    the drain hands [publish] exactly one message, with topic "a/b", payload
    "2", and the qos and retain of the second call, which gave none: the
    retain of the first call is overwritten. *)
Theorem scenario_ab_publishes_last_call dq st :
  registered st = true →
  ∃ st2,
    drain (scenario_ab dq (constructor st)) = Some st2
    ∧ published_since st st2 = [mkMessage "a/b" "2" None None]
    ∧ queue st2 = [] ∧ messages st2 = ∅.
Proof.
  intros Hreg. rewrite scenario_ab_unfold, enqueue_all_first by done.
  edestruct process_settles as (st2 & Hst2 & HD); [| | |exists st2; split; [exact Hst2|]];
    fields; [done..|].
  destruct HD as [_ Hq Hm _ _ _ _ _ Htr _]. unfold constructor in *. fields.
  split_and!; [|done|].
  - rewrite (published_since_app _ _ _ Htr). done.
  - rewrite Hm. done.
Qed.

Lemma scenario_ab_publishes_last_call_witness :
  ∃ st2,
    drain (scenario_ab 0 (constructor registered_client)) = Some st2
    ∧ published_since registered_client st2 = [mkMessage "a/b" "2" None None]
    ∧ queue st2 = [] ∧ messages st2 = ∅.
Proof. apply (scenario_ab_publishes_last_call 0 registered_client). reflexivity. Defined.

(** C3, as stated, fails: [add] does not keep the pending order at one entry
    per live topic. After [add("x")] and [remove("x")] the property holds;
    a second [add("x")] then makes two entries whose topic is live. *)
Lemma cancel_then_add_two_entries :
  let st := remove "x" (add 0 "x" "old" None (Some false)
                          (constructor registered_client)) in
  one_entry_per_live_topic st
  ∧ ¬ one_entry_per_live_topic (step 0 st (OpAdd "x" "new" None (Some false))).
Proof.
  split.
  - intros t [l Hl]. vm_compute in Hl. destruct t; discriminate.
  - intros H. specialize (H "x" ltac:(vm_compute; eauto)).
    vm_compute in H. lia.
Qed.

(** C3, amended: a new queue is consistent ([wf]) and every operation keeps
    the queue consistent: a topic of the live set maps to one Message, which
    is filed under its own topic and occurs exactly once in the pending
    order (the pending order may hold further entries with that topic); and
    [_getNextMessage] drops the entries whose topic is not in the live set,
    which are never handed to [publish], and returns the first entry whose
    topic is. *)
Theorem queue_invariant dq op st :
  wf st →
  wf (step dq st op)
  ∧ wf (constructor st)
  ∧ (∀ t l, messages st !! t = Some l →
       topic_of (heap st) l = t ∧ length (filter (λ x, x = l) (queue st)) = 1)
  ∧ match (_getNextMessage st).1 with
    | Some msg =>
        is_Some (messages st !! topic_of (heap st) msg)
        ∧ (∃ skipped,
             queue st = skipped ++ msg :: queue (_getNextMessage st).2
             ∧ Forall (λ l, messages st !! topic_of (heap st) l = None) skipped)
        ∧ published_since st (next_call st).2 = [heap st !!! msg]
    | None =>
        Forall (λ l, messages st !! topic_of (heap st) l = None) (queue st)
        ∧ queue (_getNextMessage st).2 = []
        ∧ published_since st (next_call st).2 = []
    end.
Proof.
  intros Hwf. split_and!.
  - by apply wf_step.
  - apply wf_constructor.
  - intros t l Hl. split; [|by eapply wf_live_once].
    destruct Hwf as [Hrefs _]. by apply (wf_live _ Hrefs).
  - rewrite next_call_published. unfold _getNextMessage. cbn [fst snd]. fields.
    destruct (_getNextMessage_from (heap st) (messages st) (queue st))
      as [[msg|] q'] eqn:Hnext; cbn [fst snd].
    + destruct (getNext_Some _ _ _ _ _ Hnext) as (sk & Hq & Hsk & Hlive & _).
      split_and!; [done| |done]. by exists sk.
    + destruct (getNext_None (heap st) (messages st) (queue st)) as (Hnil & Hsk & _);
        [by rewrite Hnext|].
      rewrite Hnext in Hnil. done.
Qed.

Lemma queue_invariant_witness :
  let st := add 0 "x" "v" None (Some false) (constructor registered_client) in
  wf (step 0 st OpProcess).
Proof.
  apply (queue_invariant 0 OpProcess
           (add 0 "x" "v" None (Some false) (constructor registered_client))).
  apply wf_add, wf_constructor.
Defined.

(** C4. On a consistent queue: while an activation of [process] is
    suspended, a further call of [process] returns at once and changes
    nothing, so nothing is published by it; after any operations the flag
    [_processing] is set exactly while an activation is suspended, so there
    is never a second one; the flag is clear as soon as [process] has left
    its loop, also when the awaited [next()] had been rejected; and a drain
    left to run on an idle queue ends, with the flag clear, however the
    [publish] calls end. When the queue is running and the client is
    registered, that drain hands [publish] as many messages as there are
    topics in the live set, one for each, and a later [add] starts
    [process] again. *)
Theorem process_reentrancy dq st :
  wf st →
  (is_Some (frame st) → process st = st)
  ∧ (∀ ops, _processing (run dq ops st) = true ↔ is_Some (frame (run dq ops st)))
  ∧ (∀ o c, frame (process_resume o c st) = None →
            _processing (process_resume o c st) = false)
  ∧ (_processing st = false →
     ∃ st', drain st = Some st'
       ∧ _processing st' = false ∧ frame st' = None
       ∧ (running st = true → registered st = true →
          length (published_since st st') = size (messages st)
          ∧ NoDup (mqttTopic <$> published_since st st')
          ∧ (∀ t, t ∈ mqttTopic <$> published_since st st'
                  ↔ is_Some (messages st !! t))
          ∧ ∀ t p o, truthy t = true →
              is_Some (frame (add dq t p o None st')))).
Proof.
  intros Hwf. split_and!.
  - intros Hf. unfold process. destruct Hwf as [_ Hfr].
    apply Hfr in Hf. by rewrite Hf.
  - intros ops. by apply (wf_run dq ops st Hwf).
  - intros o c. unfold process_resume.
    destruct (process_loop_step c
      match o with
      | Fulfilled => st
      | Rejected => write_log Log_error_exn
          (write_log (Log_error "MessageQueue: Failed to process next message") st)
      end) as [Hc| |]; fields; [|done..].
    unfold process_exit. by destruct (10 <=? c).
  - intros Hp.
    destruct (running st && isRegistered st) eqn:Hc.
    + apply andb_true_iff in Hc as [Hrun Hreg].
      destruct (process_settles st Hp Hrun Hreg) as (st' & Hst' & HD).
      exists st'. split_and!; [done|by destruct HD..|].
      intros _ _.
      destruct (drain_publishes st st' Hwf HD) as (_ & H1 & H2 & H3 & H4 & H5).
      split_and!; [done..|].
      destruct HD as [_ _ _ Hrun' Hreg' _ Hp' Hf' _ _].
      intros t p o Ht.
      apply add_restarts; [|done|by rewrite Hrun'|by rewrite Hreg'|done].
      split; [constructor|]; rewrite ?H4, ?H5.
      * intros t' l Hl. by rewrite lookup_empty in Hl.
      * by intros l ?%elem_of_nil.
      * constructor.
      * rewrite Hp', Hf'. split; [done|by intros [? ?]].
    + destruct (drain_returns st Hp) as (st' & Hst' & H1 & H2).
      exists st'. split_and!; [done..|].
      intros Hrun Hreg. unfold isRegistered in Hc. by rewrite Hrun, Hreg in Hc.
Qed.

Lemma process_reentrancy_witness :
  let st := add 0 "x" "v" None None (constructor registered_client) in
  process st = st.
Proof.
  apply (process_reentrancy 0
           (add 0 "x" "v" None None (constructor registered_client)));
    [apply wf_add, wf_constructor|vm_compute; eauto].
Defined.

(** C5. [remove(topic)] takes the topic out of the live set and leaves the
    pending order (and everything else) as it is. After it, whatever the
    queue is asked to do and however the drain proceeds, no message of that
    topic is handed to [publish], unless [add] is called for the topic
    again. Removing a topic that is not in the live set, because the drain
    has already taken it or because it never was, changes nothing; [remove]
    has no failing case. *)
Theorem remove_cancels_pending dq t ops st :
  Forall (λ op, ¬ adds_topic t op) ops →
  queue (remove t st) = queue st
  ∧ heap (remove t st) = heap st
  ∧ trace (remove t st) = trace st
  ∧ messages (remove t st) = delete t (messages st)
  ∧ filter (λ m, mqttTopic m = t)
      (published_since st (run dq ops (remove t st))) = []
  ∧ (messages st !! t = None → remove t st = st).
Proof.
  intros Hops. split_and!; [done..| |].
  - apply (quiet_published t (remove t st)).
    apply run_dead; [done|]. cbn. by rewrite lookup_delete_eq.
  - intros Hdead. unfold remove, set_messages. rewrite (delete_id _ _ Hdead).
    by destruct st.
Qed.

Lemma remove_cancels_pending_witness :
  let st := add 0 "x" "v" None (Some false) (constructor registered_client) in
  filter (λ m, mqttTopic m = "x")
    (published_since st (run 0 [OpProcess; OpResume; OpStart] (remove "x" st))) = [].
Proof.
  apply (remove_cancels_pending 0 "x" [OpProcess; OpResume; OpStart]
           (add 0 "x" "v" None (Some false) (constructor registered_client))).
  repeat constructor; cbn; tauto.
Defined.

(** C6. On a consistent, running, idle queue with a registered client,
    whatever way the [publish] calls end (fulfilled, rejected or thrown, in
    any order): the drain runs to its end; it hands [publish] the same
    messages as when no call fails; no topic is published twice and nothing
    is put back in the queue; and every topic of the live set is
    published. *)
Theorem publish_failure_keeps_draining st (os : list Outcome) :
  wf st → running st = true → registered st = true → _processing st = false →
  ∃ st', drain (set_outcomes (λ _, os) st) = Some st'
    ∧ published_since st st' =
        ((λ l, heap st !!! l) <$> drained (heap st) (messages st) (queue st))
    ∧ NoDup (mqttTopic <$> published_since st st')
    ∧ (∀ t, t ∈ mqttTopic <$> published_since st st' ↔ is_Some (messages st !! t))
    ∧ queue st' = [] ∧ messages st' = ∅
    ∧ _processing st' = false ∧ frame st' = None.
Proof.
  intros Hwf Hrun Hreg Hp.
  destruct (process_settles (set_outcomes (λ _, os) st)) as (st' & Hst' & HD);
    [done..|].
  exists st'. split; [done|].
  destruct (drain_publishes (set_outcomes (λ _, os) st) st') as (H1 & _ & H2 & H3 & H4 & H5);
    [by apply (wf_ext st)|done|].
  destruct HD as [_ _ _ _ _ _ Hp' Hf' _ _].
  by split_and!.
Qed.

Lemma publish_failure_keeps_draining_witness :
  let st := add 0 "t2" "b" None (Some false)
              (add 0 "t1" "a" None (Some false) (constructor registered_client)) in
  ∃ st', drain (set_outcomes (λ _, [Rejects; Resolves]) st) = Some st'
    ∧ published_since st st' =
        ((λ l, heap st !!! l) <$> drained (heap st) (messages st) (queue st))
    ∧ NoDup (mqttTopic <$> published_since st st')
    ∧ (∀ t, t ∈ mqttTopic <$> published_since st st' ↔ is_Some (messages st !! t))
    ∧ queue st' = [] ∧ messages st' = ∅
    ∧ _processing st' = false ∧ frame st' = None.
Proof.
  apply (publish_failure_keeps_draining
           (add 0 "t2" "b" None (Some false)
              (add 0 "t1" "a" None (Some false) (constructor registered_client)))
           [Rejects; Resolves]);
    [apply wf_add, wf_add, wf_constructor|reflexivity..].
Defined.

(** The scenario of C6: [publish] fails for "t1", and "t2", which is
    enqueued while that publish is pending, is published all the same. *)
Example publish_failure_scenario :
  let st := run 0 [OpAdd "t1" "a" None None; OpAdd "t2" "b" None None;
                   OpResume; OpResume]
              (set_outcomes (λ _, [Rejects; Resolves]) (constructor registered_client)) in
  published (trace st)
    = [Message_new 0 "t1" "a" None None; Message_new 0 "t2" "b" None None]
  ∧ log st = [Log_error "MessageQueue: Failed to send message"; Log_error_exn]
  ∧ queue st = [] ∧ messages st = ∅ ∧ _processing st = false.
Proof. vm_compute. done. Qed.

(** C7, as stated, fails. [clear] leaves [running] as it is: on a queue that
    was stopped, a message added after [clear] is not published, while a
    new queue publishes it. And [clear] leaves a pending drain as it is:
    during one, two calls of [add] for a topic after [clear] are merged into
    one publish, while a new queue publishes the first at once and the
    second later. *)
Lemma clear_keeps_stopped :
  (let st := stop (constructor registered_client) in
   let ops := [OpAdd "x" "v" None None; OpProcess; OpResume] in
   published (trace (run 0 ops (clear st))) = []
   ∧ published (trace (run 0 ops (constructor st)))
     = [Message_new 0 "x" "v" None None]
   ∧ observe (run 0 ops (clear st)) ≠ observe (run 0 ops (constructor st)))
  ∧ (let st := add 0 "a" "1" None None (constructor registered_client) in
     let ops := [OpAdd "x" "1" None None; OpAdd "x" "2" None None;
                 OpResume; OpResume; OpResume] in
     published_since st (run 0 ops (clear st)) = [mkMessage "x" "2" None None]
     ∧ published_since st (run 0 ops (constructor st))
       = [Message_new 0 "x" "1" None None; Message_new 0 "x" "2" None None]).
Proof.
  split.
  - split_and!.
    + by vm_compute.
    + by vm_compute.
    + vm_compute. intros [=].
  - split.
    + by vm_compute.
    + by vm_compute.
Qed.

(** C7, amended: [clear] empties the pending order and the live set and
    changes nothing else: [running], [_processing] and a suspended drain
    are as they were, whatever they were. The client's unregistered
    notification does the same to the queue. On a queue that is running
    and has no drain in progress, whatever is done after [clear] goes as on
    a newly constructed queue: the same messages are in the pending order
    and in the live set, the same calls of [publish] are made, the same is
    logged; and so it is after the notification, once the client has
    registered again. *)
Theorem clear_resets dq st ops :
  (queue (clear st) = [] ∧ messages (clear st) = ∅
   ∧ running (clear st) = running st
   ∧ _processing (clear st) = _processing st
   ∧ frame (clear st) = frame st
   ∧ heap (clear st) = heap st
   ∧ (registered (clear st), connect_ok (clear st), outcomes (clear st))
     = (registered st, connect_ok st, outcomes st)
   ∧ trace (clear st) = trace st ∧ log (clear st) = log st)
  ∧ (queue (onUnRegistered st) = [] ∧ messages (onUnRegistered st) = ∅
     ∧ running (onUnRegistered st) = running st
     ∧ _processing (onUnRegistered st) = _processing st
     ∧ frame (onUnRegistered st) = frame st
     ∧ trace (onUnRegistered st) = trace st)
  ∧ (running st = true → _processing st = false → frame st = None →
     observe (run dq ops (clear st)) = observe (run dq ops (constructor st))
     ∧ observe (run dq ops (onRegistered (onUnRegistered st)))
       = observe (run dq ops (constructor (onRegistered st)))).
Proof.
  split_and!; [done..|].
  intros Hrun Hp Hf. split.
  - by rewrite clear_shift, run_shift, observe_shift.
  - assert (onRegistered (onUnRegistered st) = clear (onRegistered st)) as ->
      by (by apply State_eq).
    by rewrite clear_shift, run_shift, observe_shift.
Qed.

Lemma clear_resets_witness :
  let st := add 0 "x" "v" None (Some false) (constructor registered_client) in
  let ops := [OpAdd "y" "w" None None; OpResume; OpResume] in
  observe (run 0 ops (clear st)) = observe (run 0 ops (constructor st)).
Proof.
  destruct (clear_resets 0
              (add 0 "x" "v" None (Some false) (constructor registered_client))
              [OpAdd "y" "w" None None; OpResume; OpResume])
    as (_ & _ & H).
  destruct H as [H _]; [reflexivity..|exact H].
Defined.

(** What the skip test by topic does after [add], [remove], [add] for one
    topic: the drain publishes the message that was cancelled, and the one
    added last is then dropped as stale. *)
Example cancel_then_add_publishes_old :
  let st := add 0 "x" "new" None (Some false)
              (remove "x" (add 0 "x" "old" None (Some false)
                             (constructor registered_client))) in
  (published ∘ trace) <$> drain st = Some [Message_new 0 "x" "old" None None].
Proof. by vm_compute. Qed.

(** *** Further properties of the queue *)

(** **** [add], [get] and [remove] *)

Lemma alter_fields (p : Payload) (q : option Z) (r : option bool)
    (acc : list Message) : ∀ (i : nat) m,
  acc !! i = Some m →
  alter (set_retain r) i (alter (set_qos q) i (alter (set_mqttMessage p) i acc))
  = <[i := mkMessage (mqttTopic m) p q r]> acc.
Proof.
  induction acc as [|m0 acc IH]; intros i m Hi; [done|].
  destruct i as [|i]; cbn in Hi.
  - by injection Hi as ->.
  - cbn. f_equal. by apply IH.
Qed.

(** X1. [add] then [get]. On a consistent queue with a registered client,
    after [add(topic, payload, opt, false)] for a non-empty topic,
    [get(topic)] returns a Message with that topic and payload and the
    retain of the call; its qos is the one of the call when the topic was in
    the live set already, and the one the constructor gives (defaulted)
    when the Message is new. The other topics keep their Message,
    unchanged; nothing is published; and after [remove(topic)],
    [get(topic)] returns nothing. *)
Theorem add_then_get dq t p o st :
  wf st → registered st = true → truthy t = true →
  let st1 := add dq t p o (Some false) st in
  (∃ l m, get t st1 = Some l ∧ heap st1 !! l = Some m
     ∧ mqttTopic m = t ∧ mqttMessage m = p
     ∧ retain m = opt_retain (default no_options o)
     ∧ qos m = match get t st with
               | Some _ => opt_qos (default no_options o)
               | None => Some (default dq (opt_qos (default no_options o)))
               end)
  ∧ (∀ t' l', t' ≠ t → get t' st = Some l' →
       get t' st1 = Some l' ∧ heap st1 !! l' = heap st !! l')
  ∧ (∀ t', t' ≠ t → get t' st = None → get t' st1 = None)
  ∧ get t (remove t st1) = None
  ∧ trace st1 = trace st.
Proof.
  intros Hwf Hreg Ht st1.
  assert (st1 = stored dq t p (default no_options o) st) as ->.
  { unfold st1. rewrite add_unfold. unfold isRegistered. rewrite Hreg, Ht.
    cbn [andb]. by rewrite bool_decide_true. }
  pose proof Hwf as [Hrefs _].
  unfold get, remove, stored. destruct (messages st !! t) as [l|] eqn:Hl; fields.
  - destruct (wf_live _ Hrefs _ _ Hl) as [Hin Htop].
    pose proof (wf_bound _ Hrefs _ Hin) as Hlt.
    destruct (lookup_lt_is_Some_2 _ _ Hlt) as [m Hm].
    rewrite (alter_fields _ _ _ _ _ _ Hm).
    unfold topic_of in Htop. rewrite (list_lookup_total_correct _ _ _ Hm) in Htop.
    split_and!.
    + eexists l, _. split_and!; [done|by apply list_lookup_insert_eq|done..].
    + intros t' l' Hne Hl'. split; [done|].
      rewrite list_lookup_insert_ne; [done|]. intros <-.
      apply Hne. by eapply wf_live_inj.
    + done.
    + by rewrite lookup_delete_eq.
    + done.
  - split_and!.
    + eexists (length (heap st)), _.
      split_and!; [by rewrite lookup_insert_eq|by apply list_lookup_middle|done..].
    + intros t' l' Hne Hl'. rewrite lookup_insert_ne by done. split; [done|].
      destruct (wf_live _ Hrefs _ _ Hl') as [Hin' _].
      rewrite lookup_app_l; [done|]. by apply (wf_bound _ Hrefs).
    + intros t' Hne Hl'. by rewrite lookup_insert_ne.
    + by rewrite lookup_delete_eq.
    + done.
Qed.

Lemma add_then_get_witness :
  let st1 := add 0 "x" "v" (Some retain_true) (Some false)
               (constructor registered_client) in
  ∃ l m, get "x" st1 = Some l ∧ heap st1 !! l = Some m
     ∧ mqttTopic m = "x" ∧ mqttMessage m = "v"
     ∧ retain m = opt_retain (default no_options (Some retain_true))
     ∧ qos m = match get "x" (constructor registered_client) with
               | Some _ => opt_qos (default no_options (Some retain_true))
               | None => Some (default 0%Z (opt_qos (default no_options (Some retain_true))))
               end.
Proof.
  destruct (add_then_get 0 "x" "v" (Some retain_true) (constructor registered_client))
    as (H & _); [apply wf_constructor|reflexivity|reflexivity|exact H].
Defined.

(** **** A batch of calls of [add] and the drain after it *)

Lemma upsert_fresh dq t p o acc :
  Forall (λ m, mqttTopic m ≠ t) acc →
  upsert dq t p o acc = acc ++ [Message_new dq t p (opt_qos o) (opt_retain o)].
Proof.
  induction 1 as [|m acc Hm _ IH]; cbn [upsert app]; [done|].
  by rewrite bool_decide_false, IH.
Qed.

Lemma upsert_at dq t p o acc : ∀ i m,
  NoDup (mqttTopic <$> acc) → acc !! i = Some m → mqttTopic m = t →
  upsert dq t p o acc = <[i := mkMessage t p (opt_qos o) (opt_retain o)]> acc.
Proof.
  induction acc as [|m0 acc IH]; intros i m Hnd Hi Ht; [done|].
  rewrite fmap_cons in Hnd. apply NoDup_cons in Hnd as [Hm0 Hnd].
  cbn [upsert]. destruct i as [|i]; cbn in Hi.
  - injection Hi as ->. by rewrite bool_decide_true.
  - rewrite bool_decide_false.
    + cbn. f_equal. by eapply IH.
    + intros Heq. apply Hm0. rewrite Heq, <- Ht.
      apply list_elem_of_fmap. exists m. split; [done|].
      by eapply list_elem_of_lookup_2.
Qed.

Lemma drained_all_live h q : ∀ ms,
  NoDup (topic_of h <$> q) →
  Forall (λ l, is_Some (ms !! topic_of h l)) q →
  drained h ms q = q.
Proof.
  induction q as [|l q IH]; intros ms Hnd Hlive; [done|].
  rewrite fmap_cons in Hnd. apply NoDup_cons in Hnd as [Hl Hnd].
  apply Forall_cons in Hlive as [Hlive Hq].
  cbn [drained]. rewrite bool_decide_true by done. f_equal.
  apply IH; [done|].
  rewrite Forall_forall in Hq |- *. intros l' Hl'.
  destruct (Hq _ Hl') as [v Hv]. exists v. rewrite lookup_delete_ne; [done|].
  intros Heq. apply Hl. rewrite Heq. apply list_elem_of_fmap. eauto.
Qed.

Lemma lookup_total_seq_all (acc : list Message) :
  (λ l, acc !!! l) <$> seq 0 (length acc) = acc.
Proof.
  apply list_eq. intros i. rewrite list_lookup_fmap.
  destruct (decide (i < length acc)) as [Hi|Hi].
  - rewrite lookup_seq_lt by done. cbn.
    destruct (lookup_lt_is_Some_2 acc i Hi) as [m Hm].
    by rewrite Hm, (list_lookup_total_correct _ _ _ Hm).
  - rewrite lookup_seq_ge by lia. cbn. symmetry. apply lookup_ge_None. lia.
Qed.

(** The state of a queue that has only been given a batch: the Message
    objects are the merged batch, in the pending order, each filed under its
    topic. *)
Lemma enqueue_merged dq calls : ∀ (s : State) (acc : list Message),
  registered s = true →
  heap s = acc → queue s = seq 0 (length acc) →
  NoDup (mqttTopic <$> acc) →
  (∀ t i, messages s !! t = Some i ↔ mqttTopic <$> acc !! i = Some t) →
  let s' := enqueue dq calls s in
  let acc' := foldl (λ acc c, if truthy c.1.1
                  then upsert dq c.1.1 c.1.2 (default no_options c.2) acc
                  else acc) acc calls in
  heap s' = acc' ∧ queue s' = seq 0 (length acc')
  ∧ NoDup (mqttTopic <$> acc')
  ∧ (∀ t i, messages s' !! t = Some i ↔ mqttTopic <$> acc' !! i = Some t)
  ∧ running s' = running s ∧ registered s' = true
  ∧ _processing s' = _processing s ∧ trace s' = trace s.
Proof.
  induction calls as [|[[t p] o] calls IH]; intros s acc Hreg Hh Hq Hnd Hm; [done|].
  cbn [enqueue foldl fst snd].
  rewrite add_unfold. unfold isRegistered. rewrite Hreg. cbn [andb].
  destruct (truthy t) eqn:Ht.
  2:{ by apply IH. }
  rewrite bool_decide_true by done.
  set (st1 := stored dq t p (default no_options o) s).
  set (acc1 := upsert dq t p (default no_options o) acc).
  assert (registered st1 = true ∧ heap st1 = acc1 ∧ queue st1 = seq 0 (length acc1)
          ∧ NoDup (mqttTopic <$> acc1)
          ∧ (∀ t i, messages st1 !! t = Some i ↔ mqttTopic <$> acc1 !! i = Some t)
          ∧ running st1 = running s ∧ _processing st1 = _processing s
          ∧ trace st1 = trace s) as (H1 & H2 & H3 & H4 & H5 & H6 & H7 & H8).
  { unfold st1, acc1, stored. destruct (messages s !! t) as [i|] eqn:Hlive.
    - apply Hm in Hlive. destruct (acc !! i) as [m|] eqn:Hi; [|done].
      injection Hlive as Hmt. fields.
      rewrite (upsert_at dq t p _ acc i m) by done.
      rewrite Hh, (alter_fields _ _ _ acc i m) by done. rewrite Hmt.
      assert (mqttTopic <$> <[i:=mkMessage t p (opt_qos (default no_options o))
                                  (opt_retain (default no_options o))]> acc
              = mqttTopic <$> acc) as Htopics.
      { rewrite list_fmap_insert. cbn. apply list_insert_id.
        by rewrite list_lookup_fmap, Hi, <- Hmt. }
      split_and!; try done.
      + by rewrite length_insert.
      + by rewrite Htopics.
      + intros t' i'. rewrite Hm. by rewrite <- !list_lookup_fmap, Htopics.
    - assert (Forall (λ m, mqttTopic m ≠ t) acc) as Hfresh.
      { rewrite Forall_forall. intros m Hin Hmt.
        apply list_elem_of_lookup in Hin as [i Hi].
        assert (messages s !! t = Some i) as Hc; [|congruence].
        apply Hm. by rewrite Hi, <- Hmt. }
      rewrite upsert_fresh by done. fields. rewrite Hh, Hq.
      rewrite length_app. cbn [length]. rewrite Nat.add_1_r, seq_S. cbn [Nat.add].
      split_and!; try done.
      + rewrite fmap_app. apply NoDup_app. split_and!; [done| |apply NoDup_singleton].
        intros t' (m & -> & Hin)%list_elem_of_fmap Heq%list_elem_of_singleton.
        rewrite Forall_forall in Hfresh. by apply (Hfresh m).
      + intros t' i. rewrite lookup_insert. case_decide as Heq.
        * subst t'. split.
          -- intros [= <-]. by rewrite list_lookup_middle.
          -- intros Hi. f_equal.
             destruct (decide (i < length acc)) as [Hlt|Hge].
             ++ rewrite lookup_app_l in Hi by done.
                destruct (acc !! i) as [m|] eqn:Hai; [|done].
                injection Hi as Hmt. rewrite Forall_forall in Hfresh.
                exfalso. apply (Hfresh m); [by eapply list_elem_of_lookup_2|done].
             ++ destruct (decide (i = length acc)) as [->|Hne]; [done|].
                rewrite lookup_ge_None_2 in Hi; [done|].
                rewrite length_app. cbn. lia.
        * rewrite Hm. split.
          -- intros Hi. destruct (acc !! i) as [m|] eqn:Hai; [|done].
             by rewrite (lookup_app_l_Some _ _ _ _ Hai).
          -- intros Hi. destruct (decide (i < length acc)) as [Hlt|Hge].
             ++ by rewrite lookup_app_l in Hi.
             ++ destruct (decide (i = length acc)) as [->|Hne].
                ** rewrite list_lookup_middle in Hi by done. cbn in Hi. congruence.
                ** rewrite lookup_ge_None_2 in Hi; [done|].
                   rewrite length_app. cbn. lia. }
  destruct (IH st1 acc1 H1 H2 H3 H4 H5) as (I1 & I2 & I3 & I4 & I5 & I6 & I7 & I8).
  unfold enqueue in *. split_and!; try done; congruence.
Qed.

Lemma wf_enqueue dq calls : ∀ s, wf s → wf (enqueue dq calls s).
Proof.
  induction calls as [|c calls IH]; intros s Hwf; [done|].
  cbn. apply IH. by apply wf_add.
Qed.

(** X2. A batch of calls [add(topic, payload, opt, false)] on a new queue
    with a registered client, and then a drain: what is handed to [publish]
    is the batch merged by topic, one message for each topic, in the order
    in which the topics were first added, each with the payload, qos and
    retain of the last call for its topic; calls with an empty topic count
    for nothing. The drain leaves the queue empty. *)
Theorem batch_then_drain dq (calls : list Enq) st :
  registered st = true →
  ∃ st', drain (enqueue dq calls (constructor st)) = Some st'
    ∧ published_since st st' = merged dq calls
    ∧ queue st' = [] ∧ messages st' = ∅.
Proof.
  intros Hreg.
  destruct (enqueue_merged dq calls (constructor st) []) as
    (H1 & H2 & H3 & H4 & H5 & H6 & H7 & H8);
    [done|done|done|constructor| |].
  { intros t i. cbn. by rewrite lookup_empty. }
  fold (merged dq calls) in *.
  set (s := enqueue dq calls (constructor st)) in *. cbn in H5, H7, H8.
  destruct (process_settles s) as (st' & Hst' & HD); [done..|].
  exists st'. split; [done|].
  pose proof HD as [_ Dq Dm _ _ _ _ _ Dtr _].
  assert (drained (heap s) (messages s) (queue s) = queue s) as Hdr.
  { apply drained_all_live.
    - rewrite H1, H2.
      change (topic_of (merged dq calls))
        with (mqttTopic ∘ (λ l, merged dq calls !!! l)).
      by rewrite list_fmap_compose, lookup_total_seq_all.
    - rewrite Forall_forall. intros l Hl. rewrite H2 in Hl.
      apply list_elem_of_lookup in Hl as [i Hi]. apply lookup_seq in Hi as [-> Hi].
      cbn. destruct (lookup_lt_is_Some_2 _ _ Hi) as [m Hm].
      exists i. apply H4. rewrite Hm. cbn. unfold topic_of. rewrite H1.
      by rewrite (list_lookup_total_correct _ _ _ Hm). }
  assert (wf s) as Hwf by apply wf_enqueue, wf_constructor.
  destruct (drain_publishes s st' Hwf HD) as (_ & _ & _ & _ & Hq' & Hm').
  split_and!; [|done|done].
  rewrite (published_since_app st st' _ ltac:(rewrite Dtr, H8; reflexivity)).
  rewrite published_fmap, Hdr, H1, H2. apply lookup_total_seq_all.
Qed.

Lemma batch_then_drain_witness :
  ∃ st', drain (enqueue 0 [("a", "1", None); ("b", "2", None); ("a", "3", None)]
                  (constructor registered_client)) = Some st'
    ∧ published_since registered_client st'
      = merged 0 [("a", "1", None); ("b", "2", None); ("a", "3", None)]
    ∧ queue st' = [] ∧ messages st' = ∅.
Proof.
  apply (batch_then_drain 0 [("a", "1", None); ("b", "2", None); ("a", "3", None)]
           registered_client).
  reflexivity.
Defined.

(** **** A queue that is stopped, and one that is started *)

Lemma process_loop_stopped c st :
  running st = false →
  trace (process_loop c st) = trace st ∧ running (process_loop c st) = false
  ∧ heap (process_loop c st) = heap st ∧ queue (process_loop c st) = queue st
  ∧ messages (process_loop c st) = messages st.
Proof.
  intros Hrun. rewrite process_loop_stop by (by rewrite Hrun).
  unfold process_exit. by destruct (10 <=? c).
Qed.

Lemma process_stopped st :
  running st = false →
  trace (process st) = trace st ∧ running (process st) = false
  ∧ heap (process st) = heap st ∧ queue (process st) = queue st
  ∧ messages (process st) = messages st.
Proof.
  intros Hrun. unfold process. destruct (_processing st); [done|].
  apply (process_loop_stopped 0 (set__processing true st)). done.
Qed.

Lemma resume_stopped st :
  running st = false →
  trace (resume st) = trace st ∧ running (resume st) = false
  ∧ heap (resume st) = heap st ∧ queue (resume st) = queue st
  ∧ messages (resume st) = messages st.
Proof.
  intros Hrun. destruct (frame st) as [f|] eqn:Hf.
  - destruct (resume_unfold st f Hf) as [es ->].
    apply (process_loop_stopped (count f) (write_logs es st)). done.
  - unfold resume. by rewrite Hf.
Qed.

Lemma resume_stopped_frame st :
  running st = false → frame (resume st) = None.
Proof.
  intros Hrun. destruct (frame st) as [f|] eqn:Hf.
  - destruct (resume_unfold st f Hf) as [es ->].
    rewrite process_loop_stop by (fields; by rewrite Hrun).
    unfold process_exit. by destruct (10 <=? count f).
  - unfold resume. by rewrite Hf.
Qed.

Lemma stored_fields dq t p o st :
  trace (stored dq t p o st) = trace st
  ∧ running (stored dq t p o st) = running st
  ∧ registered (stored dq t p o st) = registered st
  ∧ _processing (stored dq t p o st) = _processing st
  ∧ frame (stored dq t p o st) = frame st
  ∧ outcomes (stored dq t p o st) = outcomes st
  ∧ log (stored dq t p o st) = log st
  ∧ is_Some (messages (stored dq t p o st) !! t).
Proof.
  unfold stored. destruct (messages st !! t) eqn:Ht; fields; split_and!; try done.
  by rewrite lookup_insert_eq.
Qed.

Lemma step_stopped dq st op :
  running st = false → op ≠ OpStart →
  trace (step dq st op) = trace st ∧ running (step dq st op) = false.
Proof.
  intros Hrun Hop. destruct op; cbn [step]; try done.
  - rewrite add_unfold. destruct (isRegistered st && truthy topic); [|done].
    destruct (stored_fields dq topic payload (default no_options opt) st)
      as (H1 & H2 & _).
    case_bool_decide; [by rewrite H1, H2|].
    destruct (process_stopped (stored dq topic payload (default no_options opt) st))
      as (H3 & H4 & _); [by rewrite H2|].
    by rewrite H3, H4.
  - by destruct (process_stopped st Hrun) as (? & ? & _).
  - by destruct (resume_stopped st Hrun) as (? & ? & _).
Qed.

Lemma run_stopped dq ops : ∀ st,
  running st = false → Forall (λ op, op ≠ OpStart) ops →
  trace (run dq ops st) = trace st ∧ running (run dq ops st) = false.
Proof.
  induction ops as [|op ops IH]; intros st Hrun Hops; [done|].
  apply Forall_cons in Hops as [Hop Hops]. rewrite run_cons.
  destruct (step_stopped dq st op Hrun Hop) as [H1 H2].
  destruct (IH _ H2 Hops) as [H3 H4]. by rewrite H3, H4.
Qed.

Lemma published_since_trans st1 st2 st3 :
  extends st1 st2 → extends st2 st3 →
  published_since st1 st3 = published_since st1 st2 ++ published_since st2 st3.
Proof.
  intros [e1 H1] [e2 H2].
  rewrite (published_since_app st1 st3 (e1 ++ e2)) by (by rewrite H2, H1, app_assoc).
  rewrite (published_since_app _ _ _ H1), (published_since_app _ _ _ H2).
  apply published_app.
Qed.

(** A drain that is under way or is started now, left to run. *)
Lemma process_runs_out st :
  wf st → running st = true → registered st = true →
  ∃ st', settle (S (length (queue st))) (process st) = Some st'
    ∧ _processing st' = false ∧ frame st' = None
    ∧ running st' = true ∧ registered st' = true
    ∧ extends st st'
    ∧ published_since st st'
      = ((λ l, heap st !!! l) <$> drained (heap st) (messages st) (queue st))
    ∧ length (published_since st st') = size (messages st)
    ∧ NoDup (mqttTopic <$> published_since st st')
    ∧ (∀ t, t ∈ mqttTopic <$> published_since st st' ↔ is_Some (messages st !! t))
    ∧ queue st' = [] ∧ messages st' = ∅.
Proof.
  intros Hwf Hrun Hreg. destruct (_processing st) eqn:Hp.
  - unfold process. rewrite Hp.
    destruct Hwf as [Hrefs Hfr]. destruct (proj1 Hfr Hp) as [f Hf].
    destruct (settle_resume (length (queue st)) st f Hf) as [es ->].
    destruct (process_loop_settles (length (queue st)) (count f) (write_logs es st))
      as (st' & Hst' & HD); [done..|].
    exists st'. split; [done|].
    destruct (drain_publishes (write_logs es st) st') as (H1 & H2 & H3 & H4 & H5 & H6);
      [by apply (wf_ext st)|done|].
    destruct HD as [_ _ _ D4 D5 _ D7 D8 D9 _]. fields.
    split_and!; try done; try congruence. by eexists.
  - destruct (process_settles st Hp Hrun Hreg) as (st' & Hst' & HD).
    exists st'. split; [done|].
    destruct (drain_publishes st st' Hwf HD) as (H1 & H2 & H3 & H4 & H5 & H6).
    destruct HD as [_ _ _ D4 D5 _ D7 D8 D9 _].
    split_and!; try done; try congruence. by eexists.
Qed.

(** X3. After [stop()], and equally after [destroy()], nothing is handed
    to [publish] until [start()] is called, whatever else is done: not by
    [add], not by [process], and not by a drain that was suspended when
    [stop] was called; that drain ends at its next turn and leaves the
    pending order and the live set as they are. A message added while the
    queue is stopped is in the live set afterwards. *)
Theorem stop_pauses dq ops st :
  Forall (λ op, op ≠ OpStart) ops →
  published_since st (run dq ops (stop st)) = []
  ∧ published_since st (run dq ops (destroy st)) = []
  ∧ running (run dq ops (stop st)) = false
  ∧ (frame (resume (stop st)) = None
     ∧ queue (resume (stop st)) = queue st
     ∧ messages (resume (stop st)) = messages st)
  ∧ ∀ t p o pr,
      registered st = true → truthy t = true →
      is_Some (get t (add dq t p o pr (stop st))).
Proof.
  intros Hops.
  destruct (run_stopped dq ops (stop st)) as [H1 H2]; [done..|].
  destruct (run_stopped dq ops (destroy st)) as [H3 H4]; [done..|].
  split_and!; [| |done| | | |].
  - erewrite published_since_app; [|rewrite H1; cbn; symmetry; apply app_nil_r]. done.
  - erewrite published_since_app; [|rewrite H3; cbn; symmetry; apply app_nil_r]. done.
  - by apply resume_stopped_frame.
  - by destruct (resume_stopped (stop st)) as (_ & _ & _ & ? & _).
  - by destruct (resume_stopped (stop st)) as (_ & _ & _ & _ & ?).
  - intros t p o pr Hreg Ht. rewrite add_unfold. unfold isRegistered. cbn [registered stop set_running].
    rewrite Hreg, Ht. cbn [andb]. unfold get.
    destruct (stored_fields dq t p (default no_options o) (stop st))
      as (_ & Hr & _ & _ & _ & _ & _ & Hlive).
    case_bool_decide; [done|].
    destruct (process_stopped (stored dq t p (default no_options o) (stop st)))
      as (_ & _ & _ & _ & ->); [by rewrite Hr|]. done.
Qed.

Lemma stop_pauses_witness :
  let st := add 0 "a" "1" None None (constructor registered_client) in
  published_since st
    (run 0 [OpAdd "b" "2" None None; OpResume; OpProcess] (stop st)) = [].
Proof.
  destruct (stop_pauses 0 [OpAdd "b" "2" None None; OpResume; OpProcess]
              (add 0 "a" "1" None None (constructor registered_client)))
    as (H & _); [|exact H].
  repeat constructor; discriminate.
Defined.

(** X4. [start()] on a consistent queue with a registered client, whether
    it was stopped or not and whether a drain is suspended or not: left to
    run, the drain ends, with [_processing] clear and [running] set; every
    topic of the live set has been handed to [publish] exactly once; and
    the queue is empty. *)
Theorem start_resumes st :
  wf st → registered st = true →
  ∃ st', settle (S (length (queue st))) (start st) = Some st'
    ∧ _processing st' = false ∧ frame st' = None ∧ running st' = true
    ∧ length (published_since st st') = size (messages st)
    ∧ NoDup (mqttTopic <$> published_since st st')
    ∧ (∀ t, t ∈ mqttTopic <$> published_since st st' ↔ is_Some (messages st !! t))
    ∧ queue st' = [] ∧ messages st' = ∅.
Proof.
  intros Hwf Hreg.
  destruct (process_runs_out (set_running true st))
    as (st' & Hst' & H1 & H2 & H3 & H4 & _ & H5 & H6 & H7 & H8 & H9 & H10);
    [by apply (wf_ext st)|done|done|].
  exists st'. split; [exact Hst'|]. by split_and!.
Qed.

Lemma start_resumes_witness :
  let st := add 0 "b" "2" None None
              (stop (add 0 "a" "1" None None (constructor registered_client))) in
  ∃ st', settle (S (length (queue st))) (start st) = Some st'
    ∧ _processing st' = false ∧ frame st' = None ∧ running st' = true.
Proof.
  destruct (start_resumes
              (add 0 "b" "2" None None
                 (stop (add 0 "a" "1" None None (constructor registered_client)))))
    as (st' & H1 & H2 & H3 & H4 & _).
  - apply wf_add. apply (wf_step 0 _ OpStop). apply wf_add, wf_constructor.
  - reflexivity.
  - exists st'. by split_and!.
Defined.

(** **** A client that is not registered, and a queue that is cleared *)

Lemma process_loop_unregistered c st :
  registered st = false →
  trace (process_loop c st) = trace st ∧ registered (process_loop c st) = false.
Proof.
  intros Hreg. rewrite process_loop_stop.
  - unfold process_exit. by destruct (10 <=? c).
  - unfold isRegistered. by rewrite Hreg, andb_false_r.
Qed.

Lemma step_unregistered dq st op :
  registered st = false → op ≠ OpRegistered →
  trace (step dq st op) = trace st ∧ registered (step dq st op) = false.
Proof.
  intros Hreg Hop. destruct op; cbn [step]; try done.
  - rewrite add_unfold. unfold isRegistered. by rewrite Hreg.
  - unfold process. destruct (_processing st); [done|].
    by apply (process_loop_unregistered 0 (set__processing true st)).
  - unfold start, process. fields. destruct (_processing st); [done|].
    by apply (process_loop_unregistered 0 (set__processing true (set_running true st))).
  - destruct (frame st) as [f|] eqn:Hf.
    + destruct (resume_unfold st f Hf) as [es ->].
      by apply (process_loop_unregistered (count f) (write_logs es st)).
    + unfold resume. by rewrite Hf.
Qed.

Lemma run_unregistered dq ops : ∀ st,
  registered st = false → Forall (λ op, op ≠ OpRegistered) ops →
  trace (run dq ops st) = trace st ∧ registered (run dq ops st) = false.
Proof.
  induction ops as [|op ops IH]; intros st Hreg Hops; [done|].
  apply Forall_cons in Hops as [Hop Hops]. rewrite run_cons.
  destruct (step_unregistered dq st op Hreg Hop) as [H1 H2].
  destruct (IH _ H2 Hops) as [H3 H4]. by rewrite H3, H4.
Qed.

Lemma run_adds_unregistered dq ops : ∀ st,
  registered st = false → Forall (λ op, is_add op = true) ops →
  run dq ops st = st.
Proof.
  induction ops as [|op ops IH]; intros st Hreg Hops; [done|].
  apply Forall_cons in Hops as [Hop Hops]. rewrite run_cons.
  destruct op; try done. cbn [step]. rewrite add_unfold. unfold isRegistered.
  rewrite Hreg. cbn [andb]. by apply IH.
Qed.

(** X5. While the client is not registered, calls of [add] change nothing
    at all: the messages are dropped, not kept for later. And nothing is
    handed to [publish], whatever is done, until the client registers
    again. *)
Theorem unregistered_client dq st :
  registered st = false →
  (∀ ops, Forall (λ op, is_add op = true) ops → run dq ops st = st)
  ∧ (∀ ops, Forall (λ op, op ≠ OpRegistered) ops →
       published_since st (run dq ops st) = []
       ∧ registered (run dq ops st) = false).
Proof.
  intros Hreg. split.
  - intros ops Hops. by apply run_adds_unregistered.
  - intros ops Hops. destruct (run_unregistered dq ops st Hreg Hops) as [H1 H2].
    split; [|done].
    erewrite published_since_app; [|rewrite H1; symmetry; apply app_nil_r]. done.
Qed.

Lemma unregistered_client_witness :
  let st := onUnRegistered (constructor registered_client) in
  run 0 [OpAdd "a" "1" None None; OpAdd "b" "2" None (Some false)] st = st.
Proof.
  destruct (unregistered_client 0 (onUnRegistered (constructor registered_client)))
    as (H & _); [reflexivity|].
  apply H. repeat constructor.
Defined.

(** X6. What is pending when [clear()], [destroy()] or the client's
    unregistered notification empties the queue is not published later: of
    a topic that is not added again, nothing is handed to [publish]
    afterwards, whatever is done, also when a drain was suspended at that
    time. *)
Theorem clear_discards_pending dq t ops st :
  Forall (λ op, ¬ adds_topic t op) ops →
  filter (λ m, mqttTopic m = t) (published_since st (run dq ops (clear st))) = []
  ∧ filter (λ m, mqttTopic m = t) (published_since st (run dq ops (destroy st))) = []
  ∧ filter (λ m, mqttTopic m = t)
      (published_since st (run dq ops (onUnRegistered st))) = [].
Proof.
  intros Hops. split_and!.
  - apply (quiet_published t (clear st)). by apply run_dead.
  - apply (quiet_published t (destroy st)). by apply run_dead.
  - apply (quiet_published t (onUnRegistered st)). by apply run_dead.
Qed.

Lemma clear_discards_pending_witness :
  let st := add 0 "x" "v" None (Some false) (constructor registered_client) in
  filter (λ m, mqttTopic m = "x")
    (published_since st (run 0 [OpAdd "y" "w" None None; OpResume; OpResume] (clear st)))
  = [].
Proof.
  destruct (clear_discards_pending 0 "x" [OpAdd "y" "w" None None; OpResume; OpResume]
              (add 0 "x" "v" None (Some false) (constructor registered_client)))
    as (H & _); [|exact H].
  repeat constructor; cbn; try tauto. discriminate.
Defined.

(** **** [add] on an empty queue, and during a drain *)

Lemma add_pending dq t p o pr st :
  _processing st = true → registered st = true → truthy t = true →
  add dq t p o pr st = stored dq t p (default no_options o) st.
Proof.
  intros Hp Hreg Ht. rewrite add_unfold. unfold isRegistered.
  rewrite Hreg, Ht. cbn [andb]. case_bool_decide; [done|].
  unfold process.
  destruct (stored_fields dq t p (default no_options o) st) as (_ & _ & _ & -> & _).
  by rewrite Hp.
Qed.

Lemma add_processing dq t p o pr st :
  _processing st = true →
  add dq t p o pr st = add dq t p o (Some false) st.
Proof.
  intros Hp. rewrite !add_unfold.
  destruct (isRegistered st && truthy t); [|done].
  rewrite (bool_decide_true (Some false = Some false)) by done.
  case_bool_decide; [done|].
  unfold process.
  destruct (stored_fields dq t p (default no_options o) st) as (_ & _ & _ & -> & _).
  by rewrite Hp.
Qed.

(** X7. On an idle, running, empty queue with a registered client, [add]
    with [process] left to its default hands the new message to [publish]
    before it returns, and the topic is not in the live set afterwards. A
    second [add] made before the drain is resumed, for the same topic or
    another, is therefore not merged with the first: it is queued as a
    Message of its own, nothing is published by that call, and the drain
    publishes it after the first. *)
Theorem add_publishes_at_once dq t p o t2 p2 o2 st :
  wf st → registered st = true → running st = true → _processing st = false →
  queue st = [] → truthy t = true → truthy t2 = true →
  let m := Message_new dq t p (opt_qos (default no_options o))
             (opt_retain (default no_options o)) in
  let m2 := Message_new dq t2 p2 (opt_qos (default no_options o2))
              (opt_retain (default no_options o2)) in
  let st1 := add dq t p o None st in
  let st2 := add dq t2 p2 o2 None st1 in
  published_since st st1 = [m]
  ∧ get t st1 = None ∧ queue st1 = [] ∧ _processing st1 = true
  ∧ published_since st st2 = [m]
  ∧ (∃ l, get t2 st2 = Some l ∧ heap st2 !! l = Some m2 ∧ queue st2 = [l])
  ∧ ∃ st3, settled st2 = Some st3 ∧ published_since st st3 = [m; m2].
Proof.
  intros Hwf Hreg Hrun Hp Hq Ht Ht2. cbv zeta.
  set (m := Message_new dq t p _ _). set (m2 := Message_new dq t2 p2 _ _).
  assert (messages st = ∅) as Hms.
  { apply map_empty. intros t'. apply eq_None_not_Some. intros [l Hl].
    destruct Hwf as [Hrefs _]. destruct (wf_live _ Hrefs _ _ Hl) as [Hin _].
    rewrite Hq in Hin. by apply elem_of_nil in Hin. }
  assert ((heap st ++ [m]) !!! length (heap st) = m) as Hm
    by (by rewrite list_lookup_total_middle).
  assert (add dq t p o None st
          = set_frame (Some (mkFrame 1
                     match hd Resolves (outcomes st) with
                     | Resolves => AwaitPublish Fulfilled
                     | Rejects => AwaitPublish Rejected
                     | Throws => AwaitSend
                     end))
                  (write_logs match hd Resolves (outcomes st) with
                              | Throws => failure_log Throws
                              | _ => []
                              end
                     (set_outcomes (drop 1)
                        (emit (Publish m)
                           (set__processing true
                              (set_heap (λ h, h ++ [m]) st)))))) as Hst1.
  { rewrite add_unfold. unfold isRegistered. rewrite Hreg, Ht. cbn [andb].
    rewrite bool_decide_false by done. unfold stored. rewrite Hms, lookup_empty.
    fold m. unfold process. fields. rewrite Hp. unfold process_loop, isRegistered.
    fields. rewrite Hrun, Hreg, Hq. cbn [app length Nat.ltb Nat.leb andb].
    unfold next_call, _getNextMessage. fields. rewrite Hq.
    cbn [app _getNextMessage_from]. unfold topic_of. rewrite Hm.
    change (mqttTopic m) with t. rewrite lookup_insert_eq.
    rewrite bool_decide_true by eauto. cbn [fst snd].
    unfold send_call, publish. fields. rewrite Hm.
    destruct (hd Resolves (outcomes st)); cbn [fst snd]; state_eq; try done;
      rewrite ?app_nil_r, ?delete_insert_eq, ?Hms, ?delete_empty; try done.
    by rewrite <- app_assoc. }
  rewrite Hst1. set (st1 := set_frame _ _) in *.
  assert (wf st1) as Hwf1 by (rewrite <- Hst1; by apply wf_add).
  assert (published_since st st1 = [m]) as Hpub1.
  { erewrite published_since_app; [|unfold st1; fields; reflexivity]. done. }
  assert (add dq t2 p2 o2 None st1
          = set_queue (λ _, [S (length (heap st))])
              (set_messages (λ _, {[t2 := S (length (heap st))]})
                 (set_heap (λ h, h ++ [m2]) st1))) as Hst2.
  { rewrite add_pending by done. unfold stored.
    assert (messages st1 = ∅) as -> by (unfold st1; fields; done).
    rewrite lookup_empty.
    assert (length (heap st1) = S (length (heap st))) as ->.
    { unfold st1. fields. rewrite length_app. cbn. lia. }
    fold m2. state_eq; try done.
    - unfold st1. fields. by rewrite Hq.
    - unfold st1. fields. by rewrite Hms. }
  rewrite Hst2. set (st2 := set_queue _ _) in *.
  assert (wf st2) as Hwf2 by (rewrite <- Hst2; by apply wf_add).
  assert (published_since st st2 = [m]) as Hpub2.
  { erewrite published_since_app; [|unfold st2, st1; fields; reflexivity]. done. }
  assert (heap st2 !! S (length (heap st)) = Some m2) as Hm2.
  { unfold st2, st1. fields. apply list_lookup_middle. rewrite length_app. cbn. lia. }
  split_and!; [done|unfold get, st1; fields; by rewrite Hms
              |unfold st1; fields; done|done|done| |].
  - exists (S (length (heap st))). split_and!; [|done|done].
    unfold get, st2. fields. by rewrite lookup_singleton_eq.
  - destruct (process_runs_out st2 Hwf2)
      as (st3 & Hst3 & _ & _ & _ & _ & Hext & Hpub3 & _); [done..|].
    exists st3. split; [exact Hst3|].
    rewrite (published_since_trans st st2 st3); [| |done].
    2:{ exists [Publish m]. unfold st2, st1. fields. done. }
    rewrite Hpub2, Hpub3. f_equal.
    change (queue st2) with [S (length (heap st))].
    change (messages st2) with ({[t2 := S (length (heap st))]} : gmap string loc).
    cbn [drained].
    unfold topic_of. rewrite (list_lookup_total_correct _ _ _ Hm2).
    change (mqttTopic m2) with t2. rewrite lookup_singleton_eq.
    rewrite bool_decide_true by eauto. cbn.
    by rewrite (list_lookup_total_correct _ _ _ Hm2).
Qed.

Lemma add_publishes_at_once_witness :
  let st := constructor registered_client in
  published_since st (add 0 "x" "1" None None st) = [Message_new 0 "x" "1" None None]
  ∧ get "x" (add 0 "x" "1" None None st) = None.
Proof.
  destruct (add_publishes_at_once 0 "x" "1" None "x" "2" None
              (constructor registered_client)) as (H1 & H2 & _);
    [apply wf_constructor|reflexivity..|].
  split; [exact H1|exact H2].
Defined.

(** X8. While a drain is in progress, [add] only stores: the [process]
    argument makes no difference and nothing is published by the call. The
    topic is in the live set afterwards; and the drain in progress, resumed
    and left to run, publishes every topic that is then in the live set,
    the added one included, each once, and leaves the queue empty. *)
Theorem add_during_drain dq t p o pr st :
  wf st → _processing st = true → running st = true → registered st = true →
  truthy t = true →
  let st1 := add dq t p o pr st in
  st1 = add dq t p o (Some false) st
  ∧ published_since st st1 = []
  ∧ is_Some (get t st1)
  ∧ ∃ st', settled st1 = Some st'
      ∧ (∀ t', t' ∈ mqttTopic <$> published_since st st'
               ↔ t' = t ∨ is_Some (get t' st))
      ∧ NoDup (mqttTopic <$> published_since st st')
      ∧ queue st' = [] ∧ messages st' = ∅ ∧ _processing st' = false.
Proof.
  intros Hwf Hp Hrun Hreg Ht st1.
  assert (st1 = stored dq t p (default no_options o) st) as Hst1.
  { unfold st1. rewrite add_processing by done. rewrite add_unfold.
    unfold isRegistered. rewrite Hreg, Ht. cbn [andb].
    by rewrite bool_decide_true. }
  destruct (stored_fields dq t p (default no_options o) st)
    as (F1 & F2 & F3 & F4 & F5 & F6 & F7 & F8).
  split_and!.
  - unfold st1. by apply add_processing.
  - rewrite Hst1. erewrite published_since_app; [|rewrite F1; symmetry; apply app_nil_r].
    done.
  - by rewrite Hst1.
  - assert (wf st1) as Hwf1 by (unfold st1; by apply wf_add).
    destruct (process_runs_out st1 Hwf1)
      as (st' & Hst' & H1 & H2 & H3 & H4 & _ & H5 & H6 & H7 & H8 & H9 & H10).
    { rewrite Hst1. by rewrite F2. }
    { rewrite Hst1. by rewrite F3. }
    exists st'. unfold settled.
    assert (process st1 = st1) as Hpr.
    { unfold process. by rewrite Hst1, F4, Hp. }
    rewrite Hpr in Hst'.
    assert (published_since st st' = published_since st1 st') as Hsince.
    { unfold published_since. by rewrite Hst1, F1. }
    rewrite Hsince. split_and!; try done.
    intros t'. rewrite H8. rewrite Hst1. unfold get, stored.
    destruct (messages st !! t) as [l|] eqn:Hl; fields.
    + split; [by right|]. intros [->|?]; [eauto|done].
    + rewrite lookup_insert_is_Some. split.
      * intros [->|[? ?]]; [by left|by right].
      * intros [->|Hs]; [by left|]. destruct (decide (t = t')) as [->|?]; [by left|by right].
Qed.

Lemma add_during_drain_witness :
  let st := add 0 "a" "1" None None (constructor registered_client) in
  add 0 "b" "2" None None st = add 0 "b" "2" None (Some false) st
  ∧ published_since st (add 0 "b" "2" None None st) = [].
Proof.
  destruct (add_during_drain 0 "b" "2" None None
              (add 0 "a" "1" None None (constructor registered_client)))
    as (H1 & H2 & _);
    [apply wf_add, wf_constructor|reflexivity..|].
  split; [exact H1|exact H2].
Defined.

(** **** Which entry of a topic a drain publishes *)

Lemma drained_dead h t q : ∀ ms,
  ms !! t = None → filter (λ l, topic_of h l = t) (drained h ms q) = [].
Proof.
  intros ms Hdead. apply filter_none. rewrite Forall_forall. intros l Hl Ht.
  apply drained_live in Hl as [_ [v Hv]]. congruence.
Qed.

Lemma drained_first h t q : ∀ ms l rest,
  is_Some (ms !! t) →
  filter (λ l, topic_of h l = t) q = l :: rest →
  filter (λ l, topic_of h l = t) (drained h ms q) = [l].
Proof.
  induction q as [|x q IH]; intros ms l rest Hlive Hq; [done|].
  rewrite filter_cons in Hq. cbn [drained]. case_decide as Hx.
  - injection Hq as -> _. rewrite Hx, bool_decide_true by done.
    rewrite filter_cons, decide_True by done. f_equal.
    apply drained_dead. by rewrite lookup_delete_eq.
  - case_bool_decide.
    + rewrite filter_cons, decide_False by done.
      eapply IH; [|done]. destruct Hlive as [v Hv]. exists v.
      by rewrite lookup_delete_ne.
    + by eapply IH.
Qed.

Lemma filter_topic_fmap h t (ls : list loc) :
  filter (λ m, mqttTopic m = t) ((λ l, h !!! l) <$> ls)
  = (λ l, h !!! l) <$> filter (λ l, topic_of h l = t) ls.
Proof.
  induction ls as [|l ls IH]; [done|].
  rewrite fmap_cons, !filter_cons, IH. unfold topic_of.
  by destruct (decide (mqttTopic (h !!! l) = t)).
Qed.

Lemma list_filter_ext_in {A} (P Q : A → Prop) `{!∀ x, Decision (P x)}
    `{!∀ x, Decision (Q x)} (l : list A) :
  (∀ x, x ∈ l → P x ↔ Q x) → filter P l = filter Q l.
Proof.
  induction l as [|x l IH]; intros Hl; [done|].
  rewrite !filter_cons. rewrite IH by (intros y Hy; apply Hl; by right).
  destruct (decide (P x)) as [HP|HP], (decide (Q x)) as [HQ|HQ]; try done.
  - destruct HQ. apply Hl; [by left|done].
  - destruct HP. apply Hl; [by left|done].
Qed.

(** X9. Of the pending entries that bear a topic, a drain publishes the
    oldest, and no other. So when an entry for the topic is pending and the
    topic is removed and then added again with another payload, the drain
    publishes for that topic the Message that was pending before the
    [remove], not the one added last. *)
Theorem drain_publishes_oldest_entry dq t p o l rest st :
  wf st → running st = true → registered st = true → _processing st = false →
  truthy t = true →
  entries_for t st = l :: rest →
  let st1 := add dq t p o (Some false) (remove t st) in
  (is_Some (get t st) →
   ∃ st', drain st = Some st'
     ∧ filter (λ m, mqttTopic m = t) (published_since st st') = [heap st !!! l])
  ∧ ∃ st', drain st1 = Some st'
      ∧ filter (λ m, mqttTopic m = t) (published_since st st') = [heap st !!! l].
Proof.
  intros Hwf Hrun Hreg Hp Ht Hent st1. split.
  - intros Hlive.
    destruct (process_settles st Hp Hrun Hreg) as (st' & Hst' & HD).
    exists st'. split; [done|].
    destruct HD as [_ _ _ _ _ _ _ _ Htr _].
    rewrite (published_since_app _ _ _ Htr), published_fmap, filter_topic_fmap.
    by rewrite (drained_first _ _ _ _ l rest).
  - assert (st1 = set_queue (λ q, q ++ [length (heap st)])
                    (set_messages (λ ms, <[t := length (heap st)]> (delete t ms))
                       (set_heap (λ h, h ++ [Message_new dq t p
                                    (opt_qos (default no_options o))
                                    (opt_retain (default no_options o))]) st)))
      as Hst1.
    { unfold st1. rewrite add_unfold. unfold isRegistered. cbn [registered remove set_messages].
      rewrite Hreg, Ht. cbn [andb]. rewrite bool_decide_true by done.
      unfold stored. cbn [messages remove set_messages]. rewrite lookup_delete_eq.
      by state_eq. }
    clearbody st1. subst st1.
    set (m := Message_new dq t p _ _).
    set (st1 := set_queue _ _).
    destruct (process_settles st1) as (st' & Hst' & HD); [done..|].
    exists st'. split; [done|].
    destruct HD as [_ _ _ _ _ _ _ _ Htr _].
    rewrite (published_since_app st st' _ Htr).
    rewrite published_fmap, filter_topic_fmap.
    destruct Hwf as [Hrefs _].
    assert (l ∈ queue st) as Hl.
    { assert (l ∈ entries_for t st) as Hin by (rewrite Hent; by left).
      by apply list_elem_of_filter in Hin as [_ ?]. }
    assert (∀ x, x ∈ queue st → topic_of (heap st1) x = topic_of (heap st) x) as Htopic.
    { intros x Hx. unfold st1. fields. unfold topic_of.
      rewrite lookup_total_app_l; [done|]. by apply (wf_bound _ Hrefs). }
    rewrite (drained_first _ _ _ _ l (rest ++ [length (heap st)])).
    + cbn. f_equal. unfold st1. fields.
      rewrite lookup_total_app_l; [done|]. by apply (wf_bound _ Hrefs).
    + unfold st1. fields. rewrite lookup_insert_eq. eauto.
    + change (queue st1) with (queue st ++ [length (heap st)]).
      rewrite filter_app.
      change (l :: rest ++ [length (heap st)])
        with ((l :: rest) ++ [length (heap st)]).
      f_equal.
      * rewrite <- Hent. unfold entries_for.
        apply list_filter_ext_in. intros x Hx. by rewrite Htopic.
      * rewrite filter_cons, decide_True; [done|].
        unfold st1. fields. unfold topic_of. by rewrite list_lookup_total_middle.
Qed.

Lemma drain_publishes_oldest_entry_witness :
  let st := add 0 "x" "old" None (Some false) (constructor registered_client) in
  ∃ st', drain (add 0 "x" "new" None (Some false) (remove "x" st)) = Some st'
    ∧ filter (λ m, mqttTopic m = "x") (published_since st st') = [heap st !!! 0].
Proof.
  destruct (drain_publishes_oldest_entry 0 "x" "new" None 0 []
              (add 0 "x" "old" None (Some false) (constructor registered_client)))
    as (_ & H); [apply wf_add, wf_constructor|reflexivity..|exact H].
Defined.

(** **** Counting: publishes and calls of [add] *)

Lemma loop_step_count c st st' :
  loop_step c st st' →
  heap st' = heap st
  ∧ ∃ evs, trace st' = trace st ++ evs
      ∧ length (published evs) + size (messages st') = size (messages st)
      ∧ ∀ m, m ∈ published evs → ∃ l, l ∈ queue st ∧ m = heap st !!! l.
Proof.
  intros [Hc|sk msg q' a es Hrun Hreg Hq Hsk Hlive|Hrun Hreg Hsk].
  - unfold process_exit. destruct (10 <=? c); fields; (split; [done|]);
      exists []; rewrite app_nil_r; (split_and!; [done|done|]);
      by intros m ?%elem_of_nil.
  - fields. split; [done|]. eexists [_]. split_and!; [done| |].
    + rewrite (map_size_delete_Some _ _ Hlive). cbn.
      destruct Hlive as [v Hv].
      assert (size (messages st) ≠ 0); [|lia].
      apply map_size_non_empty_iff. intros Hm. by rewrite Hm, lookup_empty in Hv.
    + intros m Hm. cbn in Hm. apply list_elem_of_singleton in Hm as ->.
      exists msg. split; [|done]. rewrite Hq. apply elem_of_app. right. by left.
  - fields. split; [done|]. exists []. rewrite app_nil_r.
    split_and!; [done|done|]. by intros m ?%elem_of_nil.
Qed.

Lemma process_count st :
  heap (process st) = heap st
  ∧ ∃ evs, trace (process st) = trace st ++ evs
      ∧ length (published evs) + size (messages (process st)) = size (messages st)
      ∧ ∀ m, m ∈ published evs → ∃ l, l ∈ queue st ∧ m = heap st !!! l.
Proof.
  unfold process. destruct (_processing st).
  - split; [done|]. exists []. rewrite app_nil_r. split_and!; [done|done|].
    by intros m ?%elem_of_nil.
  - apply (loop_step_count 0 (set__processing true st) _ (process_loop_step _ _)).
Qed.

Lemma resume_count st :
  heap (resume st) = heap st
  ∧ ∃ evs, trace (resume st) = trace st ++ evs
      ∧ length (published evs) + size (messages (resume st)) = size (messages st)
      ∧ ∀ m, m ∈ published evs → ∃ l, l ∈ queue st ∧ m = heap st !!! l.
Proof.
  destruct (frame st) as [f|] eqn:Hf.
  - destruct (resume_step st f Hf) as [es Hstep].
    apply (loop_step_count (count f) (write_logs es st) _ Hstep).
  - unfold resume. rewrite Hf. split; [done|]. exists []. rewrite app_nil_r.
    split_and!; [done|done|]. by intros m ?%elem_of_nil.
Qed.

Lemma stored_size dq t p o st :
  size (messages (stored dq t p o st)) ≤ S (size (messages st)).
Proof.
  unfold stored. destruct (messages st !! t) eqn:Ht; fields; [lia|].
  by rewrite map_size_insert_None.
Qed.

Lemma delete_size (ms : gmap string loc) t : size (delete t ms) ≤ size ms.
Proof. rewrite map_size_delete. destruct (ms !! t); cbn; lia. Qed.

Lemma step_count dq st op :
  ∃ evs, trace (step dq st op) = trace st ++ evs
    ∧ length (published evs) + size (messages (step dq st op))
      ≤ size (messages st) + (if is_add op then 1 else 0).
Proof.
  destruct op; cbn [step is_add].
  - rewrite add_unfold. destruct (isRegistered st && truthy topic).
    2:{ exists []. rewrite app_nil_r. split; [done|]. cbn. lia. }
    pose proof (stored_size dq topic payload (default no_options opt) st) as Hsz.
    destruct (stored_fields dq topic payload (default no_options opt) st) as (Htr & _).
    case_bool_decide.
    + exists []. rewrite app_nil_r. split; [done|]. cbn. lia.
    + destruct (process_count (stored dq topic payload (default no_options opt) st))
        as (_ & evs & H1 & H2 & _).
      exists evs. rewrite H1, Htr. split; [done|]. lia.
  - exists []. rewrite app_nil_r. split; [done|]. cbn. lia.
  - exists []. rewrite app_nil_r. split; [done|]. cbn.
    pose proof (delete_size (messages st) topic). lia.
  - destruct (process_count st) as (_ & evs & H1 & H2 & _). exists evs.
    split; [done|]. lia.
  - destruct (process_count (set_running true st)) as (_ & evs & H1 & H2 & _).
    exists evs. split; [done|]. unfold start. fields. lia.
  - exists []. rewrite app_nil_r. split; [done|]. cbn. lia.
  - exists []. rewrite app_nil_r. split; [done|]. cbn. rewrite map_size_empty. lia.
  - exists []. rewrite app_nil_r. split; [done|]. cbn. rewrite map_size_empty. lia.
  - destruct (resume_count st) as (_ & evs & H1 & H2 & _). exists evs.
    split; [done|]. lia.
  - exists []. rewrite app_nil_r. split; [done|]. cbn. lia.
  - exists []. rewrite app_nil_r. split; [done|]. cbn. rewrite map_size_empty. lia.
Qed.

Lemma run_count dq ops : ∀ st,
  ∃ evs, trace (run dq ops st) = trace st ++ evs
    ∧ length (published evs) + size (messages (run dq ops st))
      ≤ size (messages st) + length (filter (λ op, is_add op = true) ops).
Proof.
  induction ops as [|op ops IH]; intros st.
  - exists []. rewrite app_nil_r. split; [done|]. cbn. lia.
  - rewrite run_cons. destruct (step_count dq st op) as (e1 & H1 & L1).
    destruct (IH (step dq st op)) as (e2 & H2 & L2).
    exists (e1 ++ e2). rewrite H2, H1, app_assoc. split; [done|].
    rewrite published_app, length_app, filter_cons.
    destruct (is_add op); [rewrite decide_True by done|rewrite decide_False by done];
      cbn [length]; lia.
Qed.

(** X10. The queue does not publish more often than [add] is called: over
    any sequence of operations, the number of messages handed to [publish]
    plus the number of topics left in the live set is at most the number of
    topics in the live set at the start plus the number of calls of
    [add]. *)
Theorem at_most_one_publish_per_add dq ops st :
  length (published_since st (run dq ops st)) + size (messages (run dq ops st))
  ≤ size (messages st) + length (filter (λ op, is_add op = true) ops).
Proof.
  destruct (run_count dq ops st) as (evs & Htr & Hle).
  by rewrite (published_since_app _ _ _ Htr).
Qed.

(** **** Where a published message comes from *)

Lemma from_add_app dq ops ops' m :
  from_add dq ops m → from_add dq (ops ++ ops') m.
Proof.
  intros (p & o & pr & Hin & H). exists p, o, pr. split; [|done].
  apply elem_of_app. by left.
Qed.

Lemma stored_from_add dq done t p o pr st :
  wf_refs st → Forall (from_add dq done) (heap st) →
  Forall (from_add dq (done ++ [OpAdd t p o pr]))
    (heap (stored dq t p (default no_options o) st)).
Proof.
  intros Hrefs Hheap.
  assert (Forall (from_add dq (done ++ [OpAdd t p o pr])) (heap st)) as Hheap'.
  { eapply Forall_impl; [exact Hheap|]. intros m. apply from_add_app. }
  unfold stored. destruct (messages st !! t) as [l|] eqn:Hl; fields.
  - destruct (wf_live _ Hrefs _ _ Hl) as [Hin Htop].
    pose proof (wf_bound _ Hrefs _ Hin) as Hlt.
    destruct (lookup_lt_is_Some_2 _ _ Hlt) as [m Hm].
    rewrite (alter_fields _ _ _ _ _ _ Hm). apply Forall_insert; [done|].
    exists p, o, pr. cbn. split_and!; [|done|done|by left].
    unfold topic_of in Htop. rewrite (list_lookup_total_correct _ _ _ Hm) in Htop.
    rewrite Htop. apply elem_of_app. right. by left.
  - apply Forall_app. split; [done|]. apply Forall_singleton.
    exists p, o, pr. cbn. split_and!; [|done|done|by right].
    apply elem_of_app. right. by left.
Qed.

Lemma published_from_heap dq ops st (evs : list Event) :
  wf_refs st → Forall (from_add dq ops) (heap st) →
  (∀ m, m ∈ published evs → ∃ l, l ∈ queue st ∧ m = heap st !!! l) →
  Forall (from_add dq ops) (published evs).
Proof.
  intros Hrefs Hheap Hevs. rewrite Forall_forall. intros m Hm.
  destruct (Hevs m Hm) as (l & Hl & ->).
  rewrite Forall_forall in Hheap. apply Hheap.
  apply list_elem_of_lookup_total_2. by apply (wf_bound _ Hrefs).
Qed.

Lemma step_from_add dq done st op :
  wf st → Forall (from_add dq done) (heap st) →
  Forall (from_add dq (done ++ [op])) (heap (step dq st op))
  ∧ ∃ evs, trace (step dq st op) = trace st ++ evs
      ∧ Forall (from_add dq (done ++ [op])) (published evs).
Proof.
  intros Hwf Hheap.
  assert (Forall (from_add dq (done ++ [op])) (heap st)) as Hheap'.
  { eapply Forall_impl; [exact Hheap|]. intros m. apply from_add_app. }
  assert (∀ s, heap s = heap st → trace s = trace st →
            Forall (from_add dq (done ++ [op])) (heap s)
            ∧ ∃ evs, trace s = trace st ++ evs
                ∧ Forall (from_add dq (done ++ [op])) (published evs)) as Hsame.
  { intros s -> ->. split; [done|]. exists []. by rewrite app_nil_r. }
  destruct op; cbn [step]; try (by apply Hsame).
  - rewrite add_unfold. destruct (isRegistered st && truthy topic); [|by apply Hsame].
    destruct Hwf as [Hrefs Hfr].
    pose proof (stored_from_add dq done topic payload opt process_arg st Hrefs Hheap)
      as Hst.
    destruct (stored_fields dq topic payload (default no_options opt) st) as (Htr & _).
    case_bool_decide.
    + split; [done|]. exists []. by rewrite Htr, app_nil_r.
    + destruct (process_count (stored dq topic payload (default no_options opt) st))
        as (Hh & evs & H1 & _ & H3).
      rewrite Hh. split; [done|]. exists evs. rewrite H1, Htr. split; [done|].
      eapply published_from_heap; [|exact Hst|exact H3].
      by apply wf_refs_stored.
  - destruct Hwf as [Hrefs _].
    destruct (process_count st) as (Hh & evs & H1 & _ & H3).
    rewrite Hh. split; [done|]. exists evs. split; [done|].
    by eapply published_from_heap.
  - destruct Hwf as [Hrefs _].
    destruct (process_count (set_running true st)) as (Hh & evs & H1 & _ & H3).
    unfold start. rewrite Hh. split; [done|]. exists evs. split; [done|].
    eapply (published_from_heap _ _ (set_running true st)); [|done|done].
    by apply (wf_refs_ext st).
  - destruct Hwf as [Hrefs _].
    destruct (resume_count st) as (Hh & evs & H1 & _ & H3).
    rewrite Hh. split; [done|]. exists evs. split; [done|].
    by eapply published_from_heap.
Qed.

Lemma run_from_add dq ops : ∀ done st,
  wf st → Forall (from_add dq done) (heap st) →
  Forall (from_add dq (done ++ ops)) (heap (run dq ops st))
  ∧ ∃ evs, trace (run dq ops st) = trace st ++ evs
      ∧ Forall (from_add dq (done ++ ops)) (published evs).
Proof.
  induction ops as [|op ops IH]; intros done st Hwf Hheap.
  - rewrite app_nil_r. split; [done|]. exists []. by rewrite app_nil_r.
  - rewrite run_cons.
    destruct (step_from_add dq done st op Hwf Hheap) as (H1 & e1 & T1 & F1).
    destruct (IH (done ++ [op]) (step dq st op)) as (H2 & e2 & T2 & F2);
      [by apply wf_step|done|].
    rewrite <- app_assoc in H2, F2. cbn [app] in H2, F2.
    split; [done|]. exists (e1 ++ e2). rewrite T2, T1, app_assoc. split; [done|].
    rewrite published_app. apply Forall_app. split; [|done].
    eapply Forall_impl; [exact F1|]. intros m Hm.
    replace (done ++ op :: ops) with ((done ++ [op]) ++ ops)
      by (by rewrite <- app_assoc).
    by apply from_add_app.
Qed.

(** X11. Whatever is done with a new queue, every message it hands to
    [publish] has the topic and the payload of one of the calls of [add],
    together with the retain of that call and its qos (as given, or
    defaulted by the Message constructor). *)
Theorem published_was_added dq ops st m :
  m ∈ published_since st (run dq ops (constructor st)) → from_add dq ops m.
Proof.
  destruct (run_from_add dq ops [] (constructor st)) as (_ & evs & Htr & F).
  { apply wf_constructor. }
  { constructor. }
  rewrite (published_since_app st _ evs) by done.
  rewrite Forall_forall in F. apply F.
Qed.

Lemma published_was_added_witness :
  from_add 0 [OpAdd "x" "v" None None] (Message_new 0 "x" "v" None None).
Proof.
  apply (published_was_added 0 [OpAdd "x" "v" None None] registered_client).
  vm_compute. left.
Defined.

(** **** The log *)

Lemma rounds_cons h ms l q :
  rounds h ms (l :: q)
  = if bool_decide (is_Some (ms !! topic_of h l))
    then S (rounds h (delete (topic_of h l) ms) q)
    else Nat.max 1 (rounds h ms q).
Proof. reflexivity. Qed.

Lemma rounds_next_Some h ms sk msg q' :
  Forall (λ l, ms !! topic_of h l = None) sk →
  is_Some (ms !! topic_of h msg) →
  rounds h ms (sk ++ msg :: q') = S (rounds h (delete (topic_of h msg) ms) q').
Proof.
  intros Hsk Hlive. induction Hsk as [|l sk Hl _ IH]; cbn [app];
    rewrite rounds_cons.
  - by rewrite bool_decide_true.
  - rewrite bool_decide_false by (rewrite Hl; by intros [? ?]).
    rewrite IH. done.
Qed.

Lemma rounds_next_None h ms l q :
  Forall (λ l, ms !! topic_of h l = None) (l :: q) → rounds h ms (l :: q) = 1.
Proof.
  revert l. induction q as [|l' q IH]; intros l [Hl Hq]%Forall_cons;
    rewrite rounds_cons.
  - rewrite bool_decide_false by (rewrite Hl; by intros [? ?]). done.
  - rewrite bool_decide_false by (rewrite Hl; by intros [? ?]).
    by rewrite IH.
Qed.

Lemma rounds_bounds h q : ∀ ms,
  length (drained h ms q) ≤ rounds h ms q ≤ S (length (drained h ms q)).
Proof.
  induction q as [|l q IH]; intros ms; cbn [rounds drained length]; [lia|].
  case_bool_decide.
  - cbn [length]. specialize (IH (delete (topic_of h l) ms)). lia.
  - specialize (IH ms). lia.
Qed.

Lemma send_call_log msg st :
  ∃ a,
    send_call msg st
    = (a, write_logs (match hd Resolves (outcomes st) with
                      | Throws => failure_log Throws
                      | _ => []
                      end)
            (set_outcomes (drop 1) (emit (Publish (heap st !!! msg)) st)))
    ∧ ∀ c st1,
        frame st1 = Some (mkFrame c a) →
        resume st1
        = process_loop c
            (write_logs (match hd Resolves (outcomes st) with
                         | Rejects => failure_log Rejects
                         | _ => []
                         end) st1).
Proof.
  unfold send_call, publish. cbn [fst snd].
  destruct (hd Resolves (outcomes st)); eexists; (split; [f_equal|]).
  - state_eq; try done. by rewrite app_nil_r.
  - intros c st1 Hf. unfold resume. rewrite Hf. cbn.
    unfold process_resume. f_equal. state_eq; try done. by rewrite app_nil_r.
  - state_eq; try done. by rewrite app_nil_r.
  - intros c st1 Hf. unfold resume. rewrite Hf. cbn.
    unfold process_resume. f_equal. state_eq; try done.
    by rewrite <- app_assoc.
  - state_eq; try done. by rewrite <- app_assoc.
  - intros c st1 Hf. unfold resume. rewrite Hf. cbn.
    unfold process_resume. f_equal. state_eq; try done. by rewrite app_nil_r.
Qed.

Lemma failure_log_split (os : list Outcome) :
  match hd Resolves os with Throws => failure_log Throws | _ => [] end
  ++ match hd Resolves os with Rejects => failure_log Rejects | _ => [] end
  = concat (failure_log <$> take 1 os).
Proof. destruct os as [|[] os]; done. Qed.

Lemma process_exit_log c st : log (process_exit c st) = log st ++ done_log c.
Proof.
  unfold process_exit, done_log. destruct (10 <=? c); fields; [done|].
  by rewrite app_nil_r.
Qed.

Lemma process_loop_log n : ∀ c st,
  length (queue st) ≤ n → running st = true → registered st = true →
  ∃ st', settle n (process_loop c st) = Some st'
    ∧ log st' = log st
        ++ concat (failure_log <$>
                     take (length (drained (heap st) (messages st) (queue st)))
                       (outcomes st))
        ++ done_log (c + rounds (heap st) (messages st) (queue st)).
Proof.
  induction n as [|n IH]; intros c st Hlen Hrun Hreg.
  - destruct (queue st) as [|l q] eqn:Hq; [|cbn in Hlen; lia].
    rewrite process_loop_stop by (by rewrite Hq, andb_false_r).
    exists (process_exit c st). split; [unfold process_exit; by destruct (10 <=? c)|].
    rewrite process_exit_log. cbn. by rewrite Nat.add_0_r.
  - destruct (queue st) as [|l q] eqn:Hq.
    { rewrite process_loop_stop by (by rewrite Hq, andb_false_r).
      exists (process_exit c st). split; [unfold process_exit; by destruct (10 <=? c)|].
      rewrite process_exit_log. cbn. by rewrite Nat.add_0_r. }
    unfold process_loop, isRegistered. rewrite Hrun, Hreg, Hq.
    cbn [length Nat.ltb Nat.leb andb].
    unfold next_call, _getNextMessage. rewrite Hq.
    pose proof (getNext_shorter (heap st) (messages st) l q) as Hshort.
    destruct (_getNextMessage_from (heap st) (messages st) (l :: q))
      as [[msg|] q'] eqn:Hnext; cbn [fst snd] in *.
    + destruct (getNext_Some _ _ _ _ _ Hnext) as (sk & Hsk & Hskip & Hlive & Hdr).
      destruct (send_call_log msg
        (set_messages (delete (topic_of (heap (set_queue (λ _, q') st)) msg))
           (set_queue (λ _, q') st))) as (a & -> & Hres).
      cbn [fst snd settle frame set_frame].
      rewrite (Hres (S c)) by done.
      edestruct (IH (S c)) as (st' & Hst' & Hlog);
        [| | |exists st'; split; [exact Hst'|]].
      * fields. cbn [length] in Hlen. lia.
      * done.
      * done.
      * rewrite Hlog. fields. rewrite Hdr, Hsk.
        rewrite rounds_next_Some by done. cbn [length].
        rewrite <- !app_assoc. f_equal.
        rewrite (app_assoc (match hd Resolves (outcomes st) with
                            | Throws => _ | _ => _ end)).
        rewrite failure_log_split.
        rewrite Nat.add_succ_r. cbn [Nat.add].
        rewrite app_assoc. f_equal.
        rewrite <- concat_app, <- fmap_app. do 2 f_equal.
        destruct (outcomes st); cbn; [by rewrite take_nil|by rewrite drop_0].
    + destruct (getNext_None (heap st) (messages st) (l :: q)) as (Hnil & Hskip & Hdr);
        [by rewrite Hnext|].
      rewrite Hnext in Hnil. cbn in Hnil. subst q'.
      cbn [settle frame set_frame]. unfold resume. cbn [frame set_frame awaiting count fst snd].
      unfold process_resume.
      edestruct (IH (S c)) as (st' & Hst' & Hlog);
        [| | |exists st'; split; [exact Hst'|]].
      * fields. cbn [length]. lia.
      * done.
      * done.
      * rewrite Hlog. fields. rewrite Hdr, rounds_next_None by done.
        cbn [drained length rounds]. rewrite take_0. cbn.
        by rewrite Nat.add_0_r, Nat.add_1_r.
Qed.

Lemma logged_since_app st st' es :
  log st' = log st ++ es → logged_since st st' = es.
Proof. intros H. unfold logged_since. by rewrite H, drop_app_length. Qed.

Lemma queue_log_failure o : Forall queue_log_entry (failure_log o).
Proof.
  destruct o; cbn; repeat (constructor; [unfold queue_log_entry; auto|]); constructor.
Qed.

Lemma queue_log_done c : Forall queue_log_entry (done_log c).
Proof.
  unfold done_log. destruct (10 <=? c) eqn:Hc; [|constructor].
  apply Forall_singleton. right. right. exists c.
  split; [by apply Nat.leb_le|done].
Qed.

Lemma process_loop_logs c st :
  ∃ es, log (process_loop c st) = log st ++ es ∧ Forall queue_log_entry es.
Proof.
  unfold process_loop.
  destruct (running st && isRegistered st && (0 <? length (queue st))).
  - unfold next_call, _getNextMessage.
    destruct (_getNextMessage_from (heap st) (messages st) (queue st))
      as [[msg|] q'] eqn:Hnext; cbn [fst snd].
    + destruct (send_call_log msg
        (set_messages (delete (topic_of (heap (set_queue (λ _, q') st)) msg))
           (set_queue (λ _, q') st))) as (a & -> & _).
      fields. eexists. split; [done|].
      destruct (hd Resolves (outcomes st));
        [constructor|constructor|apply queue_log_failure].
    + fields. exists []. by rewrite app_nil_r.
  - rewrite process_exit_log. eexists. split; [done|]. apply queue_log_done.
Qed.

Lemma process_logs st :
  ∃ es, log (process st) = log st ++ es ∧ Forall queue_log_entry es.
Proof.
  unfold process. destruct (_processing st).
  - exists []. by rewrite app_nil_r.
  - apply (process_loop_logs 0 (set__processing true st)).
Qed.

Lemma resume_logs st :
  ∃ es, log (resume st) = log st ++ es ∧ Forall queue_log_entry es.
Proof.
  unfold resume. destruct (frame st) as [[c a]|]; [|exists []; by rewrite app_nil_r].
  cbn [awaiting count]. unfold process_resume.
  destruct a as [[]| |]; cbn [send_resume next_resume fst snd].
  - apply process_loop_logs.
  - edestruct (process_loop_logs c) as (es & -> & Hes). fields.
    exists (failure_log Rejects ++ es). split; [by rewrite <- !app_assoc|].
    apply Forall_app. split; [|done]. apply (queue_log_failure Rejects).
  - apply process_loop_logs.
  - apply process_loop_logs.
Qed.

Lemma stored_log dq t p o st : log (stored dq t p o st) = log st.
Proof. unfold stored. by destruct (messages st !! t). Qed.

Lemma step_logs dq st op :
  ∃ es, log (step dq st op) = log st ++ es ∧ Forall queue_log_entry es.
Proof.
  destruct op; cbn [step]; try (exists []; by rewrite app_nil_r).
  - rewrite add_unfold.
    destruct (isRegistered st && truthy topic); [|exists []; by rewrite app_nil_r].
    case_bool_decide.
    + exists []. by rewrite stored_log, app_nil_r.
    + destruct (process_logs (stored dq topic payload (default no_options opt) st))
        as (es & Hes & F). rewrite stored_log in Hes. eauto.
  - apply process_logs.
  - apply (process_logs (set_running true st)).
  - apply resume_logs.
Qed.

Lemma run_logs dq ops : ∀ st,
  ∃ es, log (run dq ops st) = log st ++ es ∧ Forall queue_log_entry es.
Proof.
  induction ops as [|op ops IH]; intros st.
  - exists []. by rewrite app_nil_r.
  - rewrite run_cons. destruct (step_logs dq st op) as (e1 & H1 & F1).
    destruct (IH (step dq st op)) as (e2 & H2 & F2).
    exists (e1 ++ e2). rewrite H2, H1, app_assoc. split; [done|by apply Forall_app].
Qed.

(** X12. The log of a drain on an idle, running queue with a registered
    client: for each [publish] that was rejected or threw, the two entries
    written by [send], in the order of the publishes, and nothing for a
    [publish] that succeeded; then, when the loop made ten rounds or more,
    the entry "Done processing messsages: n", where n is the number of
    rounds: the number of publishes, or one more when the pending order
    ends with entries that are skipped. *)
Theorem drain_log st :
  _processing st = false → running st = true → registered st = true →
  ∃ st', drain st = Some st'
    ∧ logged_since st st'
      = concat (failure_log <$> take (length (published_since st st')) (outcomes st))
        ++ done_log (rounds (heap st) (messages st) (queue st))
    ∧ length (published_since st st') ≤ rounds (heap st) (messages st) (queue st)
    ∧ rounds (heap st) (messages st) (queue st) ≤ S (length (published_since st st')).
Proof.
  intros Hp Hrun Hreg.
  destruct (process_settles st Hp Hrun Hreg) as (st' & Hst' & HD).
  exists st'. split; [done|].
  unfold drain, process in Hst'. rewrite Hp in Hst'.
  destruct (process_loop_log (S (length (queue st))) 0 (set__processing true st))
    as (st2 & Hst2 & Hlog); fields; [lia|done|done|].
  rewrite Hst' in Hst2. injection Hst2 as <-.
  destruct HD as [_ _ _ _ _ _ _ _ Htr _].
  rewrite (published_since_app _ _ _ Htr), published_fmap, length_fmap.
  pose proof (rounds_bounds (heap st) (queue st) (messages st)).
  split_and!; [|lia..].
  by apply logged_since_app.
Qed.

Lemma drain_log_witness :
  let st := set_outcomes (λ _, [Rejects; Throws])
              (enqueue 0 [("a", "1", None); ("b", "2", None)]
                 (constructor registered_client)) in
  ∃ st', drain st = Some st'
    ∧ logged_since st st'
      = concat (failure_log <$> take (length (published_since st st')) (outcomes st))
        ++ done_log (rounds (heap st) (messages st) (queue st)).
Proof.
  destruct (drain_log
              (set_outcomes (λ _, [Rejects; Throws])
                 (enqueue 0 [("a", "1", None); ("b", "2", None)]
                    (constructor registered_client))))
    as (st' & H1 & H2 & _); [reflexivity..|].
  exists st'. split; [exact H1|exact H2].
Defined.

(** X13. Whatever is done with the queue, it writes to the log only the
    failure report of [send] ("MessageQueue: Failed to send message" and
    the error) and the count of a drain of ten rounds or more. The handlers
    of [next] and of the loop of [process] do not run: [send] has handled
    the failure before them. *)
Theorem only_send_logs_failures dq ops st :
  Forall queue_log_entry (logged_since st (run dq ops st))
  ∧ (Log_error "MessageQueue: Failed to send next message"
       ∉ logged_since st (run dq ops st))
  ∧ (Log_error "MessageQueue: Failed to process next message"
       ∉ logged_since st (run dq ops st))
  ∧ (Log_debug_exn ∉ logged_since st (run dq ops st)).
Proof.
  destruct (run_logs dq ops st) as (es & Hes & F).
  rewrite (logged_since_app _ _ _ Hes). rewrite Forall_forall in F.
  split_and!; [by apply Forall_forall|..];
    intros [H|[H|(n & _ & H)]]%F; discriminate H.
Qed.
End QueueProofs.

(** * Properties of the life cycle *)

Module HubProofs.
Import MQTTHub HubSpec.
Local Open Scope action_scope.

Import QueueSpec.


Ltac in_list := rewrite list_elem_of_In; cbn; auto 20.

Ltac hub_fields :=
  cbn [mqttClient settings protocol commandHandler homieDispatcher
       homeAssistantDispatcher systemStateDispatcher set_protocol
       set_commandHandler set_homieDispatcher set_homeAssistantDispatcher
       set_systemStateDispatcher fst snd] in *.

(** *** Actions that only call dispatch components *)

Lemma effects_nil st : effects [] [] st = st.
Proof. apply QueueProofs.State_eq; cbn; by rewrite ?app_nil_r. Qed.

Lemma effects_effects e1 l1 e2 l2 st :
  effects e2 l2 (effects e1 l1 st) = effects (e1 ++ e2) (l1 ++ l2) st.
Proof. apply QueueProofs.State_eq; cbn; by rewrite ?app_assoc. Qed.

Lemma emit_effects e st : emit e st = effects [e] [] st.
Proof. apply QueueProofs.State_eq; cbn; by rewrite ?app_nil_r. Qed.

Lemma write_log_effects l st : write_log l st = effects [] [l] st.
Proof. apply QueueProofs.State_eq; cbn; by rewrite ?app_nil_r. Qed.

Lemma runs_log l h : runs (log_write l) h h [] [l].
Proof. intros st. unfold log_write. cbn. by rewrite write_log_effects. Qed.

Lemma runs_assign f h : runs (assign f) h (f h) [] [].
Proof. intros st. unfold assign. cbn. by rewrite effects_nil. Qed.

Lemma runs_seq a b h h1 h2 e1 l1 e2 l2 :
  runs a h h1 e1 l1 → runs b h1 h2 e2 l2 →
  runs (a ;; b) h h2 (e1 ++ e2) (l1 ++ l2).
Proof.
  intros Ha Hb st. unfold seq. rewrite Ha, Hb. by rewrite effects_effects.
Qed.

Lemma runs_with_settings k h cfg h' e l :
  settings h = Some cfg → runs (k cfg) h h' e l → runs (with_settings k) h h' e l.
Proof. intros Hs Hk st. unfold with_settings. cbn. by rewrite Hs. Qed.

(** Evaluation of an action on app fields that are known; [tac] rewrites
    with what is known of the strings. *)
Ltac run_eval_with tac :=
  intros ?st;
  unfold switch_protocol, _startCommands, _stopCommands, _startBroadcasters,
    _stopBroadcasters, _stopCommunicationProtocol, _startCommunicationProtocol,
    when, with_settings, seq, call, assign, log_write, skip, disconnect;
  cbn [mqttClient settings protocol commandHandler homieDispatcher
       homeAssistantDispatcher systemStateDispatcher set_protocol
       set_commandHandler set_homieDispatcher set_homeAssistantDispatcher
       set_systemStateDispatcher fst snd negb andb broadcastSystemState
       or_string truthy_opt];
  repeat (progress tac;
          cbn [mqttClient settings protocol commandHandler homieDispatcher
               homeAssistantDispatcher systemStateDispatcher set_protocol
               set_commandHandler set_homieDispatcher
               set_homeAssistantDispatcher set_systemStateDispatcher fst snd
               negb andb broadcastSystemState or_string truthy_opt]);
  rewrite ?emit_effects, ?write_log_effects, ?effects_effects;
  cbn [app];
  first [reflexivity | by rewrite effects_nil].

Ltac run_eval := run_eval_with fail.

Lemma runs_startCommands h :
  runs _startCommands h (set_commandHandler true h)
    ((if commandHandler h then [CommandHandler_destroy] else [])
       ++ [CommandHandler_new]) [].
Proof. destruct h as [mc se pr [] hm ha ss]; run_eval. Qed.

Lemma runs_stopCommands h :
  runs _stopCommands h (set_commandHandler false h)
    (if commandHandler h then [CommandHandler_destroy] else []) [].
Proof. destruct h as [mc se pr [] hm ha ss]; run_eval. Qed.

Lemma runs_startBroadcasters h cfg :
  settings h = Some cfg →
  ∃ evs lg,
    runs _startBroadcasters h
      (if negb (systemStateDispatcher h) && broadcastSystemState cfg
       then set_systemStateDispatcher true h else h)
      evs lg
    ∧ Forall component_event evs.
Proof.
  intros Hs. destruct h as [mc se pr ch hm ha ss]. hub_fields. subst se.
  destruct cfg as [did ps bd bss].
  destruct hm, ha, ss, bss; (eexists _, _; split; [run_eval|by repeat constructor]).
Qed.

Lemma selected_protocol_truthy cfg : truthy (selected_protocol cfg) = true.
Proof.
  unfold selected_protocol. destruct (protocol_setting cfg) as [x|]; [|done].
  cbn. by destruct (truthy x) eqn:Hx.
Qed.

Lemma runs_switch_protocol h p :
  truthy p = true →
  ∃ h' evs lg,
    runs (switch_protocol p) h h' evs lg
    ∧ Forall component_event evs
    ∧ protocol h' = Some p
    ∧ commandHandler h' = commandHandler h
    ∧ (protocol h ≠ Some p →
       homieDispatcher h' = true ∧ homeAssistantDispatcher h' = true
       ∧ HomieDispatcher_register ∈ evs
       ∧ HomeAssistantDispatcher_register ∈ evs).
Proof.
  intros Hp. destruct h as [mc se pr ch hm ha ss]. hub_fields.
  destruct (decide (pr = Some p)) as [->|Hne].
  - exists (mkHub mc se (Some p) ch hm ha ss), [], [].
    split_and!; [|done..].
    intros st. unfold switch_protocol. cbn. rewrite bool_decide_true by done.
    by rewrite effects_nil.
  - assert (∀ st, switch_protocol p (mkHub mc se pr ch hm ha ss, st)
                  = (log_write (Log_info ("Changing protocol from '"
                                          +:+ js_string pr
                                          +:+ "' to '" +:+ p +:+ "'")) ;;
                     _stopCommunicationProtocol pr ;;
                     _startCommunicationProtocol (Some p))
                      (mkHub mc se pr ch hm ha ss, st)) as Hsw.
    { intros st. unfold switch_protocol. cbn [protocol fst].
      by rewrite bool_decide_false. }
    destruct pr as [x|]; [destruct (truthy x) eqn:Hx|]; destruct hm, ha.
    all: eexists _, _, _; split_and!;
      [intros st; rewrite Hsw; revert st;
       run_eval_with ltac:(rewrite ?Hx, ?Hp)
      |by repeat constructor|done|done|intros _; split_and!; [done|done|in_list|in_list]].
Qed.

Lemma seq_Normal (a b : Action) s s' :
  a s = (Normal, s') → (a ;; b) s = b s'.
Proof. intros H. unfold seq. by rewrite H. Qed.

Lemma seq_Thrown (a b : Action) s s' :
  a s = (Thrown, s') → (a ;; b) s = (Thrown, s').
Proof. intros H. unfold seq. by rewrite H. Qed.

Lemma sendBirthMessage_eq dq h st :
  mqttClient h = true →
  _sendBirthMessage dq (h, st)
  = (match hd Resolves (outcomes st) with Throws => Thrown | _ => Normal end,
     (h, set_outcomes (drop 1) (emit (Publish (birth_message dq h)) st))).
Proof.
  intros Hc. unfold _sendBirthMessage, publish_unawaited, publish.
  cbn [fst snd]. by rewrite Hc.
Qed.

Lemma sendLastWillMessage_eq dq h st :
  mqttClient h = true →
  _sendLastWillMessage dq (h, st)
  = (match hd Resolves (outcomes st) with Throws => Thrown | _ => Normal end,
     (h, set_outcomes (drop 1) (emit (Publish (last_will_message dq h)) st))).
Proof.
  intros Hc. unfold _sendLastWillMessage, publish_unawaited, publish.
  cbn [fst snd]. by rewrite Hc.
Qed.

Lemma runs_start_components h cfg :
  settings h = Some cfg →
  ∃ h' evs lg,
    runs (_startCommands ;; _startBroadcasters ;;
          with_settings (λ cfg,
            switch_protocol
              (default "homie3" (or_string (protocol_setting cfg) None))) ;;
          log_write (Log_info "app running: true")) h h' evs lg
    ∧ Forall component_event evs
    ∧ CommandHandler_new ∈ evs
    ∧ commandHandler h' = true
    ∧ protocol h' = Some (selected_protocol cfg)
    ∧ (protocol h ≠ Some (selected_protocol cfg) →
       homieDispatcher h' = true ∧ homeAssistantDispatcher h' = true
       ∧ HomieDispatcher_register ∈ evs
       ∧ HomeAssistantDispatcher_register ∈ evs).
Proof.
  intros Hs.
  pose proof (runs_startCommands h) as H1.
  destruct (runs_startBroadcasters (set_commandHandler true h) cfg Hs)
    as (e2 & l2 & H2 & F2).
  set (h2 := if negb (systemStateDispatcher (set_commandHandler true h))
                  && broadcastSystemState cfg
             then set_systemStateDispatcher true (set_commandHandler true h)
             else set_commandHandler true h) in *.
  assert (settings h2 = Some cfg ∧ commandHandler h2 = true
          ∧ protocol h2 = protocol h) as (Hs2 & Hc2 & Hp2).
  { unfold h2. by destruct (negb _ && _). }
  destruct (runs_switch_protocol h2 (selected_protocol cfg)
              (selected_protocol_truthy cfg))
    as (h3 & e3 & l3 & H3 & F3 & Hp3 & Hc3 & Hd3).
  eexists h3, _, _. split_and!.
  - eapply runs_seq; [exact H1|].
    eapply runs_seq; [exact H2|].
    eapply runs_seq; [|apply runs_log].
    eapply runs_with_settings; [exact Hs2|]. exact H3.
  - repeat (apply Forall_app; split); try done; try (by repeat constructor).
    destruct (commandHandler h); by repeat constructor.
  - rewrite !elem_of_app. left. right. by left.
  - by rewrite Hc3.
  - done.
  - rewrite <- Hp2. intros Hne. destruct (Hd3 Hne) as (? & ? & ? & ?).
    split_and!; [done|done| |]; rewrite !elem_of_app; right; right; by left.
Qed.

Lemma connect_eq h st :
  mqttClient h = true →
  with_mqttClient connect (h, st)
  = (if connect_ok st then Normal else Thrown, (h, emit Connect st)).
Proof. intros Hc. unfold with_mqttClient, connect. cbn [fst snd]. by rewrite Hc. Qed.

Lemma disconnect_eq h st :
  mqttClient h = true →
  with_mqttClient disconnect (h, st) = (Normal, (h, emit Disconnect st)).
Proof. intros Hc. unfold with_mqttClient, disconnect, call. cbn [fst snd]. by rewrite Hc. Qed.

Lemma sendBirthMessage_Normal dq h st :
  mqttClient h = true → hd Resolves (outcomes st) ≠ Throws →
  _sendBirthMessage dq (h, st)
  = (Normal, (h, set_outcomes (drop 1) (emit (Publish (birth_message dq h)) st))).
Proof.
  intros Hc Ho. rewrite sendBirthMessage_eq by done.
  by destruct (hd Resolves (outcomes st)).
Qed.

Lemma sendLastWillMessage_Normal dq h st :
  mqttClient h = true → hd Resolves (outcomes st) ≠ Throws →
  _sendLastWillMessage dq (h, st)
  = (Normal,
     (h, set_outcomes (drop 1) (emit (Publish (last_will_message dq h)) st))).
Proof.
  intros Hc Ho. rewrite sendLastWillMessage_eq by done.
  by destruct (hd Resolves (outcomes st)).
Qed.

Lemma runs_stopBroadcasters h :
  (homeAssistantDispatcher h = true → systemStateDispatcher h = true) →
  ∃ evs lg,
    runs _stopBroadcasters h (set_systemStateDispatcher false h) evs lg
    ∧ Forall component_event evs.
Proof.
  intros Hss. destruct h as [mc se pr ch hm ha ss]. hub_fields.
  destruct hm, ha, ss; try (by discriminate Hss);
    (eexists _, _; split; [run_eval|by repeat constructor]).
Qed.

Lemma runs_stopCommunicationProtocol h :
  ∃ h' evs lg,
    runs (_stopCommunicationProtocol None) h h' evs lg
    ∧ Forall component_event evs
    ∧ commandHandler h' = commandHandler h
    ∧ systemStateDispatcher h' = systemStateDispatcher h
    ∧ ((∃ x, protocol h = Some x ∧ truthy x = true) →
       homieDispatcher h' = false ∧ homeAssistantDispatcher h' = false).
Proof.
  destruct h as [mc se pr ch hm ha ss]. hub_fields.
  destruct pr as [x|]; [destruct (truthy x) eqn:Hx|]; destruct hm, ha.
  all: eexists _, _, _; split_and!;
    [run_eval_with ltac:(rewrite ?Hx)
    |by repeat constructor|done|done
    |try done; intros (y & [= <-] & Hy); congruence].
Qed.

Lemma runs_stop_components h :
  (homeAssistantDispatcher h = true → systemStateDispatcher h = true) →
  ∃ h' evs lg,
    runs (_stopCommands ;; _stopBroadcasters ;; _stopCommunicationProtocol None ;;
          assign (set_protocol None) ;;
          log_write (Log_info "app running: false")) h h' evs lg
    ∧ Forall component_event evs
    ∧ (commandHandler h = true → CommandHandler_destroy ∈ evs)
    ∧ commandHandler h' = false
    ∧ systemStateDispatcher h' = false
    ∧ protocol h' = None
    ∧ ((∃ x, protocol h = Some x ∧ truthy x = true) →
       homieDispatcher h' = false ∧ homeAssistantDispatcher h' = false).
Proof.
  intros Hss.
  pose proof (runs_stopCommands h) as H1.
  destruct (runs_stopBroadcasters (set_commandHandler false h))
    as (e2 & l2 & H2 & F2).
  { by destruct h. }
  destruct (runs_stopCommunicationProtocol
              (set_systemStateDispatcher false (set_commandHandler false h)))
    as (h3 & e3 & l3 & H3 & F3 & Hc3 & Hs3 & Hd3).
  eexists (set_protocol None h3), _, _. split_and!.
  - eapply runs_seq; [exact H1|].
    eapply runs_seq; [exact H2|].
    eapply runs_seq; [exact H3|].
    eapply runs_seq; [apply runs_assign|apply runs_log].
  - repeat (apply Forall_app; split); try done; try (by repeat constructor).
    destruct (commandHandler h); by repeat constructor.
  - intros ->. rewrite !elem_of_app. left. by left.
  - destruct h3; hub_fields. by rewrite Hc3.
  - destruct h3; hub_fields. by rewrite Hs3.
  - by destruct h3.
  - intros Hp. destruct h3; hub_fields. apply Hd3. by destruct h.
Qed.


(** *** The claims about the life cycle *)







(** What [stop] does after a first [start] with the default settings: there
    is a Home Assistant dispatcher and no system state dispatcher, so
    [_stopBroadcasters] throws, and the protocol dispatchers are left
    running. *)
Example stop_after_default_start_throws :
  let s := (start 0 (initialised, MessageQueue.constructor registered_client)).2 in
  let r := stop 0 s in
  r.1 = Thrown
  ∧ homieDispatcher r.2.1 = true ∧ homeAssistantDispatcher r.2.1 = true
  ∧ protocol r.2.1 = Some "homie3"
  ∧ drop 7 (trace r.2.2)
    = [Publish (last_will_message 0 initialised); Disconnect;
       CommandHandler_destroy; HomieDispatcher_broadcast false].
Proof. vm_compute. by split_and!. Qed.

(** C10. [_sendBirthMessage] and [_sendLastWillMessage] hand a new Message
    with qos 1 and retain true straight to [publish]: whatever the state of
    the queue (running or not, client registered or not), the call is made,
    and heap, pending order, live set, [running], [_processing] and the
    suspended activation are unchanged. Two calls make two publishes, and a
    [remove] of the topic afterwards takes nothing back. *)
Theorem birth_and_last_will_bypass_queue dq (h : Hub) (st : State) :
  mqttClient h = true →
  let b := _sendBirthMessage dq (h, st) in
  let w := _sendLastWillMessage dq (h, st) in
  trace b.2.2 = trace st ++ [Publish (birth_message dq h)]
  ∧ trace w.2.2 = trace st ++ [Publish (last_will_message dq h)]
  ∧ birth_message dq h
    = mkMessage (JS.replace BIRTH_TOPIC "{deviceId}" (hub_deviceId h))
        "online" (Some 1%Z) (Some true)
  ∧ last_will_message dq h
    = mkMessage (JS.replace WILL_TOPIC "{deviceId}" (hub_deviceId h))
        "offline" (Some 1%Z) (Some true)
  ∧ queue_state b.2.2 = queue_state st ∧ queue_state w.2.2 = queue_state st
  ∧ b.2.1 = h ∧ w.2.1 = h
  ∧ published_since st (_sendBirthMessage dq b.2).2.2
    = [birth_message dq h; birth_message dq h]
  ∧ trace (MessageQueue.remove (mqttTopic (birth_message dq h)) b.2.2)
    = trace b.2.2.
Proof.
  intros Hc b w. subst b w.
  rewrite sendBirthMessage_eq, sendLastWillMessage_eq by done.
  cbn [fst snd]. rewrite sendBirthMessage_eq by done. cbn [fst snd].
  split_and!; try done.
  erewrite QueueProofs.published_since_app; [|cbn; by rewrite <- app_assoc].
  done.
Qed.

Lemma birth_and_last_will_bypass_queue_witness :
  let st := paused_queue in
  let b := _sendBirthMessage 0 (initialised, st) in
  trace b.2.2 = trace st ++ [Publish (birth_message 0 initialised)]
  ∧ queue_state b.2.2 = queue_state st.
Proof.
  destruct (birth_and_last_will_bypass_queue 0 initialised paused_queue)
    as (H1 & _ & _ & _ & H2 & _); [reflexivity|].
  split; [exact H1|exact H2].
Defined.

(** *** Further properties of the life cycle *)

(** **** What the life cycle leaves alone *)

Lemma messages_of_settings dq h h' :
  settings h' = settings h →
  birth_message dq h' = birth_message dq h
  ∧ last_will_message dq h' = last_will_message dq h.
Proof.
  intros Hs. unfold birth_message, last_will_message, hub_deviceId. by rewrite Hs.
Qed.

Lemma keeps_same dq (a : Action) :
  (∀ s, ∃ c, a s = (c, s)) → keeps_queue dq a.
Proof.
  intros Ha h st. destruct (Ha (h, st)) as [c ->]. cbn.
  split_and!; [done..|]. exists [], []. rewrite !app_nil_r. by split_and!.
Qed.

Lemma keeps_skip dq : keeps_queue dq skip.
Proof. apply keeps_same. intros s. by exists Normal. Qed.

Lemma keeps_call dq e :
  match e with Publish _ => False | _ => True end → keeps_queue dq (call e).
Proof.
  intros He h st. cbn. split_and!; [done..|]. exists [e], []. rewrite app_nil_r.
  split_and!; [done..|]. by destruct e.
Qed.

Lemma keeps_log dq l : keeps_queue dq (log_write l).
Proof.
  intros h st. cbn. split_and!; [done..|]. exists [], [l]. rewrite app_nil_r.
  by split_and!.
Qed.

Lemma keeps_assign dq f :
  (∀ h, settings (f h) = settings h ∧ mqttClient (f h) = mqttClient h) →
  keeps_queue dq (assign f).
Proof.
  intros Hf h st. cbn. destruct (Hf h) as [? ?]. split_and!; [done..|].
  exists [], []. rewrite !app_nil_r. by split_and!.
Qed.

Lemma keeps_then dq (a b : Action) h st :
  keeps_queue dq a → keeps_queue dq b →
  let s1 := (a (h, st)).2 in
  settings (b s1).2.1 = settings h
  ∧ mqttClient (b s1).2.1 = mqttClient h
  ∧ queue_state (b s1).2.2 = queue_state st
  ∧ ∃ evs lg,
      trace (b s1).2.2 = trace st ++ evs
      ∧ log (b s1).2.2 = log st ++ lg
      ∧ Forall (λ m, m = birth_message dq h ∨ m = last_will_message dq h)
          (published evs).
Proof.
  intros Ha Hb s1. subst s1.
  destruct (Ha h st) as (A1 & A2 & A3 & e1 & l1 & A4 & A5 & A6).
  destruct (a (h, st)) as [c [h1 st1]]. cbn [fst snd] in *.
  destruct (Hb h1 st1) as (B1 & B2 & B3 & e2 & l2 & B4 & B5 & B6).
  destruct (messages_of_settings dq h h1 A1) as [Hb1 Hw1].
  rewrite Hb1, Hw1 in B6.
  split_and!; [congruence..|].
  exists (e1 ++ e2), (l1 ++ l2). rewrite B4, B5, A4, A5, !app_assoc.
  split_and!; [done..|]. rewrite QueueProofs.published_app. by apply Forall_app.
Qed.

Lemma keeps_seq dq (a b : Action) :
  keeps_queue dq a → keeps_queue dq b → keeps_queue dq (a ;; b).
Proof.
  intros Ha Hb h st. pose proof (keeps_then dq a b h st Ha Hb) as Hab.
  cbn zeta in Hab. unfold seq.
  destruct (a (h, st)) as [[] s1] eqn:Has; cbn [fst snd] in *; [done|].
  specialize (Ha h st). by rewrite Has in Ha.
Qed.

Lemma keeps_try_catch dq (a b : Action) :
  keeps_queue dq a → keeps_queue dq b → keeps_queue dq (try_catch a b).
Proof.
  intros Ha Hb h st. pose proof (keeps_then dq a b h st Ha Hb) as Hab.
  cbn zeta in Hab. unfold try_catch.
  destruct (a (h, st)) as [[] s1] eqn:Has; cbn [fst snd] in *; [|done].
  specialize (Ha h st). by rewrite Has in Ha.
Qed.

Lemma keeps_when dq c (a : Action) : keeps_queue dq a → keeps_queue dq (when c a).
Proof.
  intros Ha h st. unfold when. cbn [fst]. destruct (c h); [apply Ha|].
  by apply (keeps_skip dq).
Qed.

Lemma keeps_if dq (c : Sys → bool) (a b : Action) :
  keeps_queue dq a → keeps_queue dq b →
  keeps_queue dq (λ s, if c s then a s else b s).
Proof. intros Ha Hb h st. destruct (c (h, st)); [apply Ha|apply Hb]. Qed.

Lemma keeps_throw dq : keeps_queue dq (λ s, (Thrown, s)).
Proof. apply keeps_same. intros s. by exists Thrown. Qed.

Lemma keeps_with_settings dq (k : Settings → Action) :
  (∀ cfg, keeps_queue dq (k cfg)) → keeps_queue dq (with_settings k).
Proof.
  intros Hk h st. unfold with_settings. cbn [fst].
  destruct (settings h) as [cfg|] eqn:Hs.
  - specialize (Hk cfg h st). by rewrite Hs in Hk.
  - pose proof (keeps_throw dq h st) as Ht. by rewrite Hs in Ht.
Qed.

Lemma keeps_with_mqttClient dq (a : Action) :
  keeps_queue dq a → keeps_queue dq (with_mqttClient a).
Proof.
  intros Ha h st. unfold with_mqttClient. cbn [fst].
  destruct (mqttClient h) eqn:Hc.
  - specialize (Ha h st). by rewrite Hc in Ha.
  - pose proof (keeps_throw dq h st) as Ht. by rewrite Hc in Ht.
Qed.

Lemma keeps_connect dq : keeps_queue dq connect.
Proof.
  intros h st. cbn. split_and!; [done..|]. exists [Connect], [].
  rewrite app_nil_r. by split_and!.
Qed.

Lemma keeps_detached dq (a : Action) : keeps_queue dq a → keeps_queue dq (detached a).
Proof. intros Ha h st. apply Ha. Qed.

Lemma keeps_sendBirthMessage dq : keeps_queue dq (_sendBirthMessage dq).
Proof.
  intros h st. unfold _sendBirthMessage. cbn [fst].
  destruct (mqttClient h && truthy BIRTH_TOPIC && truthy BIRTH_MESSAGE);
    [|by apply (keeps_skip dq)].
  cbn. split_and!; [done..|]. eexists [_], []. rewrite app_nil_r.
  split_and!; [done..|]. repeat constructor.
Qed.

Lemma keeps_sendLastWillMessage dq : keeps_queue dq (_sendLastWillMessage dq).
Proof.
  intros h st. unfold _sendLastWillMessage. cbn [fst].
  destruct (mqttClient h && truthy WILL_TOPIC && truthy WILL_MESSAGE);
    [|by apply (keeps_skip dq)].
  cbn. split_and!; [done..|]. eexists [_], []. rewrite app_nil_r.
  split_and!; [done..|]. apply Forall_singleton. by right.
Qed.

Ltac keeps :=
  repeat first
    [ apply keeps_sendBirthMessage | apply keeps_sendLastWillMessage
    | apply keeps_log | apply keeps_skip
    | apply keeps_call; exact I
    | apply keeps_assign; intros []; by split
    | apply keeps_connect
    | apply keeps_seq | apply keeps_when
    | apply keeps_with_settings; intros ?
    | apply keeps_with_mqttClient ].

Lemma keeps_stopCommands dq : keeps_queue dq _stopCommands.
Proof. unfold _stopCommands. keeps. Qed.

Lemma keeps_startCommands dq : keeps_queue dq _startCommands.
Proof. unfold _startCommands. keeps. Qed.

Lemma keeps_startBroadcasters dq : keeps_queue dq _startBroadcasters.
Proof.
  unfold _startBroadcasters. keeps.
  destruct (broadcastSystemState cfg); keeps.
Qed.

Lemma keeps_stopBroadcasters dq : keeps_queue dq _stopBroadcasters.
Proof.
  unfold _stopBroadcasters. keeps.
  apply (keeps_if dq (λ s, systemStateDispatcher s.1)); keeps.
Qed.

Lemma keeps_stopCommunicationProtocol dq p :
  keeps_queue dq (_stopCommunicationProtocol p).
Proof.
  assert (∀ l, keeps_queue dq
            (log_write l ;;
             when homieDispatcher
               (call HomieDispatcher_destroy ;; assign (set_homieDispatcher false)) ;;
             when homeAssistantDispatcher
               (call HomeAssistantDispatcher_destroy ;;
                assign (set_homeAssistantDispatcher false)))) as Hbody
    by (intros l; keeps).
  intros h st. unfold _stopCommunicationProtocol. cbn [fst].
  destruct (truthy_opt (or_string p (protocol h))); [apply Hbody|].
  apply (keeps_skip dq).
Qed.

Lemma keeps_startCommunicationProtocol dq p :
  keeps_queue dq (_startCommunicationProtocol p).
Proof.
  unfold _startCommunicationProtocol. apply keeps_seq; [keeps|].
  apply keeps_seq; [|keeps].
  intros h st. apply (keeps_log dq).
Qed.

Lemma keeps_switch_protocol dq p : keeps_queue dq (switch_protocol p).
Proof.
  assert (∀ l q, keeps_queue dq
            (log_write l ;; _stopCommunicationProtocol q ;;
             _startCommunicationProtocol (Some p))) as Hbody.
  { intros l q. apply keeps_seq; [keeps|].
    apply keeps_seq;
      [apply keeps_stopCommunicationProtocol|apply keeps_startCommunicationProtocol]. }
  intros h st. unfold switch_protocol. cbn [fst].
  destruct (bool_decide (protocol h = Some p)); [apply (keeps_skip dq)|].
  apply Hbody.
Qed.

Lemma keeps_start dq : keeps_queue dq (start dq).
Proof.
  unfold start. apply keeps_try_catch; [|keeps].
  apply keeps_seq; [keeps|].
  apply keeps_seq; [keeps|].
  apply keeps_seq; [keeps|].
  apply keeps_seq; [apply keeps_startCommands|].
  apply keeps_seq; [apply keeps_startBroadcasters|].
  apply keeps_seq; [|keeps].
  apply keeps_with_settings. intros cfg. apply keeps_switch_protocol.
Qed.

Lemma keeps_stop dq : keeps_queue dq (stop dq).
Proof.
  unfold stop.
  apply keeps_seq; [keeps|].
  apply keeps_seq; [keeps|].
  apply keeps_seq; [apply keeps_with_mqttClient, (keeps_call dq Disconnect I)|].
  apply keeps_seq; [apply keeps_stopCommands|].
  apply keeps_seq; [apply keeps_stopBroadcasters|].
  apply keeps_seq; [apply keeps_stopCommunicationProtocol|].
  keeps.
Qed.

(** X14. [start], [stop], [uninstall] and [setRunning] leave the message
    queue alone, for every state of the app and of the queue and also when
    they fail: the pending order, the live set, the Message objects,
    [running], [_processing] and a suspended drain are as before. They add
    to the trace and to the log, they leave [this.settings] and
    [this.mqttClient] as they are, and the only messages they hand to
    [publish] themselves are the birth message and the last-will
    message. *)
Theorem lifecycle_keeps_queue dq :
  keeps_queue dq (start dq) ∧ keeps_queue dq (stop dq)
  ∧ keeps_queue dq (uninstall dq)
  ∧ ∀ running, keeps_queue dq (setRunning dq running).
Proof.
  split_and!.
  - apply keeps_start.
  - apply keeps_stop.
  - unfold uninstall. apply keeps_try_catch; [|keeps].
    apply keeps_seq; [keeps|].
    apply keeps_with_mqttClient, (keeps_call dq Disconnect I).
  - intros running. unfold setRunning. apply keeps_seq; [keeps|].
    apply keeps_when. destruct running; [|apply keeps_stop].
    apply keeps_detached. unfold then_catch.
    apply keeps_try_catch; [|keeps]. apply keeps_seq; [apply keeps_start|keeps].
Qed.

(** **** How [start] ends *)

Lemma seq_inv (a b : Action) s c s' :
  (a ;; b) s = (c, s') →
  (c = Thrown ∧ a s = (Thrown, s')) ∨ (∃ s1, a s = (Normal, s1) ∧ b s1 = (c, s')).
Proof.
  unfold seq. destruct (a s) as [[] s1]; intros H.
  - right. eauto.
  - left. by injection H as <- <-.
Qed.

Lemma seq_last_log (a : Action) l s s' :
  (a ;; log_write l) s = (Normal, s') → last (log s'.2) = Some l.
Proof.
  intros [[? _]|(s1 & _ & H)]%seq_inv; [done|].
  unfold log_write in H. injection H as <-. cbn. apply last_snoc.
Qed.

Lemma start_body_last dq s s' :
  (log_write (Log_info "app start") ;;
   with_mqttClient connect ;;
   _sendBirthMessage dq ;;
   _startCommands ;;
   _startBroadcasters ;;
   with_settings (λ cfg,
     switch_protocol (default "homie3" (or_string (protocol_setting cfg) None))) ;;
   log_write (Log_info "app running: true")) s = (Normal, s') →
  last (log s'.2) = Some (Log_info "app running: true").
Proof.
  intros H.
  do 5 (apply seq_inv in H as [[? _]|(? & _ & H)]; [done|]).
  by eapply seq_last_log.
Qed.

Lemma start_end dq s :
  let body :=
    (log_write (Log_info "app start") ;;
     with_mqttClient connect ;;
     _sendBirthMessage dq ;;
     _startCommands ;;
     _startBroadcasters ;;
     with_settings (λ cfg,
       switch_protocol (default "homie3" (or_string (protocol_setting cfg) None))) ;;
     log_write (Log_info "app running: true"))%action in
  (start dq s).1 = Normal
  ∧ ((body s).1 = Normal → last (log (start dq s).2.2) = Some (Log_info "app running: true"))
  ∧ ((body s).1 = Thrown →
     ∃ lg, log (start dq s).2.2
           = lg ++ [Log_error "Failed to start app"; Log_error_exn]).
Proof.
  intros body. unfold start, try_catch. fold body.
  destruct (body s) as [[] s'] eqn:Hb; cbn [fst snd].
  - split_and!; [done| |done]. intros _. exact (start_body_last dq s s' Hb).
  - split_and!; [done|done|]. intros _. exists (log s'.2).
    cbn. by rewrite <- app_assoc.
Qed.

Lemma startBroadcasters_no_settings (k : Settings → Action) (b : Action) h st :
  settings h = None →
  ((_startBroadcasters ;; with_settings k ;; b) (h, st)).1 = Thrown.
Proof.
  destruct h as [mc se pr ch hm ha ss]. cbn [settings]. intros ->.
  destruct hm; [done|]. destruct ha; [done|]. by destruct ss.
Qed.

Lemma start_succeeds_dec h st : start_succeeds h st ∨ ¬ start_succeeds h st.
Proof.
  unfold start_succeeds.
  destruct (mqttClient h); [|right; by intros (? & _)].
  destruct (connect_ok st); [|right; by intros (_ & ? & _)].
  destruct (hd Resolves (outcomes st)); [| |right; by intros (_ & _ & ? & _)];
    (destruct (settings h); [left; split_and!; eauto|right; intros (_ & _ & _ & [? ?]); done]).
Qed.

Lemma start_body_completion dq h st :
  let body :=
    (log_write (Log_info "app start") ;;
     with_mqttClient connect ;;
     _sendBirthMessage dq ;;
     _startCommands ;;
     _startBroadcasters ;;
     with_settings (λ cfg,
       switch_protocol (default "homie3" (or_string (protocol_setting cfg) None))) ;;
     log_write (Log_info "app running: true"))%action in
  (start_succeeds h st → (body (h, st)).1 = Normal)
  ∧ (¬ start_succeeds h st → (body (h, st)).1 = Thrown).
Proof.
  intros body. unfold body, start_succeeds.
  rewrite (seq_Normal _ _ _ _ (runs_log _ h st)).
  set (st1 := effects [] [Log_info "app start"] st).
  destruct (mqttClient h) eqn:Hc.
  2:{ split; [by intros (? & _)|]. intros _.
      unfold seq, with_mqttClient. cbn [fst]. by rewrite Hc. }
  destruct (connect_ok st) eqn:Hok.
  2:{ split; [by intros (_ & ? & _)|]. intros _.
      rewrite (seq_Thrown _ _ _ (h, emit Connect st1)); [done|].
      rewrite connect_eq by done. unfold st1. cbn [connect_ok effects]. by rewrite Hok. }
  rewrite (seq_Normal _ _ _ (h, emit Connect st1)).
  2:{ rewrite connect_eq by done. unfold st1. cbn [connect_ok effects]. by rewrite Hok. }
  assert (hd Resolves (outcomes st) = Throws
          ∨ hd Resolves (outcomes st) ≠ Throws) as [Ho|Ho]
    by (destruct (hd Resolves (outcomes st)); auto).
  { split; [by intros (_ & _ & ? & _)|]. intros _.
    erewrite seq_Thrown; [done|]. rewrite sendBirthMessage_eq by done.
    unfold st1. cbn [outcomes emit effects]. by rewrite Ho. }
  rewrite (seq_Normal _ _ _ _ (sendBirthMessage_Normal dq h (emit Connect st1) Hc Ho)).
  destruct (settings h) as [cfg|] eqn:Hs.
  - split; [intros _|intros []; by split_and!].
    destruct (runs_start_components h cfg Hs) as (h' & evs & lg & Hrun & _).
    unfold runs in Hrun. by rewrite Hrun.
  - split; [by intros (_ & _ & _ & [? ?])|]. intros _.
    rewrite (seq_Normal _ _ _ _ (runs_startCommands h _)).
    apply startBroadcasters_no_settings. by destruct h.
Qed.

(** X15. [start] never throws: what fails inside is caught and logged. It
    gets to its end, with "app running: true" as the last log entry,
    exactly when there is a client, [connect] succeeds, the birth [publish]
    does not throw and there are settings; in every other case its log
    ends with "Failed to start app" and the error. *)
Theorem start_outcome dq h st :
  (start dq (h, st)).1 = Normal
  ∧ (start_succeeds h st
     ↔ last (log (start dq (h, st)).2.2) = Some (Log_info "app running: true"))
  ∧ (¬ start_succeeds h st
     ↔ ∃ lg, log (start dq (h, st)).2.2
             = lg ++ [Log_error "Failed to start app"; Log_error_exn]).
Proof.
  destruct (start_end dq (h, st)) as (H1 & H2 & H3).
  destruct (start_body_completion dq h st) as [B1 B2].
  cbv zeta in *.
  assert (∀ lg, last (lg ++ [Log_error "Failed to start app"; Log_error_exn])
                ≠ Some (Log_info "app running: true")) as Hne.
  { intros lg.
    change [Log_error "Failed to start app"; Log_error_exn]
      with ([Log_error "Failed to start app"] ++ [Log_error_exn]).
    by rewrite app_assoc, last_snoc. }
  split; [done|].
  destruct (start_succeeds_dec h st) as [Hs|Hs].
  - specialize (H2 (B1 Hs)). split; [done|]. split; [done|].
    intros [lg Hlg]. rewrite Hlg in H2. by apply Hne in H2.
  - destruct (H3 (B2 Hs)) as [lg Hlg]. split.
    + split; [done|]. intros Hl. rewrite Hlg in Hl. by apply Hne in Hl.
    + split; [eauto|done].
Qed.

(** **** The calls [start] makes on the components *)

Lemma runs_startBroadcasters_calls h cfg :
  settings h = Some cfg →
  ∃ lg,
    runs _startBroadcasters h
      (if negb (systemStateDispatcher h) && broadcastSystemState cfg
       then set_systemStateDispatcher true h else h)
      ((if homieDispatcher h
        then [HomieDispatcher_broadcast (broadcast_of cfg)] else [])
       ++ (if homeAssistantDispatcher h
           then [HomeAssistantDispatcher_broadcast (broadcast_of cfg)] else [])
       ++ (if negb (systemStateDispatcher h) && broadcastSystemState cfg
           then [SystemStateDispatcher_new] else []))
      lg.
Proof.
  intros Hs. destruct h as [mc se pr ch hm ha ss]. hub_fields. subst se.
  destruct cfg as [did ps bd bss].
  destruct hm, ha, ss, bss; (eexists; run_eval).
Qed.

Lemma runs_switch_protocol_calls h p :
  truthy p = true → protocol h ≠ Some p →
  ∃ lg,
    runs (switch_protocol p) h
      (set_homeAssistantDispatcher true
         (set_homieDispatcher true (set_protocol (Some p) h)))
      ((if truthy_opt (protocol h)
        then (if homieDispatcher h then [HomieDispatcher_destroy] else [])
             ++ (if homeAssistantDispatcher h
                 then [HomeAssistantDispatcher_destroy] else [])
        else [])
       ++ [HomieDispatcher_new; HomeAssistantDispatcher_new;
           HomeAssistantDispatcher_register; HomieDispatcher_register])
      lg.
Proof.
  intros Hp Hne. destruct h as [mc se pr ch hm ha ss]. hub_fields.
  assert (∀ st, switch_protocol p (mkHub mc se pr ch hm ha ss, st)
                = (log_write (Log_info ("Changing protocol from '"
                                        +:+ js_string pr
                                        +:+ "' to '" +:+ p +:+ "'")) ;;
                   _stopCommunicationProtocol pr ;;
                   _startCommunicationProtocol (Some p))
                    (mkHub mc se pr ch hm ha ss, st)) as Hsw.
  { intros st. unfold switch_protocol. cbn [protocol fst].
    by rewrite bool_decide_false. }
  destruct pr as [x|]; [destruct (truthy x) eqn:Hx|]; destruct hm, ha.
  all: eexists; intros st; rewrite Hsw; revert st;
    run_eval_with ltac:(rewrite ?Hx, ?Hp).
Qed.

Lemma runs_same_protocol h p :
  protocol h = Some p → runs (switch_protocol p) h h [] [].
Proof.
  intros Hp st. unfold switch_protocol. cbn [fst].
  rewrite bool_decide_true by done. by rewrite effects_nil.
Qed.

Lemma start_with dq h cfg st h3 e3 l3 :
  mqttClient h = true → settings h = Some cfg →
  connect_ok st = true → hd Resolves (outcomes st) ≠ Throws →
  runs (switch_protocol (selected_protocol cfg)) (with_broadcasters h cfg) h3 e3 l3 →
  (start dq (h, st)).1 = Normal
  ∧ (start dq (h, st)).2.1 = h3
  ∧ trace (start dq (h, st)).2.2
    = trace st ++ [Connect; Publish (birth_message dq h)]
        ++ command_calls h ++ broadcast_calls h cfg ++ e3.
Proof.
  intros Hc Hs Hok Ho Hsw.
  destruct (runs_startBroadcasters_calls (set_commandHandler true h) cfg)
    as [lg Hb]; [by destruct h|].
  assert (settings (with_broadcasters h cfg) = Some cfg) as Hs2.
  { unfold with_broadcasters. destruct (negb _ && _); by destruct h. }
  assert ((if negb (systemStateDispatcher (set_commandHandler true h))
              && broadcastSystemState cfg
           then set_systemStateDispatcher true (set_commandHandler true h)
           else set_commandHandler true h) = with_broadcasters h cfg) as Hh2
    by (by destruct h).
  rewrite Hh2 in Hb.
  pose proof (runs_seq _ _ _ _ _ _ _ _ _ (runs_startCommands h)
                (runs_seq _ _ _ _ _ _ _ _ _ Hb
                   (runs_seq _ _ _ _ _ _ _ _ _
                      (runs_with_settings
                         (λ cfg, switch_protocol (selected_protocol cfg))
                         _ cfg _ _ _ Hs2 Hsw)
                      (runs_log (Log_info "app running: true") h3)))) as Hrun.
  unfold start, try_catch.
  rewrite (seq_Normal _ _ _ _ (runs_log _ h st)).
  rewrite (seq_Normal _ _ _ (h, emit Connect (effects [] [Log_info "app start"] st)))
    by (by rewrite connect_eq; cbn [connect_ok effects]; rewrite ?Hok).
  rewrite (seq_Normal _ _ _ _
    (sendBirthMessage_Normal dq h
       (emit Connect (effects [] [Log_info "app start"] st)) Hc Ho)).
  unfold runs in Hrun. unfold selected_protocol in Hrun. rewrite Hrun.
  cbn [fst snd trace effects emit set_outcomes].
  split_and!; [done..|].
  unfold command_calls, broadcast_calls.
  destruct h; hub_fields. by rewrite ?app_nil_r, <- ?app_assoc.
Qed.

(** X16. The first [start] of an app that has a client and settings and
    nothing started yet, when [connect] succeeds and the birth [publish]
    does not throw. The calls are, in this order: [connect], the birth
    [publish], a new command handler, a new system state dispatcher if the
    settings ask for one, a new Homie dispatcher, a new Home Assistant
    dispatcher, the registration of the Home Assistant dispatcher, that of
    the Homie dispatcher. No [broadcast] flag is assigned:
    [_startBroadcasters] runs before the protocol dispatchers are there. *)
Theorem first_start_order dq cfg st :
  connect_ok st = true → hd Resolves (outcomes st) ≠ Throws →
  let r := start dq (fresh cfg, st) in
  r.1 = Normal
  ∧ trace r.2.2
    = trace st
        ++ [Connect; Publish (birth_message dq (fresh cfg)); CommandHandler_new]
        ++ (if broadcastSystemState cfg then [SystemStateDispatcher_new] else [])
        ++ [HomieDispatcher_new; HomeAssistantDispatcher_new;
            HomeAssistantDispatcher_register; HomieDispatcher_register]
  ∧ r.2.1 = mkHub true (Some cfg) (Some (selected_protocol cfg)) true true true
              (broadcastSystemState cfg).
Proof.
  intros Hok Ho r. subst r.
  destruct (runs_switch_protocol_calls (with_broadcasters (fresh cfg) cfg)
              (selected_protocol cfg) (selected_protocol_truthy cfg))
    as [lg Hsw].
  { unfold with_broadcasters. by destruct (negb _ && _). }
  destruct (start_with dq (fresh cfg) cfg st _ _ _ eq_refl eq_refl Hok Ho Hsw)
    as (H1 & H2 & H3).
  rewrite H1, H2, H3. unfold with_broadcasters, command_calls, broadcast_calls.
  by destruct (broadcastSystemState cfg).
Qed.

Lemma first_start_order_witness :
  let r := start 0 (fresh (mkSettings None None None true),
                    MessageQueue.constructor registered_client) in
  r.1 = Normal
  ∧ trace r.2.2
    = [Connect;
       Publish (birth_message 0 (fresh (mkSettings None None None true)));
       CommandHandler_new; SystemStateDispatcher_new;
       HomieDispatcher_new; HomeAssistantDispatcher_new;
       HomeAssistantDispatcher_register; HomieDispatcher_register].
Proof.
  destruct (first_start_order 0 (mkSettings None None None true)
              (MessageQueue.constructor registered_client))
    as (H1 & H2 & _); [reflexivity|discriminate|].
  split; [exact H1|exact H2].
Defined.

(** X17. A [start] while the protocol of the settings is the one already
    running (as when [settingsChanged] calls it): the protocol dispatchers
    are neither destroyed nor made again. The command handler is replaced,
    the [broadcast] flag of each protocol dispatcher there is is assigned
    from the settings ([broadcastDevices !== false]), and a system state
    dispatcher is made when the settings ask for one and there is none. *)
Theorem restart_keeps_dispatchers dq h cfg st :
  mqttClient h = true → settings h = Some cfg →
  connect_ok st = true → hd Resolves (outcomes st) ≠ Throws →
  protocol h = Some (selected_protocol cfg) →
  let r := start dq (h, st) in
  r.1 = Normal
  ∧ trace r.2.2
    = trace st ++ [Connect; Publish (birth_message dq h)]
        ++ command_calls h ++ broadcast_calls h cfg
  ∧ r.2.1 = with_broadcasters h cfg
  ∧ homieDispatcher r.2.1 = homieDispatcher h
  ∧ homeAssistantDispatcher r.2.1 = homeAssistantDispatcher h
  ∧ protocol r.2.1 = protocol h.
Proof.
  intros Hc Hs Hok Ho Hp r. subst r.
  destruct (start_with dq h cfg st (with_broadcasters h cfg) [] [] Hc Hs Hok Ho)
    as (H1 & H2 & H3).
  { apply runs_same_protocol. unfold with_broadcasters.
    destruct (negb _ && _); by destruct h. }
  rewrite H1, H2, H3, app_nil_r. unfold with_broadcasters.
  destruct (negb _ && _); by destruct h.
Qed.

Lemma restart_keeps_dispatchers_witness :
  let r := start 0 (all_running, MessageQueue.constructor registered_client) in
  r.1 = Normal
  ∧ trace r.2.2
    = [Connect; Publish (birth_message 0 all_running);
       CommandHandler_destroy; CommandHandler_new;
       HomieDispatcher_broadcast true; HomeAssistantDispatcher_broadcast true].
Proof.
  destruct (restart_keeps_dispatchers 0 all_running
              (mkSettings (Some "Homey") None None true)
              (MessageQueue.constructor registered_client))
    as (H1 & H2 & _); [reflexivity|reflexivity|reflexivity|discriminate|reflexivity|].
  split; [exact H1|exact H2].
Defined.

(** X18. A [start] while another protocol is running: after the command
    handler and the broadcasters, the protocol dispatchers there are are
    destroyed, the Homie dispatcher first; then the new ones are made and
    registered. [this.protocol] is the protocol of the settings
    afterwards. *)
Theorem start_switches_protocol dq h cfg old st :
  mqttClient h = true → settings h = Some cfg →
  connect_ok st = true → hd Resolves (outcomes st) ≠ Throws →
  protocol h = Some old → truthy old = true → old ≠ selected_protocol cfg →
  let r := start dq (h, st) in
  r.1 = Normal
  ∧ trace r.2.2
    = trace st ++ [Connect; Publish (birth_message dq h)]
        ++ command_calls h ++ broadcast_calls h cfg
        ++ (if homieDispatcher h then [HomieDispatcher_destroy] else [])
        ++ (if homeAssistantDispatcher h then [HomeAssistantDispatcher_destroy] else [])
        ++ [HomieDispatcher_new; HomeAssistantDispatcher_new;
            HomeAssistantDispatcher_register; HomieDispatcher_register]
  ∧ protocol r.2.1 = Some (selected_protocol cfg)
  ∧ homieDispatcher r.2.1 = true ∧ homeAssistantDispatcher r.2.1 = true.
Proof.
  intros Hc Hs Hok Ho Hp Hold Hne r. subst r.
  destruct (runs_switch_protocol_calls (with_broadcasters h cfg)
              (selected_protocol cfg) (selected_protocol_truthy cfg))
    as [lg Hsw].
  { unfold with_broadcasters. destruct (negb _ && _); destruct h; hub_fields; congruence. }
  destruct (start_with dq h cfg st _ _ _ Hc Hs Hok Ho Hsw) as (H1 & H2 & H3).
  rewrite H1, H2, H3.
  assert (protocol (with_broadcasters h cfg) = Some old
          ∧ homieDispatcher (with_broadcasters h cfg) = homieDispatcher h
          ∧ homeAssistantDispatcher (with_broadcasters h cfg)
            = homeAssistantDispatcher h) as (-> & -> & ->).
  { unfold with_broadcasters. destruct (negb _ && _); by destruct h. }
  cbn [truthy_opt]. rewrite Hold.
  split_and!; [done| |done..].
  by rewrite <- !app_assoc.
Qed.

Lemma start_switches_protocol_witness :
  let h := mkHub true (Some (mkSettings (Some "Homey") (Some "custom") None true))
             (Some "homie3") true true true true in
  let r := start 0 (h, MessageQueue.constructor registered_client) in
  r.1 = Normal ∧ protocol r.2.1 = Some "custom".
Proof.
  destruct (start_switches_protocol 0
              (mkHub true (Some (mkSettings (Some "Homey") (Some "custom") None true))
                 (Some "homie3") true true true true)
              (mkSettings (Some "Homey") (Some "custom") None true) "homie3"
              (MessageQueue.constructor registered_client))
    as (H1 & _ & H2 & _);
    [reflexivity|reflexivity|reflexivity|discriminate|reflexivity|reflexivity
    |discriminate|].
  split; [exact H1|exact H2].
Defined.

(** **** [stop] without a system state dispatcher *)

(** X19. [stop] with a Home Assistant dispatcher and no system state
    dispatcher (the state a first [start] leaves when the settings do not
    ask for a system state dispatcher) throws in [_stopBroadcasters]. By
    then the last-will message is published, the client disconnected and
    the command handler destroyed; the protocol dispatchers are not
    destroyed, [this.protocol] stays, and "app running: false" is not
    logged. *)
Theorem stop_throws_without_system_dispatcher dq h st :
  mqttClient h = true → hd Resolves (outcomes st) ≠ Throws →
  homeAssistantDispatcher h = true → systemStateDispatcher h = false →
  let r := stop dq (h, st) in
  r.1 = Thrown
  ∧ trace r.2.2
    = trace st ++ [Publish (last_will_message dq h); Disconnect]
        ++ (if commandHandler h then [CommandHandler_destroy] else [])
        ++ (if homieDispatcher h then [HomieDispatcher_broadcast false] else [])
  ∧ r.2.1 = set_commandHandler false h
  ∧ last (log r.2.2) = Some (Log_info "stop Home Assistant dispatcher").
Proof.
  intros Hc Ho Hha Hss r. subst r. unfold stop.
  rewrite (seq_Normal _ _ _ _ (sendLastWillMessage_Normal dq h st Hc Ho)).
  rewrite (seq_Normal _ _ _ _ (runs_log _ h _)).
  rewrite (seq_Normal _ _ _ _ (disconnect_eq h _ Hc)).
  rewrite (seq_Normal _ _ _ _ (runs_stopCommands h _)).
  destruct h as [mc se pr ch hm ha ss]. hub_fields. subst.
  destruct ch, hm; cbn;
    (split_and!;
       [done|by rewrite ?app_nil_r, <- ?app_assoc|done|by rewrite last_snoc]).
Qed.

Lemma stop_throws_without_system_dispatcher_witness :
  let h := mkHub true (Some (mkSettings (Some "Homey") None None false))
             (Some "homie3") true true true false in
  let r := stop 0 (h, MessageQueue.constructor registered_client) in
  r.1 = Thrown ∧ r.2.1 = set_commandHandler false h.
Proof.
  destruct (stop_throws_without_system_dispatcher 0
              (mkHub true (Some (mkSettings (Some "Homey") None None false))
                 (Some "homie3") true true true false)
              (MessageQueue.constructor registered_client))
    as (H1 & _ & H2 & _); [reflexivity|discriminate|reflexivity|reflexivity|].
  split; [exact H1|exact H2].
Defined.

(** **** [stop] and then [start] *)

Lemma stop_result dq h st :
  mqttClient h = true → hd Resolves (outcomes st) ≠ Throws →
  (homeAssistantDispatcher h = true → systemStateDispatcher h = true) →
  (∃ x, protocol h = Some x ∧ truthy x = true) →
  ∃ evs lg,
    stop dq (h, st)
    = (Normal,
       (mkHub true (settings h) None false false false false,
        effects evs lg (set_outcomes (drop 1) st))).
Proof.
  intros Hc Ho Hss Hp.
  destruct (runs_stop_components h Hss)
    as (h' & evs & lg & Hrun & _ & _ & Hch & Hsd & Hpr & Hdisp).
  destruct (Hdisp Hp) as [Hhm Hha].
  destruct (keeps_stop dq h st) as (Hs & Hmc & _).
  unfold runs in Hrun. unfold stop in *.
  rewrite (seq_Normal _ _ _ _ (sendLastWillMessage_Normal dq h st Hc Ho)) in *.
  rewrite (seq_Normal _ _ _ _ (runs_log _ h _)) in *.
  rewrite (seq_Normal _ _ _ _ (disconnect_eq h _ Hc)) in *.
  rewrite Hrun in *. cbn [fst snd] in Hs, Hmc.
  exists ([Publish (last_will_message dq h); Disconnect] ++ evs),
    ([Log_info "app stop"] ++ lg).
  f_equal. f_equal.
  - destruct h'. hub_fields. congruence.
  - apply QueueProofs.State_eq; cbn; try reflexivity;
      by rewrite ?app_nil_r, <- ?app_assoc.
Qed.

(** X25. A [stop] that goes through (a client, a last-will [publish] that
    does not throw, a system state dispatcher wherever there is a Home
    Assistant dispatcher, a protocol running) leaves the app as it was
    before its first [start]: no component and no protocol. A [start] after
    it makes everything anew, with the calls of a first [start] in the
    same order. *)
Theorem stop_then_start dq h cfg st :
  mqttClient h = true → settings h = Some cfg →
  (homeAssistantDispatcher h = true → systemStateDispatcher h = true) →
  (∃ x, protocol h = Some x ∧ truthy x = true) →
  connect_ok st = true →
  hd Resolves (outcomes st) ≠ Throws →
  hd Resolves (drop 1 (outcomes st)) ≠ Throws →
  let s1 := stop dq (h, st) in
  let s2 := start dq s1.2 in
  s1.1 = Normal ∧ s1.2.1 = fresh cfg
  ∧ s2.1 = Normal
  ∧ trace s2.2.2
    = trace s1.2.2
        ++ [Connect; Publish (birth_message dq h); CommandHandler_new]
        ++ (if broadcastSystemState cfg then [SystemStateDispatcher_new] else [])
        ++ [HomieDispatcher_new; HomeAssistantDispatcher_new;
            HomeAssistantDispatcher_register; HomieDispatcher_register]
  ∧ s2.2.1 = mkHub true (Some cfg) (Some (selected_protocol cfg)) true true true
               (broadcastSystemState cfg).
Proof.
  intros Hc Hs Hss Hp Hok Ho Ho2 s1 s2. subst s1 s2.
  destruct (stop_result dq h st Hc Ho Hss Hp) as (evs & lg & ->).
  rewrite Hs. cbn [fst snd]. fold (fresh cfg).
  set (st1 := effects evs lg (set_outcomes (drop 1) st)).
  destruct (runs_switch_protocol_calls (with_broadcasters (fresh cfg) cfg)
              (selected_protocol cfg) (selected_protocol_truthy cfg))
    as [lg' Hsw].
  { unfold with_broadcasters. by destruct (negb _ && _). }
  destruct (start_with dq (fresh cfg) cfg st1 _ _ _ eq_refl eq_refl Hok Ho2 Hsw)
    as (H1 & H2 & H3).
  rewrite H1, H2, H3.
  destruct (messages_of_settings dq h (fresh cfg)) as [-> _]; [by rewrite Hs|].
  unfold with_broadcasters, command_calls, broadcast_calls.
  by destruct (broadcastSystemState cfg).
Qed.

Lemma stop_then_start_witness :
  let s1 := stop 0 (all_running, MessageQueue.constructor registered_client) in
  s1.1 = Normal ∧ s1.2.1 = fresh (mkSettings (Some "Homey") None None true)
  ∧ (start 0 s1.2).1 = Normal.
Proof.
  destruct (stop_then_start 0 all_running (mkSettings (Some "Homey") None None true)
              (MessageQueue.constructor registered_client))
    as (H1 & H2 & H3 & _);
    [reflexivity|reflexivity|reflexivity|by exists "homie3"|reflexivity
    |discriminate|discriminate|].
  split_and!; [exact H1|exact H2|exact H3].
Defined.

(** **** [uninstall] and [setRunning] *)

(** X20. [uninstall] never throws; it changes no field of the app, not
    the message queue and not the log. With a client it publishes the
    last-will message and then disconnects; when that [publish] throws, the
    client is not disconnected. Without a client it does nothing. *)
Theorem uninstall_never_throws dq h st :
  let r := uninstall dq (h, st) in
  r.1 = Normal ∧ r.2.1 = h
  ∧ queue_state r.2.2 = queue_state st
  ∧ log r.2.2 = log st
  ∧ trace r.2.2
    = trace st
        ++ (if mqttClient h
            then Publish (last_will_message dq h)
                   :: match hd Resolves (outcomes st) with
                      | Throws => []
                      | _ => [Disconnect]
                      end
            else []).
Proof.
  intros r. subst r. unfold uninstall, try_catch, seq.
  destruct (mqttClient h) eqn:Hc.
  - rewrite sendLastWillMessage_eq by done.
    destruct (hd Resolves (outcomes st)).
    + rewrite disconnect_eq by done. cbn. split_and!; try done.
      by rewrite <- app_assoc.
    + rewrite disconnect_eq by done. cbn. split_and!; try done.
      by rewrite <- app_assoc.
    + cbn. by split_and!.
  - unfold _sendLastWillMessage, with_mqttClient. cbn [fst snd]. rewrite Hc.
    cbn. rewrite Hc. cbn. split_and!; try done. by rewrite app_nil_r.
Qed.

(** X21. [setRunning]. Without a client it only logs "switch on" or
    "switch off". With a client, [setRunning(false)] is [stop] after that
    log entry; [setRunning(true)] does not throw, does what [start] does
    and then logs "App running", also when [start] has failed: the log then
    ends with "Failed to start app", the error, "App running". *)
Theorem setRunning_outcome dq h st :
  (mqttClient h = false →
   ∀ running,
     setRunning dq running (h, st)
     = (Normal, (h, write_log (Log_info (if running then "switch on"
                                         else "switch off")) st)))
  ∧ (mqttClient h = true →
     setRunning dq false (h, st)
     = stop dq (h, write_log (Log_info "switch off") st))
  ∧ (mqttClient h = true →
     let r := setRunning dq true (h, st) in
     let s := start dq (h, write_log (Log_info "switch on") st) in
     r.1 = Normal ∧ r.2.1 = s.2.1 ∧ trace r.2.2 = trace s.2.2
     ∧ log r.2.2 = log s.2.2 ++ [Log_info "App running"]
     ∧ (¬ start_succeeds h st →
        ∃ lg, log r.2.2
              = lg ++ [Log_error "Failed to start app"; Log_error_exn;
                       Log_info "App running"])).
Proof.
  split_and!.
  - intros Hc running. unfold setRunning, seq, log_write, when. cbn [fst snd].
    by rewrite Hc.
  - intros Hc. unfold setRunning, seq, log_write, when. cbn [fst snd].
    by rewrite Hc.
  - intros Hc r s. subst r s.
    set (st1 := write_log (Log_info "switch on") st).
    assert (setRunning dq true (h, st)
            = (Normal, ((start dq (h, st1)).2.1,
                        write_log (Log_info "App running") (start dq (h, st1)).2.2)))
      as ->.
    { destruct (start_end dq (h, st1)) as (H1 & _).
      unfold setRunning, seq, when, detached, then_catch, try_catch.
      change (log_write (Log_info "switch on") (h, st)) with (Normal, (h, st1)).
      cbn [fst snd]. rewrite Hc. unfold seq.
      destruct (start dq (h, st1)) as [[] [h0 s0]]; [done|by cbn in H1]. }
    cbn [fst snd]. split_and!; [done..|].
    intros Hfail.
    destruct (start_end dq (h, st1)) as (_ & _ & H3).
    destruct (start_body_completion dq h st1) as [_ B2].
    destruct (H3 (B2 Hfail)) as [lg Hlg]. exists lg.
    cbn. rewrite Hlg. by rewrite <- app_assoc.
Qed.

(** **** [updateSettings] *)

Lemma truthy_default_Homey n : truthy (default "Homey" (or_string n None)) = true.
Proof. destruct n as [x|]; [|done]. cbn. by destruct (truthy x) eqn:Hx. Qed.

Lemma updateSettings_unfold n d sn tr ht :
  let name := default "Homey" (or_string n None) in
  let r := mkStored (or_string d (Some name)) (Some name)
             (if truthy_opt tr && negb (truthy_opt ht) then None else tr)
             (if truthy_opt tr && negb (truthy_opt ht) then tr else ht) in
  updateSettings n (mkStored d sn tr ht)
  = if bool_decide (d = None) || negb (bool_decide (sn = Some name)) || truthy_opt tr
    then (r, [Log_debug ("Settings initial deviceId: "
                         +:+ js_string (or_string d (Some name)));
              ManagerSettings_set r; Log_debug "Settings updated"])
    else (mkStored d sn tr ht, []).
Proof.
  intros name r. subst r. unfold updateSettings. fold name.
  cbn [stored_deviceId stored_systemName stored_topicRoot stored_homieTopic].
  destruct (bool_decide (d = None) || negb (bool_decide (sn = Some name))
            || truthy_opt tr); [|done].
  by destruct (truthy_opt tr && negb (truthy_opt ht)).
Qed.

Lemma or_string_name (d : option string) name :
  truthy name = true →
  or_string d (Some name) ≠ None
  ∧ truthy_opt (or_string d (Some name)) = true
  ∧ or_string (or_string d (Some name)) (Some name) = or_string d (Some name)
  ∧ (truthy_opt d = true → or_string d (Some name) = d)
  ∧ (truthy_opt d = false → or_string d (Some name) = Some name).
Proof.
  intros Hname. destruct d as [x|]; cbn; [destruct (truthy x) eqn:Hx|];
    cbn; rewrite ?Hx, ?Hname; by split_and!.
Qed.

(** X22. After [updateSettings], [settings.systemName] is the system's
    name, or "Homey" when the system has none, and [settings.deviceId] is
    defined. A device id that is a non-empty string is never changed: it
    outlives a change of the system's name. When the settings are saved,
    the device id is non-empty (a missing or empty one has become the
    system name) and what is saved is what is left in [this.settings].
    When nothing is saved, the settings are as before. *)
Theorem updateSettings_result n s :
  let name := default "Homey" (or_string n None) in
  let r := (updateSettings n s).1 in
  stored_systemName r = Some name
  ∧ is_Some (stored_deviceId r)
  ∧ (truthy_opt (stored_deviceId s) = true → stored_deviceId r = stored_deviceId s)
  ∧ ((updateSettings n s).2 ≠ [] →
     truthy_opt (stored_deviceId r) = true
     ∧ (truthy_opt (stored_deviceId s) = false → stored_deviceId r = Some name)
     ∧ (updateSettings n s).2
       = [Log_debug ("Settings initial deviceId: " +:+ js_string (stored_deviceId r));
          ManagerSettings_set r; Log_debug "Settings updated"])
  ∧ ((updateSettings n s).2 = [] → r = s).
Proof.
  intros name r. subst r. destruct s as [d sn tr ht].
  rewrite updateSettings_unfold. fold name.
  destruct (or_string_name d name (truthy_default_Homey n)) as (O1 & O2 & O3 & O4 & O5).
  destruct (bool_decide (d = None) || negb (bool_decide (sn = Some name))
            || truthy_opt tr) eqn:Hcond; cbn [fst snd stored_deviceId stored_systemName].
  - split_and!; [done| |done| |done].
    + by destruct (or_string d (Some name)).
    + intros _. by split_and!.
  - apply orb_false_iff in Hcond as [Hcond _].
    apply orb_false_iff in Hcond as [Hd Hsn].
    apply negb_false_iff, bool_decide_eq_true in Hsn.
    apply bool_decide_eq_false in Hd.
    split_and!; [done|by destruct d|done..].
Qed.

(** X23. [updateSettings] called again leaves the settings as the first
    call left them. The second call saves them again exactly when the
    original settings had both [topicRoot] and [homieTopic] set: that
    [topicRoot] is never deleted. A [topicRoot] without a [homieTopic] is
    moved to [homieTopic] and deleted; in the other cases the two keys are
    left as they are. *)
Theorem updateSettings_again n s :
  let r := (updateSettings n s).1 in
  (updateSettings n r).1 = r
  ∧ ((updateSettings n r).2 ≠ []
     ↔ truthy_opt (stored_topicRoot s) = true
       ∧ truthy_opt (stored_homieTopic s) = true)
  ∧ (truthy_opt (stored_topicRoot s) = true →
     truthy_opt (stored_homieTopic s) = false →
     stored_homieTopic r = stored_topicRoot s ∧ stored_topicRoot r = None)
  ∧ (truthy_opt (stored_topicRoot s) = false ∨ truthy_opt (stored_homieTopic s) = true →
     stored_homieTopic r = stored_homieTopic s
     ∧ stored_topicRoot r = stored_topicRoot s).
Proof.
  intros r. subst r. destruct s as [d sn tr ht].
  cbn [stored_topicRoot stored_homieTopic].
  rewrite (updateSettings_unfold n d sn tr ht).
  set (name := default "Homey" (or_string n None)).
  destruct (or_string_name d name (truthy_default_Homey n)) as (O1 & O2 & O3 & O4 & O5).
  destruct (bool_decide (d = None) || negb (bool_decide (sn = Some name))
            || truthy_opt tr) eqn:Hcond; cbn [fst snd].
  - rewrite updateSettings_unfold. fold name.
    rewrite (bool_decide_false _ O1), (bool_decide_true (Some name = Some name)) by done.
    cbn [orb negb]. rewrite O3.
    destruct (truthy_opt tr) eqn:Htr, (truthy_opt ht) eqn:Hht;
      cbn [andb negb truthy_opt]; rewrite ?Htr, ?Hht;
      cbn [andb negb fst snd stored_topicRoot stored_homieTopic].
    + split_and!; [done|done|done|done].
    + split_and!; [done|split; [done|by intros []]|done|by intros [|]].
    + split_and!; [done|split; [done|by intros []]|done|done].
    + split_and!; [done|split; [done|by intros []]|done|done].
  - rewrite updateSettings_unfold. fold name. rewrite Hcond.
    cbn [fst snd stored_topicRoot stored_homieTopic].
    apply orb_false_iff in Hcond as [_ Htr]. rewrite Htr.
    split_and!; [done|split; [done|by intros []]|done|done].
Qed.

(** **** The topic of the birth and last-will messages *)

Lemma GetSubstitution_dollar_free matched before after d :
  dollar_free d = true → JS.GetSubstitution matched before after d = d.
Proof.
  induction d as [|c d IH]; [done|]. cbn [dollar_free JS.GetSubstitution].
  intros [Hc Hd]%andb_true_iff. apply negb_true_iff in Hc. rewrite Hc.
  by rewrite IH.
Qed.

Lemma replace_deviceId d :
  JS.replace "{deviceId}/hub/status" "{deviceId}" d
  = JS.GetSubstitution "{deviceId}" "" "/hub/status" d +:+ "/hub/status".
Proof. reflexivity. Qed.

(** X24. The topic of the birth message and of the last-will message.
    When [settings.deviceId] is a non-empty string without a dollar sign,
    the topic is that device id followed by "/hub/status". When there are
    no settings, or no device id, or an empty one, the topic is
    "Homey/hub/status". *)
Theorem birth_topic dq h :
  (∀ cfg d,
     settings h = Some cfg → deviceId cfg = Some d →
     truthy d = true → dollar_free d = true →
     mqttTopic (birth_message dq h) = d +:+ "/hub/status"
     ∧ mqttTopic (last_will_message dq h) = d +:+ "/hub/status")
  ∧ (settings h = None
     ∨ (∃ cfg, settings h = Some cfg
               ∧ (deviceId cfg = None ∨ deviceId cfg = Some "")) →
     mqttTopic (birth_message dq h) = "Homey/hub/status"
     ∧ mqttTopic (last_will_message dq h) = "Homey/hub/status").
Proof.
  split.
  - intros cfg d Hs Hdev Ht Hd.
    assert (hub_deviceId h = d) as Hid
      by (unfold hub_deviceId; by rewrite Hs, Hdev, Ht).
    cbn [birth_message last_will_message Message_new mqttTopic].
    unfold BIRTH_TOPIC, WILL_TOPIC.
    by rewrite Hid, replace_deviceId, GetSubstitution_dollar_free.
  - intros Hno.
    assert (hub_deviceId h = "Homey") as Hid.
    { unfold hub_deviceId.
      destruct Hno as [->|(cfg & -> & [->| ->])]; done. }
    cbn [birth_message last_will_message Message_new mqttTopic].
    by rewrite Hid.
Qed.

Lemma birth_topic_witness :
  let h := mkHub true (Some (mkSettings (Some "Attic") None None false))
             None false false false false in
  mqttTopic (birth_message 0 h) = "Attic/hub/status"
  ∧ mqttTopic (last_will_message 0 h) = "Attic/hub/status".
Proof.
  destruct (birth_topic 0
              (mkHub true (Some (mkSettings (Some "Attic") None None false))
                 None false false false false)) as [H _].
  apply (H (mkSettings (Some "Attic") None None false) "Attic"); reflexivity.
Defined.

(** A device id is a replacement text for [replace]: "$&" stands for the
    text that is replaced. *)
Example birth_topic_with_pattern :
  mqttTopic (birth_message 0
               (mkHub true (Some (mkSettings (Some "$&") None None false))
                  None false false false false))
  = "{deviceId}/hub/status".
Proof. reflexivity. Qed.
End HubProofs.
